(** * wiki-to-leveldb: a shallow embedding and its properties

    The program streams a Wikipedia XML dump, filters pages by namespace,
    writes redirects directly and sends every other page to a pool of
    parsing workers; results are collected in batches and written to
    LevelDB, with a pause/resume back-pressure on the input stream.

    Layout of this file:
    - JavaScript strings as UTF-16 code units, the pieces of the string
      library the program calls, and a backtracking matcher for the two
      regular-expression literals;
    - the handlers of the master, the handler of the worker and the
      event-driven system they form;
    - sample inputs;
    - lemmas and theorems about the handlers, invariants of the system,
      and the theorems at the sample inputs. *)

From Stdlib Require Import ZArith Lia Bool List QArith_base Qround.
From Stdlib Require String Ascii.
From stdpp Require Import base option list gmap.
Import String.StringSyntax.
Delimit Scope string_scope with string.

Local Open Scope Z_scope.

(** ** JavaScript strings *)

(** A JavaScript string is a sequence of UTF-16 code units. *)
Abbreviation jsstring := (list Z).

(** ASCII literals of the source, as code units. *)
Definition js (s : String.string) : jsstring :=
  map (fun a => Z.of_N (Ascii.N_of_ascii a)) (String.list_ascii_of_string s).
Arguments js s%_string.

(** The Cyrillic literal of the namespace pattern, U+041A U+0430 U+0442
    U+0435 U+0433 U+043E U+0440 U+0438 U+044F. *)
Definition kategoriya : jsstring :=
  [0x41A; 0x430; 0x442; 0x435; 0x433; 0x43E; 0x440; 0x438; 0x44F].

Definition inRange (lo hi c : Z) : bool := (lo <=? c) && (c <=? hi).

Definition asciiUpper (c : Z) : Z := if inRange 97 122 c then c - 32 else c.
Definition asciiLower (c : Z) : Z := if inRange 65 90 c then c + 32 else c.
Definition isAsciiAlpha (c : Z) : bool := inRange 65 90 c || inRange 97 122 c.
Definition isAsciiDigit (c : Z) : bool := inRange 48 57 c.

Definition isHighSurrogate (c : Z) : bool := inRange 0xD800 0xDBFF c.
Definition isLowSurrogate (c : Z) : bool := inRange 0xDC00 0xDFFF c.
Definition isSurrogate (c : Z) : bool := inRange 0xD800 0xDFFF c.

(** LineTerminator and WhiteSpace of ECMAScript: the set [\s] of a regular
    expression, and what [String.prototype.trim] strips. *)
Definition isLineTerminator (c : Z) : bool :=
  (c =? 0x0A) || (c =? 0x0D) || (c =? 0x2028) || (c =? 0x2029).

Definition isWhiteSpace (c : Z) : bool :=
  inRange 0x09 0x0D c || (c =? 0x20) || (c =? 0xA0) || (c =? 0x1680)
  || inRange 0x2000 0x200A c || (c =? 0x2028) || (c =? 0x2029)
  || (c =? 0x202F) || (c =? 0x205F) || (c =? 0x3000) || (c =? 0xFEFF).

(** Code points of a string: a high surrogate followed by a low one is one
    code point, every other code unit stands for itself. *)
Fixpoint codePoints (s : jsstring) : list Z :=
  match s with
  | [] => []
  | c :: t =>
      match t with
      | d :: t' =>
          if isHighSurrogate c && isLowSurrogate d
          then (0x10000 + (c - 0xD800) * 0x400 + (d - 0xDC00)) :: codePoints t'
          else c :: codePoints t
      | [] => [c]
      end
  end.

Definition utf16 (cps : list Z) : jsstring :=
  flat_map (fun cp =>
              if 0x10000 <=? cp
              then [0xD800 + (cp - 0x10000) / 0x400; 0xDC00 + (cp - 0x10000) mod 0x400]
              else [cp]) cps.

(** [String.prototype.trim]: white space and line terminators are removed
    from both ends. *)
Fixpoint trimStart (s : jsstring) : jsstring :=
  match s with
  | c :: t => if isWhiteSpace c then trimStart t else s
  | [] => []
  end.

Definition trimEnd (s : jsstring) : jsstring := rev (trimStart (rev s)).

Definition trim (s : jsstring) : jsstring := trimEnd (trimStart s).

(** ** The engine's Unicode tables

    ASCII behaviour is fixed by the language and written out below; what
    lies beyond ASCII comes from the Unicode tables built into the engine:
    the full uppercase mapping of a code point, its simple case folding,
    and membership in the regular-expression class [\p{L}] (closed under
    case folding when the flag [i] is set). *)
Class UnicodeTables := {
  upperTable : Z -> list Z;
  scfTable : Z -> Z;
  letterTable : bool -> Z -> bool
}.

(** The parser of the [wikiparse] package is outside the repository: it is
    an object with a state, a [parse] method that returns a syntax tree or
    an [Error] value (option [returnError]) and a [backtrackingCount]
    field. *)
Class WikiParser := {
  Node : Type;
  JSError : Type;
  ParserState : Type;
  newParser : ParserState;
  parse : ParserState -> jsstring -> ParserState * (list Node + JSError);
  backtrackingCount : ParserState -> Z
}.

(** The switch [--with-source] of the command line. *)
Class Options := { kWithSource : bool }.

Section WikiImport.

Context {tables : UnicodeTables} {wikiparse : WikiParser} {options : Options}.

Definition upperCodePoint (cp : Z) : list Z :=
  if isSurrogate cp then [cp]
  else if cp <? 128 then [asciiUpper cp]
  else upperTable cp.

(** [String.prototype.toUpperCase]. *)
Definition toUpperCase (s : jsstring) : jsstring :=
  utf16 (flat_map upperCodePoint (codePoints s)).

(** [string[0]] of a non-empty string and [string.substr(1)]. *)
Definition charAt0 (s : jsstring) : jsstring := firstn 1 s.
Definition substr1 (s : jsstring) : jsstring := skipn 1 s.

Definition isEmpty (s : jsstring) : bool :=
  match s with [] => true | _ => false end.

(** [capitalizeFirst], lines 50-52. *)
Definition capitalizeFirst (str : jsstring) : jsstring :=
  if negb (isEmpty str) then toUpperCase (charAt0 str) ++ substr1 str else [].

(** ** Regular expressions

    The two literals of the program are built from the constructors below
    and run by a backtracking matcher that follows the ECMAScript
    semantics: alternatives left to right, greedy quantifiers, one
    capturing group. A quantifier is only ever applied to a single
    character set in the program, so [RStar] and [RPlus] take one. *)

Record Flags := { ignoreCase : bool; unicode : bool }.

Inductive CharSet :=
| CsChar (c : Z)     (* a pattern character *)
| CsDot              (* .     *)
| CsSpace            (* \s    *)
| CsWord             (* \w    *)
| CsLetter.          (* \p{L} *)

Inductive Regex :=
| REmpty
| RSet (cs : CharSet)
| RBol                      (* ^ *)
| RSeq (a b : Regex)
| RAlt (a b : Regex)
| ROpt (cs : CharSet)       (* cs? *)
| RStar (cs : CharSet)      (* cs* *)
| RPlus (cs : CharSet)      (* cs+ *)
| RNegLook (a : Regex)      (* (?!a) *)
| RGroup (a : Regex).       (* (a) *)

(** Canonicalize of the specification: simple case folding under [u],
    the upper-case mapping (kept only when it is one code unit and does
    not turn a non-ASCII character into an ASCII one) without it. *)
Definition simpleFold (ch : Z) : Z :=
  if ch <? 128 then asciiLower ch else scfTable ch.

Definition canonUpper (ch : Z) : Z :=
  match utf16 (upperCodePoint ch) with
  | [cu] => if (128 <=? ch) && (cu <? 128) then ch else cu
  | _ => ch
  end.

Definition canonicalize (fl : Flags) (ch : Z) : Z :=
  if ignoreCase fl then (if unicode fl then simpleFold ch else canonUpper ch)
  else ch.

Definition isBasicWord (ch : Z) : bool :=
  isAsciiAlpha ch || isAsciiDigit ch || (ch =? 95).

(** [\w]: with both [u] and [i] the set also holds U+017F and U+212A,
    which fold to [s] and [k]. *)
Definition isWordChar (fl : Flags) (ch : Z) : bool :=
  isBasicWord ch
  || (unicode fl && ignoreCase fl && ((ch =? 0x17F) || (ch =? 0x212A))).

Definition isLetter (fl : Flags) (ch : Z) : bool :=
  if ch <? 128 then isAsciiAlpha ch else letterTable (ignoreCase fl) ch.

Definition csMatch (fl : Flags) (cs : CharSet) (ch : Z) : bool :=
  match cs with
  | CsChar c => canonicalize fl ch =? canonicalize fl c
  | CsDot => negb (isLineTerminator ch)
  | CsSpace => isWhiteSpace ch
  | CsWord => isWordChar fl ch
  | CsLetter => isLetter fl ch
  end.

(** A match state is the index reached, the input left and the text of
    the capturing group; a continuation receives it. *)
Definition Capture := option (list Z).
Definition Cont := nat -> list Z -> Capture -> option Capture.

(** Greedy [cs*]: take one more character when possible and come back to
    the shorter match if the rest fails. *)
Fixpoint starM (fl : Flags) (cs : CharSet) (pos : nat) (s : list Z)
    (cap : Capture) (k : Cont) : option Capture :=
  match s with
  | ch :: s' =>
      if csMatch fl cs ch
      then match starM fl cs (S pos) s' cap k with
           | Some r => Some r
           | None => k pos s cap
           end
      else k pos s cap
  | [] => k pos s cap
  end.

Definition setM (fl : Flags) (cs : CharSet) (pos : nat) (s : list Z)
    (cap : Capture) (k : Cont) : option Capture :=
  match s with
  | ch :: s' => if csMatch fl cs ch then k (S pos) s' cap else None
  | [] => None
  end.

Fixpoint matchM (fl : Flags) (r : Regex) (pos : nat) (s : list Z)
    (cap : Capture) (k : Cont) : option Capture :=
  match r with
  | REmpty => k pos s cap
  | RSet cs => setM fl cs pos s cap k
  | RBol => match pos with O => k pos s cap | S _ => None end
  | RSeq a b =>
      matchM fl a pos s cap (fun pos' s' cap' => matchM fl b pos' s' cap' k)
  | RAlt a b =>
      match matchM fl a pos s cap k with
      | Some r => Some r
      | None => matchM fl b pos s cap k
      end
  | ROpt cs =>
      match setM fl cs pos s cap k with
      | Some r => Some r
      | None => k pos s cap
      end
  | RStar cs => starM fl cs pos s cap k
  | RPlus cs => setM fl cs pos s cap (fun pos' s' cap' => starM fl cs pos' s' cap' k)
  | RNegLook a =>
      match matchM fl a pos s cap (fun _ _ c => Some c) with
      | Some _ => None
      | None => k pos s cap
      end
  | RGroup a =>
      matchM fl a pos s cap
        (fun pos' s' _ => k pos' s' (Some (firstn (pos' - pos) s)))
  end.

(** The match is tried at every start index, left to right. *)
Fixpoint searchM (fl : Flags) (r : Regex) (pos : nat) (s : list Z)
    : option Capture :=
  match matchM fl r pos s None (fun _ _ c => Some c) with
  | Some c => Some c
  | None => match s with
            | _ :: s' => searchM fl r (S pos) s'
            | [] => None
            end
  end.

(** With [u] the input is read as code points, without it as code units. *)
Definition regexInput (fl : Flags) (s : jsstring) : list Z :=
  if unicode fl then codePoints s else s.

Definition regexExec (fl : Flags) (r : Regex) (s : jsstring) : option Capture :=
  searchM fl r 0 (regexInput fl s).

Definition matched (o : option Capture) : bool :=
  match o with Some _ => true | None => false end.

(** [re.test(s)]. *)
Definition regexTest (fl : Flags) (r : Regex) (s : jsstring) : bool :=
  matched (regexExec fl r s).

(** [s.match(re)[1]] of a pattern whose group takes part in every match;
    [None] when [s.match(re)] is [null]. *)
Definition regexGroup1 (fl : Flags) (r : Regex) (s : jsstring)
    : option jsstring :=
  match regexExec fl r s with
  | Some (Some g) => Some (if unicode fl then utf16 g else g)
  | _ => None
  end.

Definition lit (s : jsstring) : Regex :=
  fold_right (fun c r => RSeq (RSet (CsChar c)) r) REmpty s.

(** [/^(?!(Category|Категория):)\p{L}+:\w/ui], line 137. *)
Definition namespaceFlags : Flags := {| ignoreCase := true; unicode := true |}.

Definition namespacePattern : Regex :=
  RSeq RBol
    (RSeq (RNegLook (RSeq (RGroup (RAlt (lit (js "Category")) (lit kategoriya)))
                          (RSet (CsChar 58))))
       (RSeq (RPlus CsLetter) (RSeq (RSet (CsChar 58)) (RSet CsWord)))).

(** [/^#redirect:?\s*\[\[(.+)\]\]/i], line 138. *)
Definition redirectFlags : Flags := {| ignoreCase := true; unicode := false |}.

Definition redirectPattern : Regex :=
  RSeq RBol
    (RSeq (lit (js "#redirect"))
       (RSeq (ROpt (CsChar 58))
          (RSeq (RStar CsSpace)
             (RSeq (lit (js "[["))
                (RSeq (RGroup (RPlus CsDot)) (lit (js "]]"))))))).

(** ** The program *)

Definition kMaxPagesInFlight : Z := 10000.
Definition kBatchSize : Z := 100.

(** The objects handed to [JSON.stringify]; the stored value is their
    JSON text. [source] is present only with [--with-source]. *)
Inductive Value :=
| PageValue (id : option jsstring) (title : jsstring) (ast : list Node)
    (parseTime : Q) (backtracking : Z) (source : option jsstring)
| RedirectValue (id : option jsstring) (title : jsstring)
    (redirectTo : jsstring) (source : option jsstring).

(** [{key, value}], and in a batch [{type: 'put', key, value}]. *)
Record Entry := { key : jsstring; value : Value }.

(** A [page] element as the XML reader delivers it: a missing element
    reads as [undefined]. [page_text] is [None] when there is no
    [revision.text] element and [Some None] when that element has no
    [$text]. *)
Record Page := {
  page_id : option jsstring;
  page_title : option jsstring;
  page_text : option (option jsstring)
}.

Inductive WorkerMsg :=
| PageMsg (id : option jsstring) (title source : jsstring)
| Disconnect.

Inductive LogLine :=
| LogError (err : JSError)                 (* console.error(err) *)
| LogPageFailed (title : option jsstring)  (* console.error(title, err) *)
| LogWorkerDied (pid : Z)
| LogXmlFailed (message : JSError)         (* 'XML parsing failed:' *)
| LogShuttingDown.

(** What a handler of the master does to the world around it. *)
Inductive Action :=
| DbBatch (ops : list Entry)
| WorkerSend (w : nat) (m : WorkerMsg)
| StreamPause
| StreamResume
| Console (l : LogLine)
| ProcessExit (code : Z).

(** The variables of the master, lines 90-92 and 128. *)
Record Master := {
  nRead : Z;
  nWritten : Z;
  batch : list Entry;
  nSentToWorkers : Z
}.

Definition withSource (source : jsstring) : option jsstring :=
  if kWithSource then Some source else None.

(** [write], lines 94-111: [batch.splice(0)] empties the batch and the
    callback of [db.batch] runs later, see [batchCallback]. *)
Definition write (m : Master) (e : Entry) : Master * list Action :=
  let b := batch m ++ [e] in
  if kBatchSize <=? Z.of_nat (length b)
  then ({| nRead := nRead m; nWritten := nWritten m; batch := [];
           nSentToWorkers := nSentToWorkers m |}, [DbBatch b])
  else ({| nRead := nRead m; nWritten := nWritten m; batch := b;
           nSentToWorkers := nSentToWorkers m |}, []).

(** The callback given to [db.batch], lines 100-109. *)
Definition batchCallback (m : Master) (currentBatch : list Entry)
    (err : option JSError) : Master * list Action :=
  match err with
  | Some e => (m, [Console (LogError e); ProcessExit 1])
  | None =>
      let m' := {| nRead := nRead m;
                   nWritten := nWritten m + Z.of_nat (length currentBatch);
                   batch := batch m; nSentToWorkers := nSentToWorkers m |} in
      if nRead m' - kMaxPagesInFlight <=? nWritten m'
      then (m', [StreamResume]) else (m', [])
  end.

Definition excludedNamespace (title : jsstring) : bool :=
  regexTest namespaceFlags namespacePattern title.

Definition redirectTarget (source : jsstring) : option jsstring :=
  regexGroup1 redirectFlags redirectPattern source.

(** The body of the [if] of line 137, for a page that passed the
    namespace test. [None] stands for a thrown [TypeError]: with an empty
    pool [workers[NaN]] is [undefined]. *)
Definition forward (nWorkers : nat) (m : Master) (id : option jsstring)
    (title source : jsstring) : option (Master * list Action) :=
  match redirectTarget source with
  | Some target =>
      Some (write m {| key := capitalizeFirst title;
                       value := RedirectValue id title (capitalizeFirst target)
                                  (withSource source) |})
  | None =>
      match nWorkers with
      | O => None
      | S _ =>
          Some ({| nRead := nRead m; nWritten := nWritten m; batch := batch m;
                   nSentToWorkers := nSentToWorkers m + 1 |},
                [WorkerSend (Z.to_nat (nSentToWorkers m mod Z.of_nat nWorkers))
                   (PageMsg id title source)])
      end
  end.

(** [++nRead >= nWritten + kMaxPagesInFlight], lines 148-150. *)
Definition countRead (m : Master) : Master * list Action :=
  let m' := {| nRead := nRead m + 1; nWritten := nWritten m; batch := batch m;
               nSentToWorkers := nSentToWorkers m |} in
  if nWritten m' + kMaxPagesInFlight <=? nRead m'
  then (m', [StreamPause]) else (m', []).

Definition failed (m : Master) (title : option jsstring)
    : Master * list Action :=
  (m, [Console (LogPageFailed title); ProcessExit 1]).

(** The handler of ['endElement: page'], lines 130-158. The progress bar
    is left out. *)
Definition onPage (nWorkers : nat) (m : Master) (page : Page)
    : Master * list Action :=
  match page_title page with
  | None => failed m None
  | Some rawTitle =>
      let title := trim rawTitle in
      match page_text page with
      | None => failed m (Some title)
      | Some text =>
          let source := default [] text in
          if negb (excludedNamespace title) then
            match forward nWorkers m (page_id page) title source with
            | None => failed m (Some title)
            | Some (m1, acts) =>
                let (m2, acts') := countRead m1 in (m2, acts ++ acts')
            end
          else (m, [])
      end
  end.

(** The handlers of ['close'], ['error'] and ['death'], lines 160-171 and
    121-124. *)
Definition onClose (nWorkers : nat) : list Action :=
  Console LogShuttingDown
  :: map (fun w => WorkerSend w Disconnect) (seq 0 nWorkers).

Definition onXmlError (message : JSError) : list Action :=
  [Console (LogXmlFailed message)].

Definition onDeath (pid : Z) : list Action :=
  [Console (LogWorkerDied pid); ProcessExit 1].

(** *** The worker, lines 173-192 *)

Inductive WorkerAction :=
| WorkerLog (title : jsstring) (err : JSError)   (* console.error(title, ast) *)
| WorkerReply (e : Entry)                        (* process.send *)
| WorkerDisconnect.                              (* process.disconnect() *)

(** [startTime] and [endTime] are the two readings of [Date.now()]. *)
Definition onMessage (ps : ParserState) (msg : WorkerMsg)
    (startTime endTime : Z) : ParserState * list WorkerAction :=
  match msg with
  | Disconnect => (ps, [WorkerDisconnect])
  | PageMsg id title source =>
      let (ps', parsed) := parse ps source in
      let (ast, logged) :=
        match parsed with
        | inl nodes => (nodes, [])
        | inr err => ([], [WorkerLog title err])
        end in
      let page := PageValue id title ast (Qmake (endTime - startTime) 1000)
                    (backtrackingCount ps') (withSource source) in
      (ps', logged ++ [WorkerReply {| key := capitalizeFirst title;
                                      value := page |}])
  end.

(** *** The running system

    The master is one thread of control: a handler runs to its end before
    the next event is taken. Workers are separate processes, each with a
    queue of messages sent to it ([inbox]) and a queue of replies on their
    way to the master ([outbox]). A call of [db.batch] is pending until
    the store completes it and runs its callback. *)

Record Worker := {
  inbox : list WorkerMsg;
  outbox : list Entry;
  connected : bool;
  parser : ParserState;
  workerConsole : list (jsstring * JSError)
}.

Record Sys := {
  master : Master;
  flowing : bool;                 (* the input stream is not paused *)
  workers : list Worker;
  pending : list (list Entry);    (* calls of db.batch not yet completed *)
  store : gmap jsstring Value;    (* the database *)
  console : list LogLine;
  exited : option Z;              (* process.exit *)
  history : list Action           (* every action of the master, oldest first *)
}.

Definition newWorker : Worker :=
  {| inbox := []; outbox := []; connected := true; parser := newParser;
     workerConsole := [] |}.

Definition init (workerCount : nat) : Sys :=
  {| master := {| nRead := 0; nWritten := 0; batch := []; nSentToWorkers := 0 |};
     flowing := true;
     workers := replicate workerCount newWorker;
     pending := [];
     store := ∅;
     console := [];
     exited := None;
     history := [] |}.

Definition enqueue (m : WorkerMsg) (w : Worker) : Worker :=
  {| inbox := inbox w ++ [m]; outbox := outbox w; connected := connected w;
     parser := parser w; workerConsole := workerConsole w |}.

Definition perform (s : Sys) (a : Action) : Sys :=
  let h := history s ++ [a] in
  match a with
  | DbBatch ops =>
      {| master := master s; flowing := flowing s; workers := workers s;
         pending := pending s ++ [ops]; store := store s;
         console := console s; exited := exited s; history := h |}
  | WorkerSend w m =>
      {| master := master s; flowing := flowing s;
         workers := alter (enqueue m) w (workers s);
         pending := pending s; store := store s;
         console := console s; exited := exited s; history := h |}
  | StreamPause =>
      {| master := master s; flowing := false; workers := workers s;
         pending := pending s; store := store s;
         console := console s; exited := exited s; history := h |}
  | StreamResume =>
      {| master := master s; flowing := true; workers := workers s;
         pending := pending s; store := store s;
         console := console s; exited := exited s; history := h |}
  | Console l =>
      {| master := master s; flowing := flowing s; workers := workers s;
         pending := pending s; store := store s;
         console := console s ++ [l]; exited := exited s; history := h |}
  | ProcessExit code =>
      {| master := master s; flowing := flowing s; workers := workers s;
         pending := pending s; store := store s;
         console := console s; exited := Some code; history := h |}
  end.

Definition setMaster (s : Sys) (m : Master) : Sys :=
  {| master := m; flowing := flowing s; workers := workers s;
     pending := pending s; store := store s;
     console := console s; exited := exited s; history := history s |}.

(** The master runs a handler: its variables change and its actions take
    effect in order. *)
Definition handled (s : Sys) (r : Master * list Action) : Sys :=
  foldl perform (setMaster s (fst r)) (snd r).

Definition put (st : gmap jsstring Value) (e : Entry) : gmap jsstring Value :=
  <[key e := value e]> st.

(** The store completes the pending call [i]: the whole batch is written,
    or nothing is and the callback receives the error. *)
Definition complete (s : Sys) (i : nat) (ops : list Entry)
    (err : option JSError) : Sys :=
  {| master := master s; flowing := flowing s; workers := workers s;
     pending := delete i (pending s);
     store := match err with
              | None => foldl put (store s) ops
              | Some _ => store s
              end;
     console := console s; exited := exited s; history := history s |}.

Definition setWorker (s : Sys) (i : nat) (w : Worker) : Sys :=
  {| master := master s; flowing := flowing s;
     workers := <[i := w]> (workers s);
     pending := pending s; store := store s;
     console := console s; exited := exited s; history := history s |}.

Definition workerPerform (w : Worker) (a : WorkerAction) : Worker :=
  match a with
  | WorkerLog title err =>
      {| inbox := inbox w; outbox := outbox w; connected := connected w;
         parser := parser w;
         workerConsole := workerConsole w ++ [(title, err)] |}
  | WorkerReply e =>
      {| inbox := inbox w; outbox := outbox w ++ [e]; connected := connected w;
         parser := parser w; workerConsole := workerConsole w |}
  | WorkerDisconnect =>
      {| inbox := inbox w; outbox := outbox w; connected := false;
         parser := parser w; workerConsole := workerConsole w |}
  end.

(** A connected worker takes the oldest message of its queue. *)
Definition workerRun (w : Worker) (startTime endTime : Z) : option Worker :=
  if connected w then
    match inbox w with
    | msg :: rest =>
        let (ps, acts) := onMessage (parser w) msg startTime endTime in
        Some (foldl workerPerform
                {| inbox := rest; outbox := outbox w; connected := connected w;
                   parser := ps; workerConsole := workerConsole w |} acts)
    | [] => None
    end
  else None.

Inductive Event :=
| EvPage (page : Page)                       (* xml: 'endElement: page' *)
| EvWorkerRun (w : nat) (startTime endTime : Z)
| EvWorkerMessage (w : nat)                  (* worker.on('message', write) *)
| EvBatchDone (i : nat) (err : option JSError)
| EvClose                                    (* stream: 'close' *)
| EvXmlError (message : JSError)             (* xml: 'error' *)
| EvDeath (pid : Z).                         (* cluster: 'death' *)

(** One event; [None] when it cannot happen in [s]. Nothing happens after
    [process.exit]. *)
Definition step (s : Sys) (ev : Event) : option Sys :=
  match exited s with
  | Some _ => None
  | None =>
      let n := length (workers s) in
      match ev with
      | EvPage page => Some (handled s (onPage n (master s) page))
      | EvWorkerRun i startTime endTime =>
          w ← workers s !! i;
          w' ← workerRun w startTime endTime;
          Some (setWorker s i w')
      | EvWorkerMessage i =>
          w ← workers s !! i;
          match outbox w with
          | e :: rest =>
              let w' := {| inbox := inbox w; outbox := rest;
                           connected := connected w; parser := parser w;
                           workerConsole := workerConsole w |} in
              Some (handled (setWorker s i w') (write (master s) e))
          | [] => None
          end
      | EvBatchDone i err =>
          ops ← pending s !! i;
          let s' := complete s i ops err in
          Some (handled s' (batchCallback (master s') ops err))
      | EvClose => Some (handled s (master s, onClose n))
      | EvXmlError message => Some (handled s (master s, onXmlError message))
      | EvDeath pid => Some (handled s (master s, onDeath pid))
      end
  end.

Fixpoint run (s : Sys) (evs : list Event) : option Sys :=
  match evs with
  | [] => Some s
  | ev :: evs' => s' ← step s ev; run s' evs'
  end.

(** A pacing assumption, stated where it is used: no page is handled
    between [pause()] and [resume()]. The program does not ensure it:
    line 149 pauses the stream of bytes, and the pages of the bytes
    already delivered to the XML reader still arrive; [step] and [run]
    make no such assumption. *)
Definition stepPaced (s : Sys) (ev : Event) : option Sys :=
  match ev with
  | EvPage _ => if flowing s then step s ev else None
  | _ => step s ev
  end.

Fixpoint runPaced (s : Sys) (evs : list Event) : option Sys :=
  match evs with
  | [] => Some s
  | ev :: evs' => s' ← stepPaced s ev; runPaced s' evs'
  end.

(** ** The start of the program *)

(** ** The command line, lines 22-45 *)

(** [args.indexOf(arg)]: the index of the first element equal to [arg]. *)
Fixpoint indexOf (args : list jsstring) (arg : jsstring) : option nat :=
  match args with
  | [] => None
  | a :: rest => if decide (a = arg) then Some 0%nat else S <$> indexOf rest arg
  end.

(** [argsExtractSwitch], lines 22-31: the result and the array after the
    call ([splice] removes in place). *)
Definition argsExtractSwitch (args : list jsstring) (arg : jsstring)
    : bool * list jsstring :=
  match indexOf args arg with
  | Some index => (true, delete index args)
  | None => (false, args)
  end.

(** A JavaScript number, as far as the worker count needs it: [NaN], a
    finite value or an infinity. *)
Inductive JSNumber :=
| JSNaN
| JSFinite (q : Q)
| JSInfinity (negative : bool).

Record CommandLine := {
  kDumpFilename : jsstring;
  kLevelDbPath : jsstring;
  kWorkerCount : JSNumber;
  switchWithSource : bool
}.

(** Lines 33-45, from [process.argv.slice(2)]. [None] stands for
    [usage()], which ends the process with code 1. [toNumber] is
    [Number] on a string and [cpuCount] is [os.cpus().length], the
    default of the third argument. *)
Definition commandLine (toNumber : jsstring → JSNumber) (cpuCount : Z)
    (argv : list jsstring) : option CommandLine :=
  let (withSource, args) := argsExtractSwitch argv (js "--with-source") in
  if (length args <? 2)%nat || (3 <? length args)%nat then None
  else
    match args with
    | dump :: db :: rest =>
        let count := match rest with
                     | kWorkerCountArg :: _ => toNumber kWorkerCountArg
                     | [] => JSFinite (inject_Z cpuCount)
                     end in
        match count with
        | JSNaN => None
        | _ => Some {| kDumpFilename := dump; kLevelDbPath := db;
                       kWorkerCount := count; switchWithSource := withSource |}
        end
    | _ => None
    end.

(** The command line with the switch on. *)
Definition withSwitch (c : CommandLine) : CommandLine :=
  {| kDumpFilename := kDumpFilename c; kLevelDbPath := kLevelDbPath c;
     kWorkerCount := kWorkerCount c; switchWithSource := true |}.

(** [i < kWorkerCount] for the integer [i] of the loop. *)
Definition lessThan (i : Z) (n : JSNumber) : bool :=
  match n with
  | JSNaN => false
  | JSFinite q => negb (Qle_bool q (inject_Z i))
  | JSInfinity negative => negb negative
  end.

(** The loop of lines 115-119, which forks one worker per round; [None]
    when [fuel] rounds do not reach its end. The counter [i] of the loop
    is a number that holds every integer up to [2 ^ 53] exactly. *)
Fixpoint forkWorkers (fuel : nat) (i : Z) (count : JSNumber)
    (pool : list Worker) : option (list Worker) :=
  match fuel with
  | O => None
  | S fuel' =>
      if lessThan i count
      then forkWorkers fuel' (i + 1) count (pool ++ [newWorker])
      else Some pool
  end.

(** ** [CounterTransform], lines 54-65 *)

(** The byte count and the chunks pushed downstream so far. *)
Record CounterTransform := {
  byteCount : Z;
  pushed : list (list Byte.byte)
}.

Definition newCounterTransform : CounterTransform :=
  {| byteCount := 0; pushed := [] |}.

Definition _transform (t : CounterTransform) (chunk : list Byte.byte)
    : CounterTransform :=
  {| byteCount := byteCount t + Z.of_nat (length chunk);
     pushed := pushed t ++ [chunk] |}.

(** The stream writes its chunks one after the other. *)
Definition transformAll (t : CounterTransform) (chunks : list (list Byte.byte))
    : CounterTransform :=
  foldl _transform t chunks.

(** ** The choice of the decompressor, line 72 *)

(** [$] without the flag [m] holds at the end of the input only. With the
    constructors of [Regex] it reads [(?!.|\s)]: every character is in
    the set of [.] or, as a line terminator, in the set of [\s]. *)
Definition endOfInput : Regex := RNegLook (RAlt (RSet CsDot) (RSet CsSpace)).

(** [/\.bz2$/i]. *)
Definition bz2Flags : Flags := {| ignoreCase := true; unicode := false |}.

Definition bz2Pattern : Regex := RSeq (lit (js ".bz2")) endOfInput.

(** [kDumpFilename.match(/\.bz2$/i)] is not [null]: the input goes
    through [bz2()]. *)
Definition decompressed (kDumpFilename : jsstring) : bool :=
  regexTest bz2Flags bz2Pattern kDumpFilename.

(** ** Notions used in the statements *)

(** A code unit has 16 bits. *)
Definition isCodeUnit (c : Z) : Prop := 0 <= c < 0x10000.

(** The uppercase mapping of the engine is stable: the uppercase form of
    a one-unit string is not empty and starts with a unit that is its own
    uppercase form. ASCII and surrogates satisfy this by definition. *)
Definition upperStable : Prop :=
  ∀ c, 128 <= c < 0x10000 →
    ∃ d r, toUpperCase [c] = d :: r ∧ toUpperCase [d] = [d].

(** Two code units that differ at most in the case of an ASCII letter. *)
Definition sameAsciiCase (a b : Z) : Prop := asciiLower a = asciiLower b.

(** Continuations that agree on inputs equal up to ASCII case. *)
Definition contSame (k k' : Cont) : Prop :=
  ∀ pos u u' c c', Forall2 sameAsciiCase u u' →
                   matched (k pos u c) = matched (k' pos u' c').

(** The namespace test as the specification words it, with the prefixes
    compared case-sensitively: the pattern of line 137 without the flag
    [i]. *)
Definition caseSensitiveFlags : Flags := {| ignoreCase := false; unicode := true |}.

Definition excludedNamespaceCaseSensitive (title : jsstring) : bool :=
  regexTest caseSensitiveFlags namespacePattern title.

Definition isPageMsg (m : WorkerMsg) : bool :=
  match m with PageMsg _ _ _ => true | Disconnect => false end.

(** The pages sent to workers, oldest first, each with the index of the
    worker that received it. *)
Definition pageSends (h : list Action) : list (nat * WorkerMsg) :=
  omap (fun a => match a with
                 | WorkerSend w m => if isPageMsg m then Some (w, m) else None
                 | _ => None
                 end) h.

Definition pagesOf (evs : list Event) : list Page :=
  omap (fun ev => match ev with EvPage p => Some p | _ => None end) evs.

(** The message of a page that passes the namespace test and is no
    redirect; [None] for every other page. *)
Definition dispatched (page : Page) : option WorkerMsg :=
  raw ← page_title page;
  text ← page_text page;
  let title := trim raw in
  let source := default [] text in
  if excludedNamespace title then None
  else match redirectTarget source with
       | Some _ => None
       | None => Some (PageMsg (page_id page) title source)
       end.

(** The four ways the handler of a page can end: an exception, a page of
    an excluded namespace, a redirect, a page for a worker. *)
Inductive PageOutcome (n : nat) (m : Master) (page : Page)
    : Master * list Action → Prop :=
| PageFailed title :
    n = 0%nat ∨ dispatched page = None →
    PageOutcome n m page (failed m title)
| PageDropped raw text :
    page_title page = Some raw → page_text page = Some text →
    excludedNamespace (trim raw) = true →
    PageOutcome n m page (m, [])
| PageRedirect raw text target :
    page_title page = Some raw → page_text page = Some text →
    excludedNamespace (trim raw) = false →
    redirectTarget (default [] text) = Some target →
    let e := {| key := capitalizeFirst (trim raw);
                value := RedirectValue (page_id page) (trim raw)
                           (capitalizeFirst target)
                           (withSource (default [] text)) |} in
    PageOutcome n m page
      ((countRead (write m e).1).1, (write m e).2 ++ (countRead (write m e).1).2)
| PageToWorker raw text :
    page_title page = Some raw → page_text page = Some text →
    excludedNamespace (trim raw) = false →
    redirectTarget (default [] text) = None →
    (0 < n)%nat →
    let m1 := {| nRead := nRead m; nWritten := nWritten m; batch := batch m;
                 nSentToWorkers := nSentToWorkers m + 1 |} in
    PageOutcome n m page
      ((countRead m1).1,
       WorkerSend (Z.to_nat (nSentToWorkers m mod Z.of_nat n))
         (PageMsg (page_id page) (trim raw) (default [] text))
       :: (countRead m1).2).

(** Records that were counted by [nRead] and are not yet written: in the
    batch, in a pending call, on their way to a worker or back. *)
Definition workerLoad (w : Worker) : nat :=
  length (List.filter isPageMsg (inbox w)) + length (outbox w).

Definition inFlight (s : Sys) : nat :=
  length (batch (master s)) + sum_list_with length (pending s)
  + sum_list_with workerLoad (workers s).

(** What a list of actions does to each part of the system. *)
Definition batchesOf (acts : list Action) : list (list Entry) :=
  omap (fun a => match a with DbBatch b => Some b | _ => None end) acts.

Definition deliver (ws : list Worker) (a : Action) : list Worker :=
  match a with WorkerSend w m => alter (enqueue m) w ws | _ => ws end.

Definition flowAfter (f : bool) (a : Action) : bool :=
  match a with StreamPause => false | StreamResume => true | _ => f end.

Definition exitAfter (x : option Z) (a : Action) : option Z :=
  match a with ProcessExit code => Some code | _ => x end.

Definition logged (a : Action) : list LogLine :=
  match a with Console l => [l] | _ => [] end.

(** [k] is the key of a page of [evs] that passed the namespace test. *)
Definition keyOfAccepted (evs : list Event) (k : jsstring) : Prop :=
  ∃ page raw, EvPage page ∈ evs ∧ page_title page = Some raw
              ∧ excludedNamespace (trim raw) = false
              ∧ k = capitalizeFirst (trim raw).

(** The keys of the records in flight. *)
Definition messageKey (m : WorkerMsg) : option jsstring :=
  match m with
  | PageMsg _ title _ => Some (capitalizeFirst title)
  | Disconnect => None
  end.

Definition workerKeys (w : Worker) : list jsstring :=
  omap messageKey (inbox w) ++ (key <$> outbox w).

Definition batchKeys (b : list Entry) : list jsstring := key <$> b.

Definition keysInFlight (s : Sys) : list jsstring :=
  batchKeys (batch (master s)) ++ concat (batchKeys <$> pending s)
  ++ concat (workerKeys <$> workers s).

(** The titles of the pages sent to workers. *)
Definition sentTitles (h : list Action) : list jsstring :=
  omap (fun a => match a with
                 | WorkerSend _ (PageMsg _ title _) => Some title
                 | _ => None
                 end) h.

(** Nothing is left to do for the workers, the master and the store. *)
Definition quiescent (s : Sys) : Prop :=
  ∀ i startTime endTime err,
    step s (EvWorkerRun i startTime endTime) = None
    ∧ step s (EvWorkerMessage i) = None
    ∧ step s (EvBatchDone i err) = None.

(** ** The shape of a title with a namespace, line 137 *)

(** [pre] is [l] up to simple case folding, the comparison of the flags
    [ui]. *)
Definition foldsLike (l pre : list Z) : Prop :=
  Forall2 (fun ch c => simpleFold ch = simpleFold c) pre l.

(** Letters, a colon and a word character. *)
Definition hasNamespace (cps : list Z) : Prop :=
  ∃ letters colon w rest,
    cps = letters ++ colon :: w :: rest
    ∧ letters ≠ []
    ∧ Forall (fun ch => isLetter namespaceFlags ch = true) letters
    ∧ simpleFold colon = 58
    ∧ isWordChar namespaceFlags w = true.

(** One of the two prefixes of the lookahead. *)
Definition allowedPrefix (cps : list Z) : Prop :=
  ∃ pre rest,
    cps = pre ++ rest
    ∧ (foldsLike (js "Category:") pre ∨ foldsLike (kategoriya ++ js ":") pre).

(** ** The shape of a redirect, line 138 *)

(** [source] starts with [#redirect] in any case, an optional colon and
    white space, followed by [[[target]]]; [target] is not empty, lies on
    one line, and no longer text on that line is closed by []]]. *)
Definition redirectShape (source target : jsstring) : Prop :=
  ∃ head spaces rest,
    source = head ++ spaces ++ js "[[" ++ target ++ js "]]" ++ rest
    ∧ (asciiLower <$> head = js "#redirect"
       ∨ asciiLower <$> head = js "#redirect:")
    ∧ Forall (fun ch => isWhiteSpace ch = true) spaces
    ∧ target ≠ []
    ∧ Forall (fun ch => isLineTerminator ch = false) target
    ∧ ∀ longer rest',
        target ++ js "]]" ++ rest = longer ++ js "]]" ++ rest' →
        Forall (fun ch => isLineTerminator ch = false) longer →
        (length longer ≤ length target)%nat.

(** The end of the redirect pattern, [(.+)\]\]]. *)
Definition redirectTail : Regex :=
  RSeq (RGroup (RPlus CsDot)) (lit (js "]]")).

(** [\s*\[\[(.+)\]\]], what follows the optional colon. *)
Definition redirectBody : Regex :=
  RSeq (RStar CsSpace) (RSeq (lit (js "[[")) redirectTail).

(** A batch as [write] hands it to the store. *)
Definition fullBatch (b : list Entry) : Prop :=
  Z.of_nat (length b) = kBatchSize.

(** The records handed to [write] that the master still knows of: those
    of the calls of [db.batch], oldest first, and then the batch in
    memory. *)
Definition accepted (s : Sys) : list Entry :=
  concat (batchesOf (history s)) ++ batch (master s).

(** The record the page handler writes itself, lines 140-144: none for a
    page that is dropped, fails or goes to a worker. *)
Definition redirectEntry (page : Page) : option Entry :=
  raw ← page_title page;
  text ← page_text page;
  let title := trim raw in
  let source := default [] text in
  if excludedNamespace title then None
  else target ← redirectTarget source;
       Some {| key := capitalizeFirst title;
               value := RedirectValue (page_id page) title
                          (capitalizeFirst target) (withSource source) |}.

(** The argument of the call of [write] that an event leads to. *)
Definition handedToWrite (s : Sys) (ev : Event) : list Entry :=
  match ev with
  | EvPage page => option_list (redirectEntry page)
  | EvWorkerMessage i =>
      match workers s !! i with
      | Some w => take 1 (outbox w)
      | None => []
      end
  | _ => []
  end.

Fixpoint writes (s : Sys) (evs : list Event) : list Entry :=
  match evs with
  | [] => []
  | ev :: evs' =>
      handedToWrite s ev
      ++ match step s ev with
         | Some s' => writes s' evs'
         | None => []
         end
  end.

(** The events whose handler calls [process.exit]: a page without title
    or text, a page for a worker when there is none (lines 154-157), a
    failed write (lines 101-104), and the cluster event ['death'] (lines
    121-124). That event is one of early versions of Node; what the
    runtime does at the death of a worker process, and an exception
    that no handler catches, are not events of this model. *)
Definition fatal (nWorkers : nat) (ev : Event) : bool :=
  match ev with
  | EvPage page =>
      match page_title page, page_text page with
      | Some _, Some _ =>
          match dispatched page with
          | Some _ => (nWorkers =? 0)%nat
          | None => false
          end
      | _, _ => true
      end
  | EvBatchDone _ (Some _) => true
  | EvDeath _ => true
  | _ => false
  end.

(** A worker that is scheduled several times; every run takes its two
    readings of the clock. *)
Fixpoint workerRuns (w : Worker) (times : list (Z * Z)) : option Worker :=
  match times with
  | [] => Some w
  | (startTime, endTime) :: rest =>
      w' ← workerRun w startTime endTime; workerRuns w' rest
  end.

(** The fields [title] and [source] of a stored value. *)
Definition valueTitle (v : Value) : jsstring :=
  match v with
  | PageValue _ title _ _ _ _ => title
  | RedirectValue _ title _ _ => title
  end.

Definition valueSource (v : Value) : option jsstring :=
  match v with
  | PageValue _ _ _ _ _ source => source
  | RedirectValue _ _ _ source => source
  end.

(** A record is filed under the capitalised title it carries, and it
    carries the source exactly with [--with-source]. *)
Definition wellKeyed (e : Entry) : Prop :=
  key e = capitalizeFirst (valueTitle (value e))
  ∧ (is_Some (valueSource (value e)) ↔ kWithSource = true).

(** The page has a title that passes the namespace test of line 137. *)
Definition passesFilter (page : Page) : bool :=
  match page_title page with
  | Some raw => negb (excludedNamespace (trim raw))
  | None => false
  end.

(** The run without the errors of the XML reader. *)
Definition isXmlError (ev : Event) : bool :=
  match ev with EvXmlError _ => true | _ => false end.

Definition withoutXmlErrors (evs : list Event) : list Event :=
  List.filter (fun ev => negb (isXmlError ev)) evs.

(** The messages of the errors of a run, and those of the lines
    ['XML parsing failed:'] of the console. *)
Definition xmlErrors (evs : list Event) : list JSError :=
  omap (fun ev => match ev with EvXmlError m => Some m | _ => None end) evs.

Definition xmlLines (c : list LogLine) : list JSError :=
  omap (fun l => match l with LogXmlFailed m => Some m | _ => None end) c.

(** Two states that differ at most in the console and in the record of
    the actions. *)
Definition sameButLog (a b : Sys) : Prop :=
  master a = master b ∧ flowing a = flowing b ∧ workers a = workers b
  ∧ pending a = pending b ∧ store a = store b ∧ exited a = exited b.

(** A page element without title or without revision text. *)
Definition malformed (page : Page) : Prop :=
  page_title page = None ∨ page_text page = None.

End WikiImport.

(** ** Sample inputs and a small engine

    The closed examples are run on a fragment of the Unicode tables (the
    basic Cyrillic letters; every other character beyond ASCII has no case
    and is no letter) and on a toy parser that fails on a text starting
    with an opening brace and otherwise returns the text as one node. *)

Definition demoUpper (cp : Z) : list Z :=
  if inRange 0x430 0x44F cp then [cp - 0x20]
  else if inRange 0x450 0x45F cp then [cp - 0x50]
  else [cp].

Definition demoFold (cp : Z) : Z :=
  if inRange 0x410 0x42F cp then cp + 0x20
  else if inRange 0x400 0x40F cp then cp + 0x50
  else cp.

Definition demoLetter (_ : bool) (cp : Z) : bool := inRange 0x400 0x45F cp.

Definition demoTables : UnicodeTables :=
  {| upperTable := demoUpper; scfTable := demoFold; letterTable := demoLetter |}.

Definition demoParse (calls : Z) (source : jsstring)
    : Z * (list jsstring + jsstring) :=
  (calls + 1,
   match source with
   | 123 :: _ => inr (js "unbalanced braces")
   | _ => inl [source]
   end).

Definition demoParser : WikiParser :=
  {| Node := jsstring; JSError := jsstring; ParserState := Z;
     newParser := 0; parse := demoParse; backtrackingCount := fun _ => 0 |}.

Definition demoOptions : Options := {| kWithSource := false |}.

Definition mkPage (id title text : String.string) : Page :=
  {| page_id := Some (js id); page_title := Some (js title);
     page_text := Some (Some (js text)) |}.
Arguments mkPage (id title text)%_string.

Definition pageTest : Page := mkPage "1" "Test" "Hello".
Definition pageCategory : Page := mkPage "2" "Category:X" "anything".
Definition pageFoo : Page := mkPage "3" "foo" "#REDIRECT [[Bar baz]]".
Definition pageTemplateRedirect : Page := mkPage "4" "Template:X" "#REDIRECT [[Y]]".
Definition pageBroken : Page := mkPage "5" "Broken" "{{{".

(** A page element without a title. *)
Definition pageUntitled : Page :=
  {| page_id := Some (js "6"); page_title := None;
     page_text := Some (Some (js "Hello")) |}.


Section SampleStates.

Local Existing Instances demoTables demoParser demoOptions.

Definition sampleRun : list Event :=
  [EvPage pageTest; EvPage pageFoo; EvPage pageTemplateRedirect;
   EvPage pageBroken; EvPage pageCategory;
   EvWorkerRun 0 0 5; EvWorkerMessage 0; EvWorkerRun 1 0 7].

(** One worker with the page [Broken] in its queue. *)
Definition brokenQueued : Sys :=
  handled (init 1) (onPage 1 (master (init 1)) pageBroken).

Definition brokenWorker : Worker :=
  enqueue (PageMsg (Some (js "5")) (js "Broken") (js "{{{")) newWorker.

(** A full batch of redirects, its write and one more redirect; and
    the whole life of a single page. *)
Definition hundredRedirects : list Event :=
  replicate 100 (EvPage pageFoo) ++ [EvBatchDone 0 None; EvPage pageFoo].

Definition lastPage : list Event :=
  [EvPage pageTest; EvWorkerRun 0 0 5; EvWorkerMessage 0; EvClose;
   EvWorkerRun 0 5 6].

(** A worker with two pages and the end of the input in its queue. *)
Definition queuedWorker : Worker :=
  enqueue Disconnect
    (enqueue (PageMsg (Some (js "1")) (js "test") (js "Hello")) brokenWorker).

(** [Number] on the decimal literals without a sign, and on the empty
    text; every other text is taken for [NaN]. *)
Definition demoNumber (s : jsstring) : JSNumber :=
  if forallb isAsciiDigit s
  then JSFinite (inject_Z (foldl (fun n d => 10 * n + (d - 48)) 0 s))
  else JSNaN.

End SampleStates.

(** * Properties *)

(** Case analysis on the integer comparisons of a goal. *)
Ltac zcases :=
  repeat (match goal with
          | |- context [?a <=? ?b] => destruct (Z.leb_spec a b)
          | |- context [?a <? ?b] => destruct (Z.ltb_spec a b)
          | |- context [?a =? ?b] => destruct (Z.eqb_spec a b)
          end; simpl in *; try lia);
  simpl in *; try lia; try reflexivity.

Section Properties.

Context {tables : UnicodeTables} {wikiparse : WikiParser} {options : Options}.

(** ** [capitalizeFirst] *)

Lemma utf16_bmp (cp : Z) : cp < 0x10000 → utf16 [cp] = [cp].
Proof.
  intros Hcp. unfold utf16. simpl.
  destruct (Z.leb_spec 0x10000 cp); [lia | reflexivity].
Qed.

Lemma toUpperCase_unit (c : Z) : toUpperCase [c] = utf16 (upperCodePoint c).
Proof. unfold toUpperCase. simpl. by rewrite app_nil_r. Qed.

Lemma toUpperCase_surrogate (c : Z) :
  isSurrogate c = true → toUpperCase [c] = [c].
Proof.
  intros Hs. rewrite toUpperCase_unit. unfold upperCodePoint. rewrite Hs.
  apply utf16_bmp. unfold isSurrogate, inRange in Hs. lia.
Qed.

Lemma asciiUpper_idem (c : Z) : asciiUpper (asciiUpper c) = asciiUpper c.
Proof.
  unfold asciiUpper, inRange. zcases.
Qed.

Lemma asciiUpper_ascii (c : Z) : c < 128 → asciiUpper c < 128.
Proof.
  unfold asciiUpper, inRange. intros. zcases.
Qed.

Lemma toUpperCase_ascii (c : Z) : c < 128 → toUpperCase [c] = [asciiUpper c].
Proof.
  intros Hc. rewrite toUpperCase_unit. unfold upperCodePoint.
  replace (isSurrogate c) with false
    by (unfold isSurrogate, inRange; lia).
  destruct (Z.ltb_spec c 128); [| lia].
  apply utf16_bmp. pose proof (asciiUpper_ascii c). lia.
Qed.

(** Every one-unit string has a stable uppercase form once the table has. *)
Lemma upper_unit_stable (c : Z) :
  upperStable → isCodeUnit c →
  ∃ d r, toUpperCase [c] = d :: r ∧ toUpperCase [d] = [d].
Proof.
  intros Hst Hunit. unfold isCodeUnit in Hunit.
  destruct (Z.lt_ge_cases c 128) as [Hc | Hc].
  - exists (asciiUpper c), []. split; [by apply toUpperCase_ascii |].
    rewrite toUpperCase_ascii by (by apply asciiUpper_ascii).
    by rewrite asciiUpper_idem.
  - apply Hst. lia.
Qed.

Lemma capitalizeFirst_cons (c : Z) (t : jsstring) :
  capitalizeFirst (c :: t) = toUpperCase [c] ++ t.
Proof. reflexivity. Qed.

(** C6. [capitalizeFirst] replaces the first code unit of a title by its
    uppercase form and keeps every later code unit as it is; applying it
    twice gives the same string as applying it once, for every string of
    16-bit code units and an engine whose uppercase mapping is stable. *)
Theorem capitalizeFirst_first_only_idempotent (t : jsstring) :
  upperStable →
  Forall isCodeUnit t →
  capitalizeFirst t = toUpperCase (firstn 1 t) ++ skipn 1 t
  ∧ capitalizeFirst (capitalizeFirst t) = capitalizeFirst t.
Proof.
  intros Hst Hunits. destruct t as [| c t].
  - split; reflexivity.
  - split; [reflexivity |].
    rewrite capitalizeFirst_cons.
    apply Forall_cons in Hunits as [Hc _].
    destruct (upper_unit_stable c Hst Hc) as (d & r & Hu & Hd).
    rewrite Hu. simpl. rewrite capitalizeFirst_cons, Hd. reflexivity.
Qed.

(** ** The regular expressions *)

Lemma codePoints_cons (c : Z) (t : jsstring) :
  isHighSurrogate c = false → codePoints (c :: t) = c :: codePoints t.
Proof. intros Hc. destruct t; simpl; [reflexivity | by rewrite Hc]. Qed.

(** A pattern that starts with [^] matches at index 0 or nowhere. *)
Lemma searchM_bol_later fl r pos s : searchM fl (RSeq RBol r) (S pos) s = None.
Proof. revert pos. induction s as [| c s IH]; intros pos; simpl; auto. Qed.

Lemma searchM_bol fl r s :
  searchM fl (RSeq RBol r) 0 s
  = matchM fl (RSeq RBol r) 0 s None (fun _ _ c => Some c).
Proof.
  destruct s as [| c s]; simpl.
  - by destruct (matchM fl r 0 [] None _).
  - destruct (matchM fl r 0 (c :: s) None _); [reflexivity |].
    apply searchM_bol_later.
Qed.

Lemma sameAsciiCase_cases a b :
  sameAsciiCase a b →
  a = b ∨ (65 <= a <= 90 ∧ b = a + 32) ∨ (65 <= b <= 90 ∧ a = b + 32).
Proof. unfold sameAsciiCase, asciiLower, inRange. zcases. Qed.

(** Under the flags [ui] no character set of the namespace pattern tells
    the two cases of an ASCII letter apart. *)
Lemma csMatch_sameAsciiCase cs a b :
  sameAsciiCase a b →
  csMatch namespaceFlags cs a = csMatch namespaceFlags cs b.
Proof.
  intros [-> | [[Ha ->] | [Hb ->]]]%sameAsciiCase_cases; [reflexivity | |];
    destruct cs; simpl;
    unfold canonicalize, simpleFold, asciiLower, isLineTerminator, isWhiteSpace,
      isWordChar, isBasicWord, isLetter, isAsciiAlpha, isAsciiDigit, inRange;
    simpl; zcases.
Qed.

Section SameCase.

Variable fl : Flags.
Hypothesis csMatch_same :
  ∀ cs a b, sameAsciiCase a b → csMatch fl cs a = csMatch fl cs b.

Lemma matched_alt (x x' y y' : option Capture) :
  matched x = matched x' → matched y = matched y' →
  matched (match x with Some r => Some r | None => y end)
  = matched (match x' with Some r => Some r | None => y' end).
Proof. destruct x, x'; simpl; congruence. Qed.

Lemma setM_same cs pos s s' cap cap' k k' :
  Forall2 sameAsciiCase s s' → contSame k k' →
  matched (setM fl cs pos s cap k) = matched (setM fl cs pos s' cap' k').
Proof.
  intros Hs Hk. destruct Hs as [| a b s s' Hab Hs]; simpl; [reflexivity |].
  rewrite (csMatch_same cs a b Hab).
  destruct (csMatch fl cs b); [by apply Hk | reflexivity].
Qed.

Lemma starM_same cs pos s s' cap cap' k k' :
  Forall2 sameAsciiCase s s' → contSame k k' →
  matched (starM fl cs pos s cap k) = matched (starM fl cs pos s' cap' k').
Proof.
  intros Hs Hk. revert pos.
  induction Hs as [| a b s s' Hab Hs IH]; intros pos; simpl.
  - by apply Hk.
  - rewrite (csMatch_same cs a b Hab).
    destruct (csMatch fl cs b).
    + apply matched_alt; [apply IH |]. apply Hk. by constructor.
    + apply Hk. by constructor.
Qed.

Lemma matchM_same r :
  ∀ pos s s' cap cap' k k',
    Forall2 sameAsciiCase s s' → contSame k k' →
    matched (matchM fl r pos s cap k) = matched (matchM fl r pos s' cap' k').
Proof.
  induction r as [| cs | | a IHa b IHb | a IHa b IHb | cs | cs | cs | a IHa | a IHa];
    intros pos s s' cap cap' k k' Hs Hk; simpl.
  - by apply Hk.
  - by apply setM_same.
  - destruct pos; [by apply Hk | reflexivity].
  - apply IHa; [done |]. intros p u u' c c' Hu. by apply IHb.
  - apply matched_alt; [by apply IHa | by apply IHb].
  - apply matched_alt; [by apply setM_same | by apply Hk].
  - by apply starM_same.
  - apply setM_same; [done |]. intros p u u' c c' Hu. by apply starM_same.
  - assert (Hlook : matched (matchM fl a pos s cap (fun _ _ c => Some c))
                    = matched (matchM fl a pos s' cap' (fun _ _ c => Some c))).
    { apply IHa; [done |]. intros p u u' c c' Hu. reflexivity. }
    destruct (matchM fl a pos s cap _), (matchM fl a pos s' cap' _);
      simpl in Hlook; try discriminate; [reflexivity | by apply Hk].
  - apply IHa; [done |]. intros p u u' c c' Hu. by apply Hk.
Qed.

Lemma searchM_same r pos s s' :
  Forall2 sameAsciiCase s s' →
  matched (searchM fl r pos s) = matched (searchM fl r pos s').
Proof.
  intros Hs. revert pos.
  induction Hs as [| a b s s' Hab Hs IH]; intros pos; simpl.
  - apply matched_alt; [| reflexivity].
    apply matchM_same; [constructor |]. intros p u u' c c' Hu. reflexivity.
  - apply matched_alt; [| apply IH].
    apply matchM_same; [by constructor |]. intros p u u' c c' Hu. reflexivity.
Qed.

End SameCase.

Lemma sameAsciiCase_surrogate a b :
  sameAsciiCase a b →
  isHighSurrogate a = isHighSurrogate b ∧ isLowSurrogate a = isLowSurrogate b
  ∧ (isHighSurrogate a = true ∨ isLowSurrogate a = true → a = b).
Proof.
  intros [-> | [[Ha ->] | [Hb ->]]]%sameAsciiCase_cases; [by auto | |];
    unfold isHighSurrogate, isLowSurrogate, inRange; zcases;
    (repeat split; try reflexivity; intros [|]; discriminate).
Qed.

Lemma sameAsciiCase_refl a : sameAsciiCase a a.
Proof. reflexivity. Qed.

Lemma codePoints_same s s' :
  Forall2 sameAsciiCase s s' →
  Forall2 sameAsciiCase (codePoints s) (codePoints s').
Proof.
  intros Hs.
  enough (H : Forall2 sameAsciiCase (codePoints s) (codePoints s')
              ∧ ∀ a b, sameAsciiCase a b →
                  Forall2 sameAsciiCase (codePoints (a :: s)) (codePoints (b :: s')))
    by apply H.
  induction Hs as [| c d s s' Hcd Hs [IH1 IH2]].
  - split; [constructor |]. intros a b Hab. simpl. by repeat constructor.
  - split; [by apply IH2 |].
    intros a b Hab.
    destruct (sameAsciiCase_surrogate a b Hab) as (Hhi & _ & Heq).
    destruct (sameAsciiCase_surrogate c d Hcd) as (_ & Hlo & Heq').
    change (codePoints (a :: c :: s))
      with (if isHighSurrogate a && isLowSurrogate c
            then (0x10000 + (a - 0xD800) * 0x400 + (c - 0xDC00)) :: codePoints s
            else a :: codePoints (c :: s)).
    change (codePoints (b :: d :: s'))
      with (if isHighSurrogate b && isLowSurrogate d
            then (0x10000 + (b - 0xD800) * 0x400 + (d - 0xDC00)) :: codePoints s'
            else b :: codePoints (d :: s')).
    rewrite <- Hhi, <- Hlo.
    destruct (isHighSurrogate a) eqn:Ea, (isLowSurrogate c) eqn:Ec; simpl;
      try (constructor; [done | by apply IH2]).
    rewrite <- (Heq (or_introl eq_refl)), <- (Heq' (or_intror eq_refl)).
    constructor; [apply sameAsciiCase_refl | done].
Qed.

Lemma excludedNamespace_sameAsciiCase (t t' : jsstring) :
  Forall2 sameAsciiCase t t' → excludedNamespace t = excludedNamespace t'.
Proof.
  intros Ht. unfold excludedNamespace, regexTest, regexExec, regexInput. simpl.
  apply searchM_same; [apply csMatch_sameAsciiCase | by apply codePoints_same].
Qed.

Lemma excludedNamespace_unfold (t : jsstring) :
  excludedNamespace t
  = matched (matchM namespaceFlags namespacePattern 0 (codePoints t) None
               (fun _ _ c => Some c)).
Proof.
  unfold excludedNamespace, regexTest, regexExec, regexInput. simpl unicode.
  unfold namespacePattern. by rewrite searchM_bol.
Qed.

Lemma category_allowed (rest : jsstring) :
  excludedNamespace (js "Category:" ++ rest) = false.
Proof.
  rewrite excludedNamespace_unfold.
  change (js "Category:" ++ rest)
    with (67 :: 97 :: 116 :: 101 :: 103 :: 111 :: 114 :: 121 :: 58 :: rest).
  rewrite !codePoints_cons by reflexivity.
  reflexivity.
Qed.

Lemma kategoriya_allowed (rest : jsstring) :
  excludedNamespace (kategoriya ++ js ":" ++ rest) = false.
Proof.
  rewrite excludedNamespace_unfold.
  change (kategoriya ++ js ":" ++ rest)
    with (0x41A :: 0x430 :: 0x442 :: 0x435 :: 0x433 :: 0x43E :: 0x440
          :: 0x438 :: 0x44F :: 58 :: rest).
  rewrite !codePoints_cons by reflexivity.
  unfold namespacePattern.
  cbn [matchM].
  match goal with
  | |- context [matchM _ (lit (js "Category")) ?p ?s ?c ?k] =>
      destruct (matchM namespaceFlags (lit (js "Category")) p s c k)
  end; [reflexivity |].
  cbn [matchM lit kategoriya fold_right setM csMatch].
  rewrite !Z.eqb_refl. reflexivity.
Qed.

(** C7 (amended). The namespace test compares without regard to case:
    two titles that differ only in the case of ASCII letters are both
    dropped or both kept; and two prefixes, [Category:] and its Russian
    name, are the allowed exceptions. *)
Theorem namespace_test_ignores_case (t t' rest : jsstring) :
  Forall2 sameAsciiCase t t' →
  excludedNamespace t = excludedNamespace t'
  ∧ excludedNamespace (js "Category:" ++ rest) = false
  ∧ excludedNamespace (kategoriya ++ js ":" ++ rest) = false.
Proof.
  intros Ht. split; [by apply excludedNamespace_sameAsciiCase |].
  split; [apply category_allowed | apply kategoriya_allowed].
Qed.

(** ** The worker *)

Lemma write_cases (m : Master) (e : Entry) :
  (write m e
   = ({| nRead := nRead m; nWritten := nWritten m; batch := [];
         nSentToWorkers := nSentToWorkers m |}, [DbBatch (batch m ++ [e])])
   ∧ kBatchSize <= Z.of_nat (length (batch m ++ [e])))
  ∨ (write m e
     = ({| nRead := nRead m; nWritten := nWritten m; batch := batch m ++ [e];
           nSentToWorkers := nSentToWorkers m |}, [])
     ∧ Z.of_nat (length (batch m ++ [e])) < kBatchSize).
Proof.
  unfold write.
  destruct (Z.leb_spec kBatchSize (Z.of_nat (length (batch m ++ [e]))));
    [left | right]; done.
Qed.

Lemma write_no_exit (s : Sys) (m : Master) (e : Entry) :
  exited (handled s (write m e)) = exited s.
Proof. destruct (write_cases m e) as [[-> _] | [-> _]]; reflexivity. Qed.

(** C5. When the parser returns an error value for a page, the worker
    logs the title with the error, replies with an entry whose [ast] is
    empty, stays connected and takes the next message of its queue; the
    run goes on, also when the master receives that reply. *)
Theorem parser_error_is_recovered (s : Sys) (i : nat) (w : Worker)
    (id : option jsstring) (title source : jsstring) (rest : list WorkerMsg)
    (err : JSError) (ps' : ParserState) (startTime endTime : Z) :
  exited s = None →
  workers s !! i = Some w →
  connected w = true →
  inbox w = PageMsg id title source :: rest →
  parse (parser w) source = (ps', inr err) →
  ∃ w' s',
    step s (EvWorkerRun i startTime endTime) = Some s'
    ∧ workers s' !! i = Some w'
    ∧ workerConsole w' = workerConsole w ++ [(title, err)]
    ∧ outbox w'
      = outbox w ++ [{| key := capitalizeFirst title;
                        value := PageValue id title []
                                   (Qmake (endTime - startTime) 1000)
                                   (backtrackingCount ps') (withSource source) |}]
    ∧ connected w' = true
    ∧ inbox w' = rest
    ∧ exited s' = None
    ∧ (∀ t0 t1, rest ≠ [] → is_Some (step s' (EvWorkerRun i t0 t1)))
    ∧ (∃ s'', step s' (EvWorkerMessage i) = Some s'' ∧ exited s'' = None).
Proof.
  intros Hex Hw Hconn Hin Hparse.
  assert (Hi : (i < length (workers s))%nat) by (by eapply lookup_lt_Some).
  unfold step. rewrite Hex, Hw. simpl.
  unfold workerRun. rewrite Hconn, Hin. simpl. rewrite Hparse. simpl.
  eexists _, _. split; [reflexivity |].
  simpl. rewrite list_lookup_insert_eq by done.
  split; [reflexivity |]. simpl.
  repeat (split; [done |]).
  split.
  - intros t0 t1 Hrest. rewrite Hex. simpl.
    destruct rest as [| msg rest']; [done |].
    destruct (onMessage ps' msg t0 t1). by eexists.
  - rewrite Hex. simpl.
    destruct (outbox w) as [| e0 out]; simpl;
      (eexists; split; [reflexivity |]); by rewrite write_no_exit.
Qed.

(** ** The system: what a handler changes *)

Lemma perform_fields (acts : list Action) : ∀ s : Sys,
  master (foldl perform s acts) = master s
  ∧ store (foldl perform s acts) = store s
  ∧ history (foldl perform s acts) = history s ++ acts
  ∧ pending (foldl perform s acts) = pending s ++ batchesOf acts
  ∧ workers (foldl perform s acts) = foldl deliver (workers s) acts
  ∧ flowing (foldl perform s acts) = foldl flowAfter (flowing s) acts
  ∧ exited (foldl perform s acts) = foldl exitAfter (exited s) acts
  ∧ console (foldl perform s acts) = console s ++ concat (logged <$> acts).
Proof.
  induction acts as [| a acts IH]; intros s.
  - simpl. rewrite !app_nil_r. done.
  - destruct (IH (perform s a)) as (Hm & Hst & Hh & Hp & Hw & Hf & Hx & Hc).
    change (foldl perform s (a :: acts)) with (foldl perform (perform s a) acts).
    rewrite Hm, Hst, Hh, Hp, Hw, Hf, Hx, Hc.
    destruct a; simpl; rewrite <- ?app_assoc; done.
Qed.

Lemma handled_master s r : master (handled s r) = r.1.
Proof. unfold handled. by rewrite (proj1 (perform_fields _ _)). Qed.

Lemma handled_store s r : store (handled s r) = store s.
Proof. unfold handled. by destruct (perform_fields r.2 (setMaster s r.1)) as (_ & -> & _). Qed.

Lemma handled_history s r : history (handled s r) = history s ++ r.2.
Proof. unfold handled. by destruct (perform_fields r.2 (setMaster s r.1)) as (_ & _ & -> & _). Qed.

Lemma handled_pending s r : pending (handled s r) = pending s ++ batchesOf r.2.
Proof. unfold handled. by destruct (perform_fields r.2 (setMaster s r.1)) as (_ & _ & _ & -> & _). Qed.

Lemma handled_workers s r : workers (handled s r) = foldl deliver (workers s) r.2.
Proof. unfold handled. by destruct (perform_fields r.2 (setMaster s r.1)) as (_ & _ & _ & _ & -> & _). Qed.

Lemma handled_flowing s r : flowing (handled s r) = foldl flowAfter (flowing s) r.2.
Proof. unfold handled. by destruct (perform_fields r.2 (setMaster s r.1)) as (_ & _ & _ & _ & _ & -> & _). Qed.

Lemma handled_exited s r : exited (handled s r) = foldl exitAfter (exited s) r.2.
Proof. unfold handled. by destruct (perform_fields r.2 (setMaster s r.1)) as (_ & _ & _ & _ & _ & _ & -> & _). Qed.

Lemma deliver_length acts : ∀ ws, length (foldl deliver ws acts) = length ws.
Proof.
  induction acts as [| a acts IH]; intros ws; [reflexivity |].
  simpl. rewrite IH. destruct a; simpl; try reflexivity. apply length_alter.
Qed.

(** The shapes of a result of [countRead] and of [onPage]. *)
Lemma countRead_cases (m : Master) :
  let m' := {| nRead := nRead m + 1; nWritten := nWritten m; batch := batch m;
               nSentToWorkers := nSentToWorkers m |} in
  (countRead m = (m', [StreamPause]) ∧ kMaxPagesInFlight <= nRead m + 1 - nWritten m)
  ∨ (countRead m = (m', []) ∧ nRead m + 1 - nWritten m < kMaxPagesInFlight).
Proof.
  unfold countRead. simpl.
  destruct (Z.leb_spec (nWritten m + kMaxPagesInFlight) (nRead m + 1));
    [left | right]; split; (reflexivity || lia).
Qed.

Lemma onPage_outcome (n : nat) (m : Master) (page : Page) :
  PageOutcome n m page (onPage n m page).
Proof.
  unfold onPage.
  destruct (page_title page) as [raw |] eqn:Ht;
    [| constructor; right; unfold dispatched; by rewrite Ht].
  destruct (page_text page) as [text |] eqn:Hx;
    [| constructor; right; unfold dispatched; by rewrite Ht, Hx].
  destruct (excludedNamespace (trim raw)) eqn:Hns; simpl;
    [by eapply PageDropped |].
  unfold forward.
  destruct (redirectTarget (default [] text)) as [target |] eqn:Hr.
  - destruct (write m _) as [m1 acts] eqn:Hw.
    destruct (countRead m1) as [m2 acts'] eqn:Hc.
    pose proof (PageRedirect n m page raw text target Ht Hx Hns Hr) as H.
    simpl in H. rewrite Hw in H. simpl in H. by rewrite Hc in H.
  - destruct n as [| n']; [constructor; by left |].
    destruct (countRead _) as [m2 acts'] eqn:Hc.
    pose proof (PageToWorker (S n') m page raw text Ht Hx Hns Hr) as H.
    simpl in H. rewrite Hc in H. apply H. lia.
Qed.

(** ** Runs *)

Lemma run_app (s : Sys) (evs evs' : list Event) :
  run s (evs ++ evs') = s' ← run s evs; run s' evs'.
Proof.
  revert s. induction evs as [| ev evs IH]; intros s; simpl; [reflexivity |].
  destruct (step s ev); simpl; [apply IH | reflexivity].
Qed.

(** A property that holds at the start and is kept by every event holds
    after every run; it may speak about the events so far. *)
Lemma run_invariant (P : list Event → Sys → Prop) (s0 : Sys) :
  P [] s0 →
  (∀ pre s ev s', P pre s → step s ev = Some s' → P (pre ++ [ev]) s') →
  ∀ evs s, run s0 evs = Some s → P evs s.
Proof.
  intros H0 Hstep evs.
  induction evs as [| ev evs IH] using rev_ind; intros s Hrun.
  - simpl in Hrun. by simplify_eq.
  - rewrite run_app in Hrun.
    destruct (run s0 evs) as [s1 |] eqn:H1; simpl in Hrun; [| done].
    destruct (step s1 ev) as [s2 |] eqn:H2; simpl in Hrun; [| done].
    simplify_eq. eapply Hstep; [by apply IH | done].
Qed.

Lemma runPaced_run (evs : list Event) : ∀ s s',
  runPaced s evs = Some s' → run s evs = Some s'.
Proof.
  induction evs as [| ev evs IH]; intros s s' H; simpl in *; [done |].
  destruct (stepPaced s ev) as [s1 |] eqn:H1; simpl in H; [| done].
  assert (step s ev = Some s1) as ->.
  { destruct ev; simpl in H1; try done. by destruct (flowing s). }
  simpl. by apply IH.
Qed.

(** ** Every written record was read *)

Lemma sum_alter_le {A} (f : A → nat) (g : A → A) (c i : nat) (l : list A) :
  (∀ x, f (g x) ≤ f x + c)%nat →
  (sum_list_with f (alter g i l) ≤ sum_list_with f l + c)%nat.
Proof.
  intros Hg. revert i. induction l as [| x l IH]; intros i; csimpl; [lia |].
  destruct i as [| i]; csimpl.
  - specialize (Hg x). clear IH. lia.
  - specialize (IH i). clear Hg. lia.
Qed.

Lemma sum_insert_le {A} (f : A → nat) (c i : nat) (x y : A) (l : list A) :
  l !! i = Some x → (f y + c ≤ f x)%nat →
  (sum_list_with f (<[i:=y]> l) + c ≤ sum_list_with f l)%nat.
Proof.
  intros Hl Hy. revert i Hl. induction l as [| z l IH]; intros i Hl; [done |].
  destruct i as [| i]; csimpl in *.
  - simplify_eq. clear IH. lia.
  - specialize (IH i Hl). lia.
Qed.

Lemma sum_delete {A} (f : A → nat) (i : nat) (x : A) (l : list A) :
  l !! i = Some x →
  (sum_list_with f (delete i l) + f x = sum_list_with f l)%nat.
Proof.
  revert i. induction l as [| z l IH]; intros i Hl; [done |].
  destruct i as [| i]; csimpl in *.
  - simplify_eq. clear IH. lia.
  - specialize (IH i Hl). lia.
Qed.

Lemma sum_snoc {A} (f : A → nat) (l : list A) (x : A) :
  sum_list_with f (l ++ [x]) = (sum_list_with f l + f x)%nat.
Proof. rewrite sum_list_with_app. simpl. lia. Qed.

Lemma workerLoad_enqueue (m : WorkerMsg) (w : Worker) :
  workerLoad (enqueue m w)
  = (workerLoad w + if isPageMsg m then 1 else 0)%nat.
Proof.
  unfold workerLoad, enqueue. simpl. rewrite List.filter_app, length_app.
  destruct m; simpl; lia.
Qed.

Lemma sum_alter_same {A} (f : A → nat) (g : A → A) (i : nat) (l : list A) :
  (∀ x, f (g x) = f x) →
  sum_list_with f (alter g i l) = sum_list_with f l.
Proof.
  intros Hg. revert i. induction l as [| x l IH]; intros i; [done |].
  destruct i as [| i]; csimpl; [by rewrite Hg | by rewrite IH].
Qed.

Lemma load_disconnect_all (ids : list nat) : ∀ ws,
  sum_list_with workerLoad
    (foldl deliver ws (map (fun w => WorkerSend w Disconnect) ids))
  = sum_list_with workerLoad ws.
Proof.
  induction ids as [| i ids IH]; intros ws; simpl; [reflexivity |].
  rewrite IH. apply sum_alter_same. intros x.
  rewrite workerLoad_enqueue. simpl. lia.
Qed.

Ltac fields :=
  rewrite ?handled_master, ?handled_pending, ?handled_workers,
    ?handled_flowing, ?handled_exited, ?handled_store, ?handled_history;
  simpl.

Lemma step_accounted (s s' : Sys) (ev : Event) :
  step s ev = Some s' →
  nWritten (master s) + Z.of_nat (inFlight s) <= nRead (master s) →
  nWritten (master s') + Z.of_nat (inFlight s') <= nRead (master s').
Proof.
  intros Hstep Hinv. unfold step in Hstep.
  destruct (exited s); [done |].
  unfold inFlight in *.
  destruct ev as [page | i t0 t1 | i | i err | | msg | pid].
  - simplify_eq.
    destruct (onPage_outcome (length (workers s)) (master s) page)
      as [title _ | raw text _ _ _ | raw text target _ _ _ _ e | raw text _ _ _ _ _ m1].
    + fields. rewrite app_nil_r. done.
    + fields. rewrite app_nil_r. done.
    + destruct (write_cases (master s) e) as [[Hw _] | [Hw _]]; rewrite Hw;
        simpl;
        match goal with
        | |- context [countRead ?m] =>
            destruct (countRead_cases m) as [[Hc _] | [Hc _]]; rewrite Hc
        end; fields;
        rewrite ?app_nil_r, ?sum_snoc, ?length_app in *; simpl; lia.
    + destruct (countRead_cases m1) as [[Hc _] | [Hc _]]; rewrite Hc; fields;
        rewrite ?app_nil_r;
        match goal with
        | |- context [alter (enqueue ?m) ?i ?ws] =>
            assert (Hle : ∀ x, (workerLoad (enqueue m x) ≤ workerLoad x + 1)%nat)
              by (intros x; rewrite workerLoad_enqueue; simpl; lia);
            pose proof (sum_alter_le workerLoad (enqueue m) 1 i ws Hle) as Hs
        end; clear Hle; lia.
  - destruct (workers s !! i) as [w |] eqn:Hw; simpl in Hstep; [| done].
    unfold workerRun in Hstep.
    destruct (connected w); [| done].
    destruct (inbox w) as [| msg rest] eqn:Hin; [done |].
    destruct (onMessage (parser w) msg t0 t1) as [ps acts] eqn:Hon.
    simpl in Hstep. simplify_eq. simpl.
    match goal with
    | |- context [<[i:=?w']> (workers s)] =>
        enough (Hs : (workerLoad w' + 0 ≤ workerLoad w)%nat)
          by (pose proof (sum_insert_le workerLoad 0 i w w' (workers s) Hw Hs);
              lia)
    end.
    unfold onMessage in Hon. destruct msg as [id title source |].
    + destruct (parse (parser w) source) as [ps1 [nodes | err]];
        simplify_eq; unfold workerLoad; simpl; rewrite Hin; simpl;
        rewrite length_app; simpl; lia.
    + simplify_eq. unfold workerLoad. simpl. rewrite Hin. simpl. lia.
  - destruct (workers s !! i) as [w |] eqn:Hw; simpl in Hstep; [| done].
    destruct (outbox w) as [| e rest] eqn:Hout; [done |].
    simplify_eq.
    match goal with
    | |- context [setWorker s i ?w'] =>
        assert (Hle : (workerLoad w' + 1 ≤ workerLoad w)%nat)
          by (unfold workerLoad; simpl; rewrite Hout; simpl; lia);
        pose proof (sum_insert_le workerLoad 1 i w w' (workers s) Hw Hle) as Hs
    end.
    destruct (write_cases (master s) e) as [[Hwr _] | [Hwr _]]; rewrite Hwr;
      fields; rewrite ?app_nil_r, ?sum_snoc, ?length_app in *; simpl; lia.
  - destruct (pending s !! i) as [ops |] eqn:Hp; simpl in Hstep; [| done].
    simplify_eq.
    pose proof (sum_delete length i ops (pending s) Hp) as Hs.
    destruct err as [e |]; simpl.
    + fields. rewrite ?app_nil_r. lia.
    + match goal with
      | |- context [if ?c then _ else _] => destruct c
      end; fields; rewrite ?app_nil_r; lia.
  - simplify_eq. fields. rewrite load_disconnect_all.
    replace (batchesOf (map (fun w => WorkerSend w Disconnect)
                          (seq 0 (length (workers s)))))
      with (@nil (list Entry)); [by rewrite app_nil_r |].
    generalize (seq 0 (length (workers s))).
    intros l. induction l; simpl; done.
  - simplify_eq. fields. rewrite ?app_nil_r. done.
  - simplify_eq. fields. rewrite ?app_nil_r. done.
Qed.

(** C10. After every run the written count is at most the accepted count:
    every record counted by [nRead] and not yet by [nWritten] is in the
    batch, in a pending call of [db.batch] or with a worker. *)
Theorem written_never_exceeds_read (workerCount : nat) (evs : list Event)
    (s : Sys) :
  run (init workerCount) evs = Some s →
  nWritten (master s) <= nRead (master s)
  ∧ nWritten (master s) + Z.of_nat (inFlight s) <= nRead (master s).
Proof.
  intros Hrun.
  enough (nWritten (master s) + Z.of_nat (inFlight s) <= nRead (master s))
    by (split; [lia | done]).
  revert evs s Hrun.
  apply (run_invariant
           (fun _ s => nWritten (master s) + Z.of_nat (inFlight s)
                       <= nRead (master s))).
  - unfold inFlight, init. simpl.
    replace (sum_list_with workerLoad (replicate workerCount newWorker)) with 0%nat;
      [lia |].
    induction workerCount; simpl; [done | by rewrite <- IHworkerCount].
  - intros pre s ev s' Hinv Hstep. by eapply step_accounted.
Qed.

(** ** The window of records in flight *)

Lemma runPaced_app (s : Sys) (evs evs' : list Event) :
  runPaced s (evs ++ evs') = s' ← runPaced s evs; runPaced s' evs'.
Proof.
  revert s. induction evs as [| ev evs IH]; intros s; simpl; [reflexivity |].
  destruct (stepPaced s ev); simpl; [apply IH | reflexivity].
Qed.

Lemma runPaced_invariant (P : Sys → Prop) (s0 : Sys) :
  P s0 →
  (∀ s ev s', P s → stepPaced s ev = Some s' → P s') →
  ∀ evs s, runPaced s0 evs = Some s → P s.
Proof.
  intros H0 Hstep evs.
  induction evs as [| ev evs IH] using rev_ind; intros s Hrun.
  - simpl in Hrun. by simplify_eq.
  - rewrite runPaced_app in Hrun.
    destruct (runPaced s0 evs) as [s1 |] eqn:H1; simpl in Hrun; [| done].
    destruct (stepPaced s1 ev) as [s2 |] eqn:H2; simpl in Hrun; [| done].
    simplify_eq. eapply Hstep; [by apply IH | done].
Qed.

Lemma kMaxPagesInFlight_pos : 0 < kMaxPagesInFlight.
Proof. reflexivity. Qed.

Lemma kBatchSize_pos : 1 <= kBatchSize.
Proof. unfold kBatchSize. lia. Qed.

Lemma flow_after_sends (ids : list nat) (f : bool) :
  foldl flowAfter f (map (fun w => WorkerSend w Disconnect) ids) = f.
Proof. induction ids; simpl; done. Qed.

Lemma Forall_delete_nonempty (i : nat) (l : list (list Entry)) :
  Forall (fun b => b ≠ []) l → Forall (fun b => b ≠ []) (delete i l).
Proof.
  intros H. revert i. induction H as [| b l Hb Hl IH]; intros i; [done |].
  destruct i; simpl; [done | by constructor].
Qed.

Lemma lookup_nonempty (i : nat) (l : list (list Entry)) (ops : list Entry) :
  Forall (fun b => b ≠ []) l → l !! i = Some ops → (1 <= length ops)%nat.
Proof.
  intros H Hl. eapply Forall_lookup_1 in H; [| done].
  destruct ops; [done | simpl; lia].
Qed.

(** The window: at most [kMaxPagesInFlight] records are in flight, fewer
    while the stream flows, and no pending batch is empty. *)
Lemma stepPaced_window (s s' : Sys) (ev : Event) :
  stepPaced s ev = Some s' →
  (nRead (master s) - nWritten (master s) <= kMaxPagesInFlight
   ∧ (flowing s = true →
      nRead (master s) - nWritten (master s) < kMaxPagesInFlight)
   ∧ Forall (fun b => b ≠ []) (pending s)) →
  nRead (master s') - nWritten (master s') <= kMaxPagesInFlight
  ∧ (flowing s' = true →
     nRead (master s') - nWritten (master s') < kMaxPagesInFlight)
  ∧ Forall (fun b => b ≠ []) (pending s').
Proof.
  intros Hstep (Hle & Hflow & Hpend).
  assert (Hflowing : match ev with EvPage _ => flowing s = true | _ => True end).
  { destruct ev; simpl in Hstep; try done. by destruct (flowing s). }
  assert (Hs : step s ev = Some s').
  { destruct ev; simpl in Hstep; try done. by destruct (flowing s). }
  clear Hstep. unfold step in Hs. destruct (exited s); [done |].
  destruct ev as [page | i t0 t1 | i | i err | | msg | pid].
  - simplify_eq. specialize (Hflow Hflowing).
    destruct (onPage_outcome (length (workers s)) (master s) page)
      as [title _ | raw text _ _ _ | raw text target _ _ _ _ e | raw text _ _ _ _ _ m1].
    + fields. rewrite app_nil_r. rewrite Hflowing. done.
    + fields. rewrite app_nil_r. rewrite Hflowing. done.
    + destruct (write_cases (master s) e) as [[Hw _] | [Hw _]]; rewrite Hw;
        simpl;
        match goal with
        | |- context [countRead ?m] =>
            destruct (countRead_cases m) as [[Hc Hd] | [Hc Hd]]; rewrite Hc
        end; fields; simpl in Hd; rewrite ?app_nil_r;
        (split; [lia |]); (split; [first [done | intros _; lia] |]);
        try done; apply Forall_app; (split; [done |]);
        (constructor; [by destruct (batch (master s)) | done]).
    + destruct (countRead_cases m1) as [[Hc Hd] | [Hc Hd]]; rewrite Hc; fields;
        simpl in Hd; rewrite ?app_nil_r;
        (split; [lia |]); (split; [first [done | intros _; lia] | done]).
  - destruct (workers s !! i) as [w |]; simpl in Hs; [| done].
    destruct (workerRun w t0 t1); simpl in Hs; [| done].
    simplify_eq. done.
  - destruct (workers s !! i) as [w |]; simpl in Hs; [| done].
    destruct (outbox w) as [| e rest]; [done |]. simplify_eq.
    destruct (write_cases (master s) e) as [[Hw _] | [Hw _]]; rewrite Hw;
      fields; rewrite ?app_nil_r; (split; [done |]); (split; [done |]);
      try done.
    apply Forall_app. split; [done |].
    constructor; [by destruct (batch (master s)) | done].
  - destruct (pending s !! i) as [ops |] eqn:Hp; simpl in Hs; [| done].
    simplify_eq.
    pose proof (lookup_nonempty i (pending s) ops Hpend Hp) as Hops.
    pose proof (Forall_delete_nonempty i (pending s) Hpend) as Hdel.
    destruct err as [e |]; simpl.
    + fields. rewrite ?app_nil_r. done.
    + match goal with
      | |- context [if ?c then _ else _] => destruct c
      end; fields; rewrite ?app_nil_r;
      (split; [lia |]); (split; [intros Hf; try specialize (Hflow Hf); lia | done]).
  - simplify_eq. fields. rewrite flow_after_sends.
    replace (batchesOf (map (fun w => WorkerSend w Disconnect)
                          (seq 0 (length (workers s)))))
      with (@nil (list Entry)); [by rewrite app_nil_r |].
    generalize (seq 0 (length (workers s))).
    intros l. induction l; simpl; done.
  - simplify_eq. fields. rewrite ?app_nil_r. done.
  - simplify_eq. fields. rewrite ?app_nil_r. done.
Qed.





(** ** Round-robin dispatch *)

Lemma pageSends_app (h h' : list Action) :
  pageSends (h ++ h') = pageSends h ++ pageSends h'.
Proof. apply omap_app. Qed.

Lemma pagesOf_snoc (evs : list Event) (ev : Event) :
  pagesOf (evs ++ [ev])
  = pagesOf evs ++ match ev with EvPage p => [p] | _ => [] end.
Proof. unfold pagesOf. rewrite omap_app. by destruct ev. Qed.

Lemma pageSends_write (m : Master) (e : Entry) : pageSends (write m e).2 = [].
Proof. by destruct (write_cases m e) as [[-> _] | [-> _]]. Qed.

Lemma pageSends_countRead (m : Master) : pageSends (countRead m).2 = [].
Proof. by destruct (countRead_cases m) as [[-> _] | [-> _]]. Qed.

Lemma pageSends_disconnects (ids : list nat) :
  pageSends (map (fun w => WorkerSend w Disconnect) ids) = [].
Proof. induction ids; simpl; done. Qed.

Lemma nSent_write (m : Master) (e : Entry) :
  nSentToWorkers (write m e).1 = nSentToWorkers m.
Proof. by destruct (write_cases m e) as [[-> _] | [-> _]]. Qed.

Lemma nSent_countRead (m : Master) :
  nSentToWorkers (countRead m).1 = nSentToWorkers m.
Proof. by destruct (countRead_cases m) as [[-> _] | [-> _]]. Qed.

Lemma step_workers_length (s s' : Sys) (ev : Event) :
  step s ev = Some s' → length (workers s') = length (workers s).
Proof.
  intros Hs. unfold step in Hs. destruct (exited s); [done |].
  destruct ev as [page | i t0 t1 | i | i err | | msg | pid].
  - simplify_eq. by rewrite handled_workers, deliver_length.
  - destruct (workers s !! i) as [w |]; simpl in Hs; [| done].
    destruct (workerRun w t0 t1); simpl in Hs; [| done].
    simplify_eq. simpl. apply length_insert.
  - destruct (workers s !! i) as [w |]; simpl in Hs; [| done].
    destruct (outbox w) as [| e rest]; [done |]. simplify_eq.
    rewrite handled_workers, deliver_length. simpl. apply length_insert.
  - destruct (pending s !! i) as [ops |]; simpl in Hs; [| done].
    simplify_eq. by rewrite handled_workers, deliver_length.
  - simplify_eq. by rewrite handled_workers, deliver_length.
  - simplify_eq. by rewrite handled_workers, deliver_length.
  - simplify_eq. by rewrite handled_workers, deliver_length.
Qed.

(** What one event adds to the pages sent and to the send counter. *)
Lemma step_sends (s s' : Sys) (ev : Event) :
  (0 < length (workers s))%nat →
  step s ev = Some s' →
  let sent :=
    match ev with
    | EvPage page =>
        match dispatched page with
        | Some msg =>
            [(Z.to_nat (nSentToWorkers (master s)
                        mod Z.of_nat (length (workers s))), msg)]
        | None => []
        end
    | _ => []
    end in
  pageSends (history s') = pageSends (history s) ++ sent
  ∧ nSentToWorkers (master s')
    = nSentToWorkers (master s) + Z.of_nat (length sent).
Proof.
  intros Hn Hs. unfold step in Hs. destruct (exited s); [done |].
  destruct ev as [page | i t0 t1 | i | i err | | msg | pid]; simpl.
  - simplify_eq. rewrite handled_history, handled_master, pageSends_app.
    destruct (onPage_outcome (length (workers s)) (master s) page)
      as [title [H0 | Hd] | raw text Ht Hx Hns | raw text target Ht Hx Hns Hr e
          | raw text Ht Hx Hns Hr _ m1]; simpl.
    + lia.
    + rewrite Hd. simpl. split; [done | lia].
    + unfold dispatched. rewrite Ht, Hx. simpl. rewrite Hns. simpl.
      split; [done | lia].
    + unfold dispatched. rewrite Ht, Hx. simpl. rewrite Hns, Hr.
      rewrite pageSends_app, pageSends_write, pageSends_countRead.
      rewrite nSent_countRead, nSent_write. simpl. split; [done | lia].
    + unfold dispatched. rewrite Ht, Hx. simpl. rewrite Hns, Hr.
      rewrite pageSends_countRead, nSent_countRead. simpl. done.
  - destruct (workers s !! i) as [w |]; simpl in Hs; [| done].
    destruct (workerRun w t0 t1); simpl in Hs; [| done].
    simplify_eq. simpl. rewrite app_nil_r. split; [done | lia].
  - destruct (workers s !! i) as [w |]; simpl in Hs; [| done].
    destruct (outbox w) as [| e rest]; [done |]. simplify_eq.
    rewrite handled_history, handled_master, pageSends_app, pageSends_write,
      nSent_write. simpl. split; [done | lia].
  - destruct (pending s !! i) as [ops |]; simpl in Hs; [| done].
    simplify_eq.
    rewrite handled_history, handled_master, pageSends_app. simpl.
    unfold batchCallback. destruct err as [e |]; simpl.
    + split; [done | lia].
    + match goal with
      | |- context [if ?c then _ else _] => destruct c
      end; simpl; (split; [done | lia]).
  - simplify_eq. rewrite handled_history, handled_master, pageSends_app. simpl.
    rewrite pageSends_disconnects. split; [done | lia].
  - simplify_eq. rewrite handled_history, handled_master. simpl.
    rewrite pageSends_app. simpl. split; [done | lia].
  - simplify_eq. rewrite handled_history, handled_master. simpl.
    rewrite pageSends_app. simpl. split; [done | lia].
Qed.

(** C9. With a pool that is not empty, the pages sent to workers are, in
    order, the pages of the input that pass the namespace test and are no
    redirect; the [i]-th of them goes to the worker at index
    [i mod poolSize]; and the send counter is their number. *)
Theorem round_robin_dispatch (poolSize : nat) (evs : list Event) (s : Sys) :
  (0 < poolSize)%nat →
  run (init poolSize) evs = Some s →
  snd <$> pageSends (history s) = omap dispatched (pagesOf evs)
  ∧ (∀ i w msg, pageSends (history s) !! i = Some (w, msg) →
                w = (i mod poolSize)%nat)
  ∧ nSentToWorkers (master s) = Z.of_nat (length (pageSends (history s))).
Proof.
  intros Hpool Hrun.
  enough (H : length (workers s) = poolSize
              ∧ snd <$> pageSends (history s) = omap dispatched (pagesOf evs)
              ∧ (∀ i w msg, pageSends (history s) !! i = Some (w, msg) →
                            w = (i mod poolSize)%nat)
              ∧ nSentToWorkers (master s)
                = Z.of_nat (length (pageSends (history s))))
    by apply H.
  revert evs s Hrun.
  apply (run_invariant
           (fun evs s =>
              length (workers s) = poolSize
              ∧ snd <$> pageSends (history s) = omap dispatched (pagesOf evs)
              ∧ (∀ i w msg, pageSends (history s) !! i = Some (w, msg) →
                            w = (i mod poolSize)%nat)
              ∧ nSentToWorkers (master s)
                = Z.of_nat (length (pageSends (history s))))).
  - simpl. rewrite length_replicate. repeat split; done.
  - intros pre s ev s' (Hlen & Hmsgs & Hidx & Hcount) Hstep.
    pose proof (step_workers_length s s' ev Hstep) as Hlen'.
    destruct (step_sends s s' ev) as [Hsent Hn]; [lia | done |].
    rewrite Hsent, Hn, Hlen, Hcount. clear Hsent Hn.
    split; [lia |].
    rewrite pagesOf_snoc, omap_app, fmap_app, Hmsgs.
    destruct ev as [page | | | | | |]; simpl; rewrite ?app_nil_r;
      try (split; [done |]; split; [done | lia]).
    destruct (dispatched page) as [msg |]; simpl; rewrite ?app_nil_r;
      try (split; [done |]; split; [done | lia]).
    split; [done |]. split; [| rewrite length_app; simpl; lia].
    intros i w msg' Hi.
    apply lookup_app_Some in Hi as [Hi | [Hge Hi]]; [by eapply Hidx |].
    apply list_lookup_singleton_Some in Hi as [Hi0 Heq]. simplify_eq.
    assert (i = length (pageSends (history s))) as -> by lia.
    by rewrite <- Nat2Z.inj_mod, Nat2Z.id.
Qed.

(** ** Redirects *)

Lemma foo_not_excluded : excludedNamespace (js "foo") = false.
Proof.
  rewrite excludedNamespace_unfold. unfold namespacePattern.
  cbn [matchM].
  match goal with
  | |- context [matchM ?fl (lit kategoriya) ?p ?s ?c ?k] =>
      destruct (matchM fl (lit kategoriya) p s c k)
  end; reflexivity.
Qed.

(** A page that passed the namespace test and whose text matches the
    redirect pattern is handed to the batch directly, under the
    capitalized title and with [redirectTo] the capitalized target; nothing
    is sent to a worker and the send counter stays. For the title [foo]
    and the text [#REDIRECT [[Bar baz]]] the key is [Foo] and [redirectTo]
    is [Bar baz]. *)
Lemma redirect_written_directly (n : nat) (m : Master) (page : Page)
    (raw : jsstring) (text : option jsstring) (target : jsstring) :
  page_title page = Some raw →
  page_text page = Some text →
  excludedNamespace (trim raw) = false →
  redirectTarget (default [] text) = Some target →
  let e := {| key := capitalizeFirst (trim raw);
              value := RedirectValue (page_id page) (trim raw)
                         (capitalizeFirst target)
                         (withSource (default [] text)) |} in
  let r := onPage n m page in
  (batch r.1 = batch m ++ [e]
   ∨ (batch r.1 = [] ∧ DbBatch (batch m ++ [e]) ∈ r.2))
  ∧ (∀ w msg, WorkerSend w msg ∉ r.2)
  ∧ nSentToWorkers r.1 = nSentToWorkers m
  ∧ nRead r.1 = nRead m + 1
  ∧ excludedNamespace (js "foo") = false
  ∧ redirectTarget (js "#REDIRECT [[Bar baz]]") = Some (js "Bar baz")
  ∧ capitalizeFirst (js "foo") = js "Foo"
  ∧ capitalizeFirst (js "Bar baz") = js "Bar baz".
Proof.
  intros Ht Hx Hns Hr e r. subst r. unfold onPage, forward.
  rewrite Ht, Hx, Hns, Hr. simpl. fold e.
  destruct (write_cases m e) as [[Hw _] | [Hw _]]; rewrite Hw;
    match goal with
    | |- context [countRead ?m] =>
        destruct (countRead_cases m) as [[Hc _] | [Hc _]]; rewrite Hc
    end; simpl;
    (split; [first [by left | right; split; [done | by constructor]] |]);
    (split; [intros w msg Hin;
             repeat (apply elem_of_cons in Hin as [Hin | Hin]; try done);
             by apply elem_of_nil in Hin |]);
    (split; [done |]); (split; [done |]);
    (split; [apply foo_not_excluded |]); repeat split; reflexivity.
Qed.

(** C3 (the code at the failing input). The run of the single page [foo]
    with the text [#REDIRECT [[Bar baz]]] on one worker, up to the end of
    the stream and the disconnection of the worker: the entry [Foo] with
    [redirectTo] [Bar baz] went to the batch and nothing to the worker,
    the process has not exited, nothing is left to happen, and the store
    is empty. *)
Theorem redirect_never_persisted (t0 t1 : Z) :
  ∃ s, run (init 1) [EvPage pageFoo; EvClose; EvWorkerRun 0 t0 t1] = Some s
       ∧ exited s = None
       ∧ quiescent s
       ∧ batch (master s)
         = [{| key := js "Foo";
               value := RedirectValue (Some (js "3")) (js "foo") (js "Bar baz")
                          (withSource (js "#REDIRECT [[Bar baz]]")) |}]
       ∧ sentTitles (history s) = []
       ∧ store s = ∅
       ∧ store s !! js "Foo" = None.
Proof.
  assert (Hns : excludedNamespace (trim (js "foo")) = false)
    by apply foo_not_excluded.
  assert (Hpage : onPage 1 {| nRead := 0; nWritten := 0; batch := [];
                              nSentToWorkers := 0 |} pageFoo
                  = ({| nRead := 1; nWritten := 0;
                        batch := [{| key := js "Foo";
                                     value := RedirectValue (Some (js "3"))
                                                (js "foo") (js "Bar baz")
                                                (withSource
                                                   (js "#REDIRECT [[Bar baz]]")) |}];
                        nSentToWorkers := 0 |}, [])).
  { unfold onPage. simpl page_title. simpl page_text. cbv iota beta.
    rewrite Hns. reflexivity. }
  assert (Hstep : step (init 1) (EvPage pageFoo)
                  = Some (handled (init 1)
                            ({| nRead := 1; nWritten := 0;
                                batch := [{| key := js "Foo";
                                             value := RedirectValue
                                                        (Some (js "3"))
                                                        (js "foo") (js "Bar baz")
                                                        (withSource
                                                           (js "#REDIRECT [[Bar baz]]")) |}];
                                nSentToWorkers := 0 |}, []))).
  { unfold step.
    change (exited (init 1)) with (@None Z).
    change (length (workers (init 1))) with 1%nat.
    change (master (init 1))
      with {| nRead := 0; nWritten := 0; batch := []; nSentToWorkers := 0 |}.
    cbv iota beta zeta. by rewrite Hpage. }
  cbn [run]. rewrite Hstep. unfold step, handled, workerRun. simpl.
  eexists. split; [reflexivity |]. simpl.
  split; [done |].
  split; [intros [| i] startTime endTime err'; simpl; done |].
  repeat split; done.
Qed.

(** ** Excluded namespaces *)

Lemma keyOfAccepted_snoc (evs : list Event) (ev : Event) (k : jsstring) :
  keyOfAccepted evs k → keyOfAccepted (evs ++ [ev]) k.
Proof.
  intros (page & raw & Hin & H). exists page, raw.
  split; [| done]. apply elem_of_app. by left.
Qed.

Lemma elem_concat_alter {A B} (f : A → list B) (g : A → A) (i : nat)
    (l : list A) (k : B) :
  k ∈ concat (f <$> alter g i l) →
  k ∈ concat (f <$> l) ∨ ∃ x, l !! i = Some x ∧ k ∈ f (g x).
Proof.
  revert i. induction l as [| x l IH]; intros i Hk; [by left |].
  destruct i as [| i]; csimpl in *; apply elem_of_app in Hk as [Hk | Hk].
  - right. by exists x.
  - left. apply elem_of_app. by right.
  - left. apply elem_of_app. by left.
  - destruct (IH i Hk) as [H | (y & Hy & H)].
    + left. apply elem_of_app. by right.
    + right. by exists y.
Qed.

Lemma elem_concat_insert {A B} (f : A → list B) (y : A) (i : nat)
    (l : list A) (k : B) :
  k ∈ concat (f <$> <[i:=y]> l) → k ∈ concat (f <$> l) ∨ k ∈ f y.
Proof.
  revert i. induction l as [| x l IH]; intros i Hk; [by left |].
  destruct i as [| i]; csimpl in *; apply elem_of_app in Hk as [Hk | Hk].
  - by right.
  - left. apply elem_of_app. by right.
  - left. apply elem_of_app. by left.
  - destruct (IH i Hk) as [H | H]; [| by right].
    left. apply elem_of_app. by right.
Qed.

Lemma elem_concat_lookup {A B} (f : A → list B) (x : A) (i : nat)
    (l : list A) (k : B) :
  l !! i = Some x → k ∈ f x → k ∈ concat (f <$> l).
Proof.
  revert i. induction l as [| z l IH]; intros i Hl Hk; [done |].
  destruct i as [| i]; csimpl in *; apply elem_of_app.
  - simplify_eq. by left.
  - right. by eapply IH.
Qed.

Lemma elem_concat_delete {A B} (f : A → list B) (i : nat) (l : list A)
    (k : B) :
  k ∈ concat (f <$> delete i l) → k ∈ concat (f <$> l).
Proof.
  revert i. induction l as [| x l IH]; intros i Hk; [done |].
  destruct i as [| i]; csimpl in *.
  - apply elem_of_app. by right.
  - apply elem_of_app in Hk as [Hk | Hk]; apply elem_of_app;
      [by left | right; by eapply IH].
Qed.

Lemma workerKeys_disconnects (ids : list nat) : ∀ ws k,
  k ∈ concat (workerKeys <$>
                foldl deliver ws (map (fun w => WorkerSend w Disconnect) ids)) →
  k ∈ concat (workerKeys <$> ws).
Proof.
  induction ids as [| i ids IH]; intros ws k Hk; [done |].
  simpl in Hk. apply IH in Hk.
  apply elem_concat_alter in Hk as [Hk | (w & Hw & Hk)]; [done |].
  eapply elem_concat_lookup; [done |].
  unfold workerKeys, enqueue in *. simpl in Hk.
  rewrite omap_app in Hk. simpl in Hk. by rewrite app_nil_r in Hk.
Qed.

Lemma store_after_batch (ops : list Entry) : ∀ (st : gmap jsstring Value) k,
  is_Some (foldl put st ops !! k) → is_Some (st !! k) ∨ k ∈ key <$> ops.
Proof.
  induction ops as [| e ops IH]; intros st k Hk; [by left |].
  simpl in Hk. apply IH in Hk as [Hk | Hk].
  - unfold put in Hk. destruct (decide (key e = k)) as [<- | Hne].
    + right. simpl. apply elem_of_cons. by left.
    + left. by rewrite lookup_insert_ne in Hk.
  - right. simpl. apply elem_of_cons. by right.
Qed.

Lemma sentTitles_app (h h' : list Action) :
  sentTitles (h ++ h') = sentTitles h ++ sentTitles h'.
Proof. apply omap_app. Qed.

Lemma sentTitles_write (m : Master) (e : Entry) : sentTitles (write m e).2 = [].
Proof. by destruct (write_cases m e) as [[-> _] | [-> _]]. Qed.

Lemma sentTitles_countRead (m : Master) : sentTitles (countRead m).2 = [].
Proof. by destruct (countRead_cases m) as [[-> _] | [-> _]]. Qed.

Lemma sentTitles_disconnects (ids : list nat) :
  sentTitles (map (fun w => WorkerSend w Disconnect) ids) = [].
Proof. induction ids; simpl; done. Qed.

Lemma keysInFlight_handled (s : Sys) (r : Master * list Action) :
  keysInFlight (handled s r)
  = batchKeys (batch r.1) ++ concat (batchKeys <$> (pending s ++ batchesOf r.2))
    ++ concat (workerKeys <$> foldl deliver (workers s) r.2).
Proof.
  unfold keysInFlight.
  by rewrite handled_master, handled_pending, handled_workers.
Qed.

Lemma keys_in_flight (s : Sys) (k : jsstring) :
  k ∈ keysInFlight s
  ↔ k ∈ batchKeys (batch (master s))
    ∨ k ∈ concat (batchKeys <$> pending s)
    ∨ k ∈ concat (workerKeys <$> workers s).
Proof. unfold keysInFlight. by rewrite !elem_of_app. Qed.

(** The keys after a [write]: the old ones and the key written. *)
Lemma keys_after_write (s : Sys) (m : Master) (e : Entry) (k : jsstring) :
  k ∈ batchKeys (batch (write m e).1)
      ++ concat (batchKeys <$> (pending s ++ batchesOf (write m e).2)) →
  k ∈ batchKeys (batch m) ∨ k ∈ concat (batchKeys <$> pending s) ∨ k = key e.
Proof.
  unfold batchKeys.
  destruct (write_cases m e) as [[-> _] | [-> _]]; simpl;
    rewrite ?app_nil_r, ?fmap_app, ?concat_app, ?elem_of_app; simpl;
    rewrite ?app_nil_r, ?fmap_app, ?elem_of_app, ?list_fmap_singleton,
      ?list_elem_of_singleton; tauto.
Qed.

Ltac keys_norm H :=
  unfold batchKeys in H; simpl in H;
  rewrite ?app_nil_r, ?fmap_app, ?concat_app in H; simpl in H;
  rewrite ?app_nil_r, ?fmap_app, ?elem_of_app, ?list_fmap_singleton,
    ?list_elem_of_singleton in H.

Lemma step_keys (pre : list Event) (s s' : Sys) (ev : Event) :
  step s ev = Some s' →
  (∀ k, k ∈ keysInFlight s ∨ is_Some (store s !! k) → keyOfAccepted pre k) →
  ∀ k, k ∈ keysInFlight s' ∨ is_Some (store s' !! k) →
       keyOfAccepted (pre ++ [ev]) k.
Proof.
  intros Hs Hinv k Hk.
  assert (Hold : k ∈ keysInFlight s ∨ is_Some (store s !! k) →
                 keyOfAccepted (pre ++ [ev]) k).
  { intros H. by apply keyOfAccepted_snoc, Hinv. }
  clear Hinv. rewrite keys_in_flight in Hold.
  unfold step in Hs. destruct (exited s); [done |].
  destruct ev as [page | i t0 t1 | i | i err | | msg | pid].
  - simplify_eq. rewrite keysInFlight_handled, handled_store in Hk.
    destruct (onPage_outcome (length (workers s)) (master s) page)
      as [title _ | raw text Ht Hx Hns | raw text target Ht Hx Hns Hr e
          | raw text Ht Hx Hns Hr _ m1].
    + simpl in Hk. rewrite app_nil_r, !elem_of_app in Hk. tauto.
    + simpl in Hk. rewrite app_nil_r, !elem_of_app in Hk. tauto.
    + assert (Hnew : keyOfAccepted (pre ++ [EvPage page]) (key e)).
      { exists page, raw. split; [| done].
        apply elem_of_app. right. by apply list_elem_of_singleton. }
      unfold batchKeys in Hold.
      destruct (write_cases (master s) e) as [[Hw _] | [Hw _]];
        rewrite Hw in Hk; simpl in Hk;
        match type of Hk with
        | context [countRead ?m] =>
            destruct (countRead_cases m) as [[Hc _] | [Hc _]]; rewrite Hc in Hk
        end; keys_norm Hk; intuition (subst; auto).
    + assert (Hnew : keyOfAccepted (pre ++ [EvPage page])
                       (capitalizeFirst (trim raw))).
      { exists page, raw. split; [| done].
        apply elem_of_app. right. by apply list_elem_of_singleton. }
      assert (Hw : ∀ w, workers s !! Z.to_nat (nSentToWorkers (master s)
                                      mod Z.of_nat (length (workers s)))
                        = Some w →
                   k ∈ workerKeys
                         (enqueue (PageMsg (page_id page) (trim raw)
                                     (default [] text)) w) →
                   keyOfAccepted (pre ++ [EvPage page]) k).
      { intros w Hw Hin. unfold workerKeys, enqueue in Hin. simpl in Hin.
        rewrite omap_app in Hin. simpl in Hin.
        rewrite !elem_of_app, list_elem_of_singleton in Hin.
        destruct Hin as [[Hin | ->] | Hin]; [| done |];
          apply Hold; left; right; right;
          (eapply elem_concat_lookup; [done |]);
          unfold workerKeys; apply elem_of_app; [by left | by right]. }
      unfold batchKeys in Hold.
      destruct (countRead_cases m1) as [[Hc _] | [Hc _]]; rewrite Hc in Hk;
        keys_norm Hk;
        (destruct Hk as [[Hk | [Hk | Hk]] | Hk];
         [tauto | tauto | | tauto]);
        (apply elem_concat_alter in Hk as [Hk | (w & Hlk & Hk)];
         [tauto | by eapply Hw]).
  - destruct (workers s !! i) as [w |] eqn:Hw; simpl in Hs; [| done].
    unfold workerRun in Hs. destruct (connected w); [| done].
    destruct (inbox w) as [| msg rest] eqn:Hin; [done |].
    destruct (onMessage (parser w) msg t0 t1) as [ps acts] eqn:Hon.
    simpl in Hs. simplify_eq. apply Hold.
    rewrite keys_in_flight in Hk. simpl in Hk.
    destruct Hk as [[Hk | [Hk | Hk]] | Hk]; [intuition (subst; auto) | intuition (subst; auto) | | intuition (subst; auto)].
    left. right. right.
    apply elem_concat_insert in Hk as [Hk | Hk]; [done |].
    eapply elem_concat_lookup; [done |].
    unfold workerKeys in *. rewrite Hin.
    unfold onMessage in Hon. destruct msg as [id title source |].
    + destruct (parse (parser w) source) as [ps1 [nodes | err]];
        simplify_eq; simpl in *;
        rewrite fmap_app in Hk; simpl in Hk;
        rewrite !elem_of_app, list_elem_of_singleton in Hk;
        rewrite elem_of_cons, elem_of_app; intuition (subst; auto).
    + simplify_eq. simpl in *. done.
  - destruct (workers s !! i) as [w |] eqn:Hw; simpl in Hs; [| done].
    destruct (outbox w) as [| e rest] eqn:Hout; [done |]. simplify_eq.
    rewrite keysInFlight_handled, handled_store in Hk. simpl in Hk.
    assert (Hde : ∀ ws, foldl deliver ws (write (master s) e).2 = ws)
      by (by destruct (write_cases (master s) e) as [[-> _] | [-> _]]).
    rewrite Hde in Hk.
    assert (He : k = key e → k ∈ concat (workerKeys <$> workers s)).
    { intros ->. eapply elem_concat_lookup; [done |].
      unfold workerKeys. rewrite Hout. apply elem_of_app. right.
      simpl. apply elem_of_cons. by left. }
    rewrite app_assoc, elem_of_app in Hk.
    destruct Hk as [[Hk | Hk] | Hk]; [| | intuition (subst; auto)].
    + apply keys_after_write in Hk. intuition (subst; auto).
    + apply elem_concat_insert in Hk as [Hk | Hk]; [intuition (subst; auto) |].
      apply Hold. left. right. right.
      eapply elem_concat_lookup; [done |].
      unfold workerKeys in *. simpl in Hk. rewrite Hout. simpl.
      rewrite elem_of_app in *. rewrite elem_of_cons. intuition (subst; auto).
  - destruct (pending s !! i) as [ops |] eqn:Hp; simpl in Hs; [| done].
    simplify_eq. rewrite keysInFlight_handled, handled_store in Hk.
    simpl in Hk.
    assert (Hcb : ∃ m acts, batchCallback (master s) ops err = (m, acts)
                            ∧ batch m = batch (master s)
                            ∧ batchesOf acts = []
                            ∧ ∀ ws, foldl deliver ws acts = ws).
    { unfold batchCallback. destruct err as [e |]; [by eexists _, _ |].
      match goal with
      | |- context [if ?c then _ else _] => destruct c
      end; by eexists _, _. }
    destruct Hcb as (m & acts & Hcb & Hb & Hba & Hde).
    rewrite Hcb in Hk. simpl in Hk. rewrite Hb, Hba, Hde, app_nil_r in Hk.
    rewrite !elem_of_app in Hk.
    destruct Hk as [[Hk | [Hk | Hk]] | Hk]; [intuition (subst; auto) | | intuition (subst; auto) |].
    + apply elem_concat_delete in Hk. intuition (subst; auto).
    + assert (Hst : is_Some (store s !! k) ∨ k ∈ key <$> ops).
      { destruct err; [by left | by apply store_after_batch]. }
      destruct Hst as [Hst | Hst]; [intuition (subst; auto) |].
      apply Hold. left. right. left.
      by eapply (elem_concat_lookup batchKeys).
  - simplify_eq. rewrite keysInFlight_handled, handled_store in Hk.
    simpl in Hk.
    replace (batchesOf (map (fun w => WorkerSend w Disconnect)
                          (seq 0 (length (workers s)))))
      with (@nil (list Entry)) in Hk
      by (generalize (seq 0 (length (workers s))); intros l;
          induction l; simpl; done).
    rewrite app_nil_r, !elem_of_app in Hk.
    destruct Hk as [[Hk | [Hk | Hk]] | Hk]; [intuition (subst; auto) | intuition (subst; auto) | | intuition (subst; auto)].
    apply workerKeys_disconnects in Hk. intuition (subst; auto).
  - simplify_eq. rewrite keysInFlight_handled, handled_store in Hk.
    simpl in Hk. rewrite app_nil_r, !elem_of_app in Hk. intuition (subst; auto).
  - simplify_eq. rewrite keysInFlight_handled, handled_store in Hk.
    simpl in Hk. rewrite app_nil_r, !elem_of_app in Hk. intuition (subst; auto).
Qed.

Lemma template_excluded : excludedNamespace (js "Template:X") = true.
Proof.
  rewrite excludedNamespace_unfold. unfold namespacePattern.
  change (codePoints (js "Template:X"))
    with [84; 101; 109; 112; 108; 97; 116; 101; 58; 88].
  cbn [matchM].
  match goal with
  | |- context [matchM ?fl (lit kategoriya) ?p ?s ?c ?k] =>
      assert (Hk : matchM fl (lit kategoriya) p s c k = None)
  end.
  { cbn -[Z.eqb].
    repeat (match goal with
            | |- context [?a =? scfTable ?b] => destruct (a =? scfTable b)
            end; try reflexivity). }
  rewrite Hk. reflexivity.
Qed.

Lemma step_sent_titles (s s' : Sys) (ev : Event) :
  step s ev = Some s' →
  Forall (fun t => excludedNamespace t = false) (sentTitles (history s)) →
  Forall (fun t => excludedNamespace t = false) (sentTitles (history s')).
Proof.
  intros Hs Hinv. unfold step in Hs. destruct (exited s); [done |].
  destruct ev as [page | i t0 t1 | i | i err | | msg | pid].
  - simplify_eq. rewrite handled_history, sentTitles_app.
    apply Forall_app. split; [done |].
    destruct (onPage_outcome (length (workers s)) (master s) page)
      as [title _ | raw text Ht Hx Hns | raw text target Ht Hx Hns Hr e
          | raw text Ht Hx Hns Hr _ m1]; simpl; try done.
    + by rewrite sentTitles_app, sentTitles_write, sentTitles_countRead.
    + rewrite sentTitles_countRead. by constructor.
  - destruct (workers s !! i) as [w |]; simpl in Hs; [| done].
    destruct (workerRun w t0 t1); simpl in Hs; [| done]. by simplify_eq.
  - destruct (workers s !! i) as [w |]; simpl in Hs; [| done].
    destruct (outbox w) as [| e rest]; [done |]. simplify_eq.
    rewrite handled_history, sentTitles_app, sentTitles_write, app_nil_r.
    done.
  - destruct (pending s !! i) as [ops |]; simpl in Hs; [| done].
    simplify_eq. rewrite handled_history, sentTitles_app. simpl.
    apply Forall_app. split; [done |].
    unfold batchCallback. destruct err as [e |]; simpl; [done |].
    match goal with
    | |- context [if ?c then _ else _] => destruct c
    end; done.
  - simplify_eq. rewrite handled_history, sentTitles_app. simpl.
    by rewrite sentTitles_disconnects, app_nil_r.
  - simplify_eq. rewrite handled_history, sentTitles_app. simpl.
    by rewrite app_nil_r.
  - simplify_eq. rewrite handled_history, sentTitles_app. simpl.
    by rewrite app_nil_r.
Qed.

(** C2 (amended). A page whose title matches the namespace pattern (letters,
    a colon and a word character, not behind the prefix [Category:] or its
    Russian name), such as [Template:X], leaves the master as it was and
    causes no action; no such title is ever sent to a worker, and every key
    of the store is the capitalized title of a page of the input that
    passed the test, so an input of excluded pages leaves the store empty.
    A title that starts with [Category:] passes the test: the page is
    counted and, unless it is a redirect, sent to a worker. *)
Theorem excluded_namespace_dropped (n : nat) (evs : list Event) (s : Sys) :
  run (init n) evs = Some s →
  (∀ m page raw text,
     page_title page = Some raw → page_text page = Some text →
     excludedNamespace (trim raw) = true →
     onPage n m page = (m, []))
  ∧ excludedNamespace (js "Template:X") = true
  ∧ Forall (fun t => excludedNamespace t = false) (sentTitles (history s))
  ∧ (∀ k, is_Some (store s !! k) → keyOfAccepted evs k)
  ∧ ((∀ page raw, EvPage page ∈ evs → page_title page = Some raw →
                  excludedNamespace (trim raw) = true) →
     store s = ∅)
  ∧ (∀ m page raw text rest,
       (0 < n)%nat →
       page_title page = Some raw → page_text page = Some text →
       trim raw = js "Category:" ++ rest →
       excludedNamespace (trim raw) = false
       ∧ nRead (onPage n m page).1 = nRead m + 1
       ∧ (redirectTarget (default [] text) = None →
          ∃ w, WorkerSend w (PageMsg (page_id page) (trim raw) (default [] text))
               ∈ (onPage n m page).2)).
Proof.
  intros Hrun.
  assert (Hkeys : ∀ k, k ∈ keysInFlight s ∨ is_Some (store s !! k) →
                       keyOfAccepted evs k).
  { revert evs s Hrun.
    apply (run_invariant
             (fun evs s => ∀ k, k ∈ keysInFlight s ∨ is_Some (store s !! k) →
                                keyOfAccepted evs k)).
    - intros k [Hk | Hk].
      + unfold keysInFlight, init in Hk. simpl in Hk.
        exfalso. induction n as [| n' IH]; simpl in Hk.
        * by apply elem_of_nil in Hk.
        * by apply IH.
      + simpl in Hk. rewrite lookup_empty in Hk. by destruct Hk.
    - intros pre s0 ev s1 Hinv Hstep. by eapply step_keys. }
  assert (Hsent : Forall (fun t => excludedNamespace t = false)
                    (sentTitles (history s))).
  { revert evs s Hrun Hkeys.
    intros evs s Hrun _. revert evs s Hrun.
    apply (run_invariant
             (fun _ s => Forall (fun t => excludedNamespace t = false)
                           (sentTitles (history s)))).
    - constructor.
    - intros pre s0 ev s1 Hinv Hstep. by eapply step_sent_titles. }
  split.
  { intros m page raw text Ht Hx Hns. unfold onPage.
    by rewrite Ht, Hx, Hns. }
  split; [apply template_excluded |].
  split; [done |].
  split; [intros k Hk; apply Hkeys; by right |].
  split.
  { intros Hall. apply map_empty. intros k.
    destruct (store s !! k) as [v |] eqn:Hk; [| done].
    destruct (Hkeys k) as (page & raw & Hin & Ht & Hns & _); [right; by eexists |].
    rewrite (Hall page raw Hin Ht) in Hns. done. }
  intros m page raw text rest Hn Ht Hx Hcat.
  assert (Hns : excludedNamespace (trim raw) = false)
    by (rewrite Hcat; apply category_allowed).
  split; [done |].
  unfold onPage, forward. rewrite Ht, Hx. simpl. rewrite Hns. simpl.
  destruct (redirectTarget (default [] text)) as [target |].
  - match goal with
    | |- context [write m ?e] =>
        destruct (write_cases m e) as [[Hw _] | [Hw _]]; rewrite Hw
    end;
    match goal with
    | |- context [countRead ?m] =>
        destruct (countRead_cases m) as [[Hc _] | [Hc _]]; rewrite Hc
    end; simpl; (split; [done | done]).
  - destruct n as [| n']; [lia |].
    match goal with
    | |- context [countRead ?m] =>
        destruct (countRead_cases m) as [[Hc _] | [Hc _]]; rewrite Hc
    end; simpl; (split; [done |]); intros _; eexists; apply elem_of_cons;
      by left.
Qed.

(** ** Errors of the XML reader *)

Lemma handled_console s r :
  console (handled s r) = console s ++ concat (logged <$> r.2).
Proof.
  unfold handled.
  by destruct (perform_fields r.2 (setMaster s r.1))
    as (_ & _ & _ & _ & _ & _ & _ & ->).
Qed.

Lemma sameButLog_handled (a b : Sys) (r : Master * list Action) :
  sameButLog a b → sameButLog (handled a r) (handled b r).
Proof.
  intros (Hm & Hf & Hw & Hp & Hst & Hx). unfold sameButLog. fields.
  by rewrite Hf, Hw, Hp, Hst, Hx.
Qed.

(** The handlers read neither the console nor the record of the
    actions. *)
Lemma step_sameButLog (a b a' : Sys) (ev : Event) :
  sameButLog a b → step a ev = Some a' →
  ∃ b', step b ev = Some b' ∧ sameButLog a' b'.
Proof.
  intros Hab Hs. pose proof Hab as (Hm & Hf & Hw & Hp & Hst & Hx).
  unfold step in *. rewrite <- Hx. destruct (exited a) eqn:Hex; [done |].
  rewrite <- Hw, <- Hm, <- Hp.
  destruct ev as [page | i t0 t1 | i | i err | | msg | pid].
  - simplify_eq. eexists. split; [done |]. by apply sameButLog_handled.
  - destruct (workers a !! i) as [w |]; simpl in Hs |- *; [| done].
    destruct (workerRun w t0 t1) as [w' |]; simpl in Hs |- *; [| done].
    simplify_eq. eexists. split; [done |].
    unfold sameButLog. simpl. rewrite Hw. repeat split; congruence.
  - destruct (workers a !! i) as [w |]; simpl in Hs |- *; [| done].
    destruct (outbox w) as [| e rest]; [done |]. simplify_eq.
    eexists. split; [done |]. apply sameButLog_handled.
    unfold sameButLog. simpl. rewrite Hw. repeat split; congruence.
  - destruct (pending a !! i) as [ops |]; simpl in Hs |- *; [| done].
    simplify_eq. eexists. split; [done |]. rewrite <- Hm.
    apply sameButLog_handled. unfold sameButLog. simpl.
    rewrite Hp, Hst. repeat split; congruence.
  - simplify_eq. eexists. split; [done |]. by apply sameButLog_handled.
  - simplify_eq. eexists. split; [done |]. by apply sameButLog_handled.
  - simplify_eq. eexists. split; [done |]. by apply sameButLog_handled.
Qed.

Lemma step_xml_error (s s' : Sys) (message : JSError) :
  step s (EvXmlError message) = Some s' →
  sameButLog s' s ∧ console s' = console s ++ [LogXmlFailed message].
Proof.
  intros Hs. unfold step in Hs. destruct (exited s) eqn:Hex; [done |].
  simplify_eq. split; [| by rewrite handled_console].
  unfold sameButLog. fields. by rewrite app_nil_r.
Qed.

Lemma sameButLog_trans (a b c : Sys) :
  sameButLog a b → sameButLog b c → sameButLog a c.
Proof.
  intros (? & ? & ? & ? & ? & ?) (? & ? & ? & ? & ? & ?).
  unfold sameButLog. repeat split; congruence.
Qed.

Lemma run_without_errors (evs : list Event) : ∀ a b a' : Sys,
  sameButLog a b → run a evs = Some a' →
  ∃ b', run b (withoutXmlErrors evs) = Some b' ∧ sameButLog a' b'.
Proof.
  induction evs as [| ev evs IH]; intros a b a' Hab Hrun; simpl in *.
  - simplify_eq. by exists b.
  - destruct (step a ev) as [a1 |] eqn:Hstep; simpl in Hrun; [| done].
    destruct (isXmlError ev) eqn:Hev; simpl.
    + destruct ev; try discriminate.
      apply step_xml_error in Hstep as [Hsame _].
      apply (IH a1 b a'); [| done]. by eapply sameButLog_trans.
    + destruct (step_sameButLog a b a1 ev Hab Hstep) as (b1 & Hb & Hsame).
      rewrite Hb. simpl. by apply (IH a1 b1 a').
Qed.

Lemma xmlLines_app (c c' : list LogLine) :
  xmlLines (c ++ c') = xmlLines c ++ xmlLines c'.
Proof. apply omap_app. Qed.

Lemma xmlLines_write (m : Master) (e : Entry) :
  xmlLines (concat (logged <$> (write m e).2)) = [].
Proof. by destruct (write_cases m e) as [[-> _] | [-> _]]. Qed.

Lemma xmlLines_countRead (m : Master) :
  xmlLines (concat (logged <$> (countRead m).2)) = [].
Proof. by destruct (countRead_cases m) as [[-> _] | [-> _]]. Qed.

Lemma xmlLines_disconnects (ids : list nat) :
  xmlLines (concat (logged <$> map (fun w => WorkerSend w Disconnect) ids))
  = [].
Proof. induction ids; simpl; done. Qed.

Lemma xmlLines_onPage (n : nat) (m : Master) (page : Page) :
  xmlLines (concat (logged <$> (onPage n m page).2)) = [].
Proof.
  destruct (onPage_outcome n m page)
    as [title _ | raw text _ _ _ | raw text target _ _ _ _ e
        | raw text _ _ _ _ _ m1]; simpl; try done.
  - by rewrite fmap_app, concat_app, xmlLines_app, xmlLines_write,
      xmlLines_countRead.
  - apply xmlLines_countRead.
Qed.

Lemma step_xmlLines (s s' : Sys) (ev : Event) :
  step s ev = Some s' →
  xmlLines (console s') = xmlLines (console s) ++ xmlErrors [ev].
Proof.
  intros Hs. unfold step in Hs. destruct (exited s); [done |].
  destruct ev as [page | i t0 t1 | i | i err | | msg | pid]; simpl.
  - simplify_eq.
    by rewrite handled_console, xmlLines_app, xmlLines_onPage.
  - destruct (workers s !! i) as [w |]; simpl in Hs; [| done].
    destruct (workerRun w t0 t1); simpl in Hs; [| done].
    simplify_eq. simpl. by rewrite app_nil_r.
  - destruct (workers s !! i) as [w |]; simpl in Hs; [| done].
    destruct (outbox w) as [| e rest]; [done |]. simplify_eq.
    by rewrite handled_console, xmlLines_app, xmlLines_write.
  - destruct (pending s !! i) as [ops |]; simpl in Hs; [| done].
    simplify_eq. rewrite handled_console, xmlLines_app. simpl.
    destruct err as [e |]; simpl; [done |].
    by match goal with
       | |- context [if ?c then _ else _] => destruct c
       end.
  - simplify_eq. rewrite handled_console, xmlLines_app. simpl.
    by rewrite xmlLines_disconnects.
  - simplify_eq. by rewrite handled_console, xmlLines_app.
  - simplify_eq. by rewrite handled_console, xmlLines_app.
Qed.

Lemma run_xmlLines (evs : list Event) : ∀ s s' : Sys,
  run s evs = Some s' →
  xmlLines (console s') = xmlLines (console s) ++ xmlErrors evs.
Proof.
  induction evs as [| ev evs IH]; intros s s' Hrun; simpl in *.
  - simplify_eq. by rewrite app_nil_r.
  - destruct (step s ev) as [s1 |] eqn:Hstep; simpl in Hrun; [| done].
    rewrite (IH s1 s' Hrun), (step_xmlLines s s1 ev Hstep).
    rewrite <- app_assoc. by destruct ev.
Qed.

Lemma malformed_page_fails (n : nat) (m : Master) (page : Page) :
  malformed page →
  onPage n m page = failed m (trim <$> page_title page).
Proof.
  unfold onPage. intros [Ht | Hx].
  - by rewrite Ht.
  - destruct (page_title page) as [raw |]; [| done]. by rewrite Hx.
Qed.

(** C8 (amended). An error signalled by the XML reader is reported and
    is not fatal: every such error of a run is on the console, in order,
    and the counters, the batch, the workers, the pending writes, the
    store and the exit status after the run are those of the same run
    without the errors. A malformed record, a page without title or
    without revision text, is not skipped: in whatever state it arrives,
    it is logged with its title and ends the process with code 1, the
    counters and the store are left as they are and nothing happens
    afterwards. *)
Theorem xml_error_reported_not_fatal (s s' : Sys) (evs : list Event) :
  run s evs = Some s' →
  (∃ s'', run s (withoutXmlErrors evs) = Some s'' ∧ sameButLog s' s'')
  ∧ xmlLines (console s') = xmlLines (console s) ++ xmlErrors evs
  ∧ (∀ (s0 : Sys) (page : Page), exited s0 = None → malformed page →
       ∃ s1, step s0 (EvPage page) = Some s1
             ∧ exited s1 = Some 1
             ∧ console s1
               = console s0 ++ [LogPageFailed (trim <$> page_title page)]
             ∧ master s1 = master s0
             ∧ store s1 = store s0
             ∧ ∀ ev, step s1 ev = None).
Proof.
  intros Hrun. split.
  { apply (run_without_errors evs s s s'); [| done].
    unfold sameButLog. done. }
  split; [by apply run_xmlLines |].
  intros s0 page Hex Hbad. unfold step at 1. rewrite Hex.
  rewrite (malformed_page_fails _ _ page Hbad).
  eexists. split; [reflexivity |].
  assert (Hx : exited (handled s0 (failed (master s0)
                                     (trim <$> page_title page))) = Some 1)
    by (by rewrite handled_exited, Hex).
  split; [exact Hx |].
  split; [by rewrite handled_console |].
  split; [by rewrite handled_master |].
  split; [by rewrite handled_store |].
  intros ev. unfold step. by rewrite Hx.
Qed.

(** The failures that do end the run: a failed write and a dead worker. *)
Lemma write_failure_is_fatal (s : Sys) (i : nat) (ops : list Entry)
    (err : JSError) :
  exited s = None → pending s !! i = Some ops →
  ∃ s', step s (EvBatchDone i (Some err)) = Some s'
        ∧ exited s' = Some 1 ∧ store s' = store s
        ∧ ∀ ev, step s' ev = None.
Proof.
  intros Hex Hp. unfold step. rewrite Hex, Hp. simpl.
  eexists. split; [reflexivity |]. simpl. repeat (split; [done |]).
  intros ev. reflexivity.
Qed.

(** ** The last batch *)

Lemma Forall_delete_full (i : nat) (l : list (list Entry)) :
  Forall (fun b => kBatchSize <= Z.of_nat (length b)) l →
  Forall (fun b => kBatchSize <= Z.of_nat (length b)) (delete i l).
Proof.
  intros H. revert i. induction H as [| b l Hb Hl IH]; intros i; [done |].
  destruct i; simpl; [done | by constructor].
Qed.

(** Only full batches are handed to the store, so the store stays empty
    until [nWritten] has reached [kBatchSize]. *)
Lemma step_full_batches (s s' : Sys) (ev : Event) :
  step s ev = Some s' →
  (0 <= nWritten (master s)
   ∧ Forall (fun b => kBatchSize <= Z.of_nat (length b)) (pending s)
   ∧ (store s = ∅ ∨ kBatchSize <= nWritten (master s))) →
  0 <= nWritten (master s')
  ∧ Forall (fun b => kBatchSize <= Z.of_nat (length b)) (pending s')
  ∧ (store s' = ∅ ∨ kBatchSize <= nWritten (master s')).
Proof.
  intros Hs (Hpos & Hpend & Hstore). unfold step in Hs.
  destruct (exited s); [done |].
  destruct ev as [page | i t0 t1 | i | i err | | msg | pid].
  - simplify_eq.
    destruct (onPage_outcome (length (workers s)) (master s) page)
      as [title _ | raw text _ _ _ | raw text target _ _ _ _ e | raw text _ _ _ _ _ m1].
    + fields. by rewrite app_nil_r.
    + fields. by rewrite app_nil_r.
    + destruct (write_cases (master s) e) as [[Hw Hlen] | [Hw _]]; rewrite Hw;
        simpl;
        match goal with
        | |- context [countRead ?m] =>
            destruct (countRead_cases m) as [[Hc _] | [Hc _]]; rewrite Hc
        end; fields; rewrite ?app_nil_r;
        (split; [done |]); (split; [| done]); try done;
        apply Forall_app; (split; [done |]); by constructor.
    + destruct (countRead_cases m1) as [[Hc _] | [Hc _]]; rewrite Hc; fields;
        by rewrite ?app_nil_r.
  - destruct (workers s !! i) as [w |]; simpl in Hs; [| done].
    destruct (workerRun w t0 t1); simpl in Hs; [| done]. by simplify_eq.
  - destruct (workers s !! i) as [w |]; simpl in Hs; [| done].
    destruct (outbox w) as [| e rest]; [done |]. simplify_eq.
    destruct (write_cases (master s) e) as [[Hw Hlen] | [Hw _]]; rewrite Hw;
      fields; rewrite ?app_nil_r; (split; [done |]); (split; [| done]);
      try done.
    apply Forall_app. split; [done |]. by constructor.
  - destruct (pending s !! i) as [ops |] eqn:Hp; simpl in Hs; [| done].
    simplify_eq.
    pose proof (Forall_delete_full i (pending s) Hpend) as Hdel.
    assert (Hops : kBatchSize <= Z.of_nat (length ops)).
    { pose proof (Forall_lookup_1 _ _ i ops Hpend Hp) as H. exact H. }
    destruct err as [e |]; simpl.
    + fields. by rewrite ?app_nil_r.
    + match goal with
      | |- context [if ?c then _ else _] => destruct c
      end; fields; rewrite ?app_nil_r;
      (split; [lia |]); (split; [done |]); right; lia.
  - simplify_eq. fields.
    replace (batchesOf (map (fun w => WorkerSend w Disconnect)
                          (seq 0 (length (workers s)))))
      with (@nil (list Entry)); [by rewrite app_nil_r |].
    generalize (seq 0 (length (workers s))).
    intros l. induction l; simpl; done.
  - simplify_eq. fields. by rewrite ?app_nil_r.
  - simplify_eq. fields. by rewrite ?app_nil_r.
Qed.

(** A run that accepted fewer records than one batch holds has written
    nothing: no handler flushes a batch that is not full. *)
Lemma nothing_written_below_one_batch (workerCount : nat)
    (evs : list Event) (s : Sys) :
  run (init workerCount) evs = Some s →
  nRead (master s) < kBatchSize →
  store s = ∅.
Proof.
  intros Hrun Hread.
  assert (Hacc : nWritten (master s) + Z.of_nat (inFlight s)
                 <= nRead (master s)).
  { revert evs s Hrun Hread. intros evs s Hrun _. revert evs s Hrun.
    apply (run_invariant
             (fun _ s => nWritten (master s) + Z.of_nat (inFlight s)
                         <= nRead (master s))).
    - unfold inFlight, init. simpl.
      replace (sum_list_with workerLoad (replicate workerCount newWorker))
        with 0%nat; [lia |].
      induction workerCount; simpl; [done | by rewrite <- IHworkerCount].
    - intros pre s0 ev s1 Hinv Hstep. by eapply step_accounted. }
  assert (Hfull : 0 <= nWritten (master s)
                  ∧ Forall (fun b => kBatchSize <= Z.of_nat (length b))
                      (pending s)
                  ∧ (store s = ∅ ∨ kBatchSize <= nWritten (master s))).
  { revert evs s Hrun Hread Hacc. intros evs s Hrun _ _. revert evs s Hrun.
    apply (run_invariant
             (fun _ s => 0 <= nWritten (master s)
                         ∧ Forall (fun b => kBatchSize <= Z.of_nat (length b))
                             (pending s)
                         ∧ (store s = ∅ ∨ kBatchSize <= nWritten (master s)))).
    - simpl. repeat split; (done || by left).
    - intros pre s0 ev s1 Hinv Hstep. by eapply step_full_batches. }
  destruct Hfull as (_ & _ & [Hempty | Hw]); [done | lia].
Qed.

(** C1 (the code at the failing input). The run of the single page [Test]
    with the text [Hello] on one worker, up to the end of the stream and
    the disconnection of the worker: the process has not exited, nothing
    is left to happen, the entry [Test] is still in the batch and the
    store is empty. *)
Theorem single_record_never_persisted (t0 t1 t2 t3 : Z) :
  ∃ s, run (init 1)
         [EvPage pageTest; EvWorkerRun 0 t0 t1; EvWorkerMessage 0; EvClose;
          EvWorkerRun 0 t2 t3] = Some s
       ∧ exited s = None
       ∧ quiescent s
       ∧ key <$> batch (master s) = [js "Test"]
       ∧ store s = ∅
       ∧ store s !! js "Test" = None.
Proof.
  assert (Hns : excludedNamespace (trim (js "Test")) = false).
  { change (trim (js "Test")) with (js "Test").
    rewrite excludedNamespace_unfold. unfold namespacePattern.
    change (codePoints (js "Test")) with [84; 101; 115; 116].
    cbn [matchM].
    match goal with
    | |- context [matchM ?fl (lit kategoriya) ?p ?s ?c ?k] =>
        destruct (matchM fl (lit kategoriya) p s c k)
    end; reflexivity. }
  assert (Hpage : onPage 1 {| nRead := 0; nWritten := 0; batch := [];
                              nSentToWorkers := 0 |} pageTest
                  = ({| nRead := 1; nWritten := 0; batch := [];
                        nSentToWorkers := 1 |},
                     [WorkerSend 0 (PageMsg (Some (js "1")) (js "Test")
                                      (js "Hello"))])).
  { unfold onPage. simpl page_title. simpl page_text. cbv iota beta.
    rewrite Hns. reflexivity. }
  assert (Hstep : step (init 1) (EvPage pageTest)
                  = Some (handled (init 1)
                            ({| nRead := 1; nWritten := 0; batch := [];
                                nSentToWorkers := 1 |},
                             [WorkerSend 0 (PageMsg (Some (js "1")) (js "Test")
                                              (js "Hello"))]))).
  { unfold step.
    change (exited (init 1)) with (@None Z).
    change (length (workers (init 1))) with 1%nat.
    change (master (init 1))
      with {| nRead := 0; nWritten := 0; batch := []; nSentToWorkers := 0 |}.
    cbv iota beta zeta. by rewrite Hpage. }
  cbn [run]. rewrite Hstep. unfold step, handled, workerRun. simpl.
  destruct (parse newParser (js "Hello")) as [ps parsed] eqn:Hparse.
  destruct parsed as [nodes | err]; simpl;
    (eexists; split; [reflexivity |]); simpl;
    (split; [done |]);
    (split; [intros [| i] startTime endTime err'; simpl; done |]);
    repeat split; done.
Qed.

(** ** The command line *)

Lemma indexOf_None (args : list jsstring) (arg : jsstring) :
  indexOf args arg = None ↔ arg ∉ args.
Proof.
  induction args as [| a rest IH]; simpl.
  - split; [intros _ H; by apply elem_of_nil in H | done].
  - destruct (decide (a = arg)) as [-> | Hne].
    + split; [done |]. intros H. exfalso. apply H. by left.
    + rewrite not_elem_of_cons. destruct (indexOf rest arg); simpl.
      * split; [done |]. intros [_ H]. by apply IH in H.
      * split; [| done]. intros _. split; [done |]. by apply IH.
Qed.

Lemma indexOf_first (pre post : list jsstring) (arg : jsstring) :
  arg ∉ pre → indexOf (pre ++ arg :: post) arg = Some (length pre).
Proof.
  induction pre as [| a pre IH]; intros Hpre; simpl.
  - by rewrite decide_True.
  - apply not_elem_of_cons in Hpre as [Hne Hpre].
    rewrite decide_False by done. by rewrite IH.
Qed.

Lemma delete_middle {A} (pre post : list A) (x : A) :
  delete (length pre) (pre ++ x :: post) = pre ++ post.
Proof. induction pre as [| a pre IH]; simpl; [done | by rewrite IH]. Qed.

Lemma argsExtractSwitch_absent (args : list jsstring) (arg : jsstring) :
  arg ∉ args ↔ argsExtractSwitch args arg = (false, args).
Proof.
  unfold argsExtractSwitch. rewrite <- indexOf_None.
  destruct (indexOf args arg); split; (done || intros; simplify_eq).
Qed.

Lemma argsExtractSwitch_present (pre post : list jsstring) (arg : jsstring) :
  arg ∉ pre →
  argsExtractSwitch (pre ++ arg :: post) arg = (true, pre ++ post).
Proof.
  intros Hpre. unfold argsExtractSwitch.
  by rewrite indexOf_first, delete_middle.
Qed.

(** X1. [argsExtractSwitch] answers [false] and leaves the arguments as they
    are exactly when the switch is not among them; otherwise it answers
    [true] and removes the first occurrence only. *)
Theorem argsExtractSwitch_first_occurrence (args pre post : list jsstring)
    (arg : jsstring) :
  (arg ∉ args ↔ argsExtractSwitch args arg = (false, args))
  ∧ (arg ∉ pre →
     argsExtractSwitch (pre ++ arg :: post) arg = (true, pre ++ post)).
Proof.
  split; [apply argsExtractSwitch_absent | apply argsExtractSwitch_present].
Qed.

(** X2. The command line is refused ([usage()], exit code 1) exactly when,
    without the switch, there are fewer than two or more than three
    arguments, or the third one is not a number. *)
Theorem commandLine_usage (toNumber : jsstring → JSNumber) (cpuCount : Z)
    (argv : list jsstring) :
  let args := (argsExtractSwitch argv (js "--with-source")).2 in
  commandLine toNumber cpuCount argv = None
  ↔ (length args < 2)%nat ∨ (3 < length args)%nat
    ∨ ∃ arg, args !! 2%nat = Some arg ∧ toNumber arg = JSNaN.
Proof.
  unfold commandLine.
  destruct (argsExtractSwitch argv (js "--with-source")) as [sw args]. simpl.
  destruct (Nat.ltb_spec (length args) 2); simpl; [by intuition |].
  destruct (Nat.ltb_spec 3 (length args)); simpl; [by intuition |].
  destruct args as [| dump [| db [| arg rest]]]; simpl in *; try lia.
  - split; [done |]. intros [? | [? | (arg & Harg & _)]]; (lia || done).
  - destruct (toNumber arg) eqn:Hn.
    + split; [| done]. intros _. right. right. by exists arg.
    + split; [done |]. intros [? | [? | (a & Ha & Hna)]]; try lia.
      simplify_eq. congruence.
    + split; [done |]. intros [? | [? | (a & Ha & Hna)]]; try lia.
      simplify_eq. congruence.
Qed.

(** X3. The switch [--with-source] may stand anywhere: a command line with
    it is read like the command line without it, with the switch on. *)
Theorem commandLine_switch_anywhere (toNumber : jsstring → JSNumber)
    (cpuCount : Z) (pre post : list jsstring) :
  js "--with-source" ∉ pre ++ post →
  commandLine toNumber cpuCount (pre ++ js "--with-source" :: post)
  = withSwitch <$> commandLine toNumber cpuCount (pre ++ post)
  ∧ (∀ c, commandLine toNumber cpuCount (pre ++ post) = Some c →
          switchWithSource c = false).
Proof.
  intros Hnot.
  assert (Hpre : js "--with-source" ∉ pre)
    by (intros H; apply Hnot, elem_of_app; by left).
  unfold commandLine.
  rewrite (argsExtractSwitch_present pre post _ Hpre).
  rewrite (proj1 (argsExtractSwitch_absent (pre ++ post) _) Hnot).
  destruct ((length (pre ++ post) <? 2)%nat || (3 <? length (pre ++ post))%nat);
    [done |].
  destruct (pre ++ post) as [| dump [| db rest]]; [done | done |].
  destruct (match rest with
            | [] => JSFinite (inject_Z cpuCount)
            | arg :: _ => toNumber arg
            end); simpl; split; (done || intros; by simplify_eq).
Qed.

(** ** The pool of workers *)

Lemma lessThan_finite (i : Z) (q : Q) :
  lessThan i (JSFinite q) = true ↔ i < Qceiling q.
Proof.
  simpl. rewrite negb_true_iff, <- not_true_iff_false, Qle_bool_iff.
  split.
  - intros Hnot. destruct (Z.lt_ge_cases i (Qceiling q)) as [| Hge]; [done |].
    exfalso. apply Hnot. eapply Qle_trans; [apply Qle_ceiling |].
    by rewrite <- Zle_Qle.
  - intros Hlt Hle. apply Qceiling_resp_le in Hle. rewrite Qceiling_Z in Hle.
    lia.
Qed.

Lemma forkWorkers_finite (q : Q) (fuel : nat) : ∀ (i : Z) (pool : list Worker),
  (Z.to_nat (Qceiling q - i) < fuel)%nat →
  forkWorkers fuel i (JSFinite q) pool
  = Some (pool ++ replicate (Z.to_nat (Qceiling q - i)) newWorker).
Proof.
  induction fuel as [| fuel IH]; intros i pool Hfuel; [lia |].
  cbn [forkWorkers].
  destruct (lessThan i (JSFinite q)) eqn:Hlt.
  - apply lessThan_finite in Hlt.
    rewrite IH by lia.
    replace (Z.to_nat (Qceiling q - i))
      with (S (Z.to_nat (Qceiling q - (i + 1)))) by lia.
    simpl. by rewrite <- app_assoc.
  - apply not_true_iff_false in Hlt. rewrite lessThan_finite in Hlt.
    replace (Z.to_nat (Qceiling q - i)) with 0%nat by lia.
    simpl. by rewrite app_nil_r.
Qed.

(** X4. For a finite count, below the [2 ^ 53] up to which the counter
    of the loop is exact, the loop ends and leaves the pool of the
    initial system: as many new workers as the count rounded up, none for
    a count of zero or less. *)
Theorem forkWorkers_pool (q : Q) (fuel : nat) :
  Qceiling q <= 2 ^ 53 →
  (Z.to_nat (Qceiling q) < fuel)%nat →
  forkWorkers fuel 0 (JSFinite q) []
  = Some (workers (init (Z.to_nat (Qceiling q))))
  ∧ (Qle q (inject_Z 0) → forkWorkers fuel 0 (JSFinite q) [] = Some []).
Proof.
  intros _ Hfuel.
  assert (H : forkWorkers fuel 0 (JSFinite q) []
              = Some (replicate (Z.to_nat (Qceiling q)) newWorker)).
  { rewrite forkWorkers_finite by (rewrite Z.sub_0_r; lia).
    by rewrite Z.sub_0_r. }
  split; [done |].
  intros Hq. rewrite H. apply Qceiling_resp_le in Hq. rewrite Qceiling_Z in Hq.
  by replace (Z.to_nat (Qceiling q)) with 0%nat by lia.
Qed.

(** X5. For the count [Infinity] the loop never ends: no number of rounds
    yields a pool. *)
Theorem forkWorkers_infinity (fuel : nat) (i : Z) (pool : list Worker) :
  forkWorkers fuel i (JSInfinity false) pool = None.
Proof. revert i pool. induction fuel as [| fuel IH]; intros i pool; simpl; done. Qed.

(** ** [CounterTransform] *)

(** X6. The transform passes every chunk on, unchanged and in order, and
    its counter grows by the number of bytes passed. *)
Theorem transformAll_counts (t : CounterTransform)
    (chunks : list (list Byte.byte)) :
  pushed (transformAll t chunks) = pushed t ++ chunks
  ∧ byteCount (transformAll t chunks)
    = byteCount t + Z.of_nat (length (concat chunks))
  ∧ byteCount t <= byteCount (transformAll t chunks).
Proof.
  unfold transformAll. revert t.
  induction chunks as [| c chunks IH]; intros t; simpl.
  - rewrite app_nil_r. repeat split; lia.
  - destruct (IH (_transform t c)) as (Hp & Hb & Hle).
    rewrite Hp, Hb. simpl. rewrite <- app_assoc, length_app.
    repeat split; simpl; lia.
Qed.

(** ** The matcher *)

Lemma matched_or (x y : option Capture) :
  matched (match x with Some r => Some r | None => y end)
  = matched x || matched y.
Proof. by destruct x, y. Qed.

Lemma canonUpper_ascii (ch : Z) : ch < 128 → canonUpper ch = asciiUpper ch.
Proof.
  intros Hch. unfold canonUpper, upperCodePoint.
  replace (isSurrogate ch) with false by (unfold isSurrogate, inRange; lia).
  destruct (Z.ltb_spec ch 128); [| lia].
  rewrite utf16_bmp by (pose proof (asciiUpper_ascii ch); lia).
  destruct (Z.leb_spec 128 ch); [lia | done].
Qed.

Lemma canonUpper_high (ch : Z) : 128 <= ch → 128 <= canonUpper ch.
Proof.
  intros Hch. unfold canonUpper.
  destruct (utf16 (upperCodePoint ch)) as [| cu [| ? ?]]; try done.
  destruct (Z.leb_spec 128 ch); [| lia].
  destruct (Z.ltb_spec cu 128); simpl; lia.
Qed.

(** Without [u], an ASCII pattern character matches itself and its other
    case, nothing else. *)
Lemma csMatch_ascii_char (c ch : Z) :
  c < 128 →
  csMatch redirectFlags (CsChar c) ch = (asciiLower ch =? asciiLower c).
Proof.
  intros Hc. simpl. unfold canonicalize. simpl.
  rewrite (canonUpper_ascii c Hc).
  destruct (Z.lt_ge_cases ch 128) as [Hch | Hch].
  - rewrite (canonUpper_ascii ch Hch). unfold asciiUpper, asciiLower, inRange.
    zcases.
  - pose proof (canonUpper_high ch Hch). pose proof (asciiUpper_ascii c Hc).
    assert (asciiLower ch = ch) as -> by (unfold asciiLower, inRange; zcases).
    assert (asciiLower c < 128) by (unfold asciiLower, inRange; zcases).
    destruct (Z.eqb_spec (canonUpper ch) (asciiUpper c)); [lia |].
    destruct (Z.eqb_spec ch (asciiLower c)); [lia | done].
Qed.

Lemma setM_matched fl cs pos s cap k :
  matched (setM fl cs pos s cap k)
  = match s with
    | ch :: s' => csMatch fl cs ch && matched (k (S pos) s' cap)
    | [] => false
    end.
Proof. destruct s as [| ch s']; simpl; [done |]. by destruct (csMatch fl cs ch). Qed.

Lemma lit_cons fl (c : Z) (l : list Z) pos s cap k :
  matchM fl (lit (c :: l)) pos s cap k
  = setM fl (CsChar c) pos s cap (fun p s' c' => matchM fl (lit l) p s' c' k).
Proof. reflexivity. Qed.

Lemma lit_result fl (l : list Z) : ∀ pos s cap k r,
  matchM fl (lit l) pos s cap k = Some r
  ↔ ∃ pre rest, s = pre ++ rest
                ∧ Forall2 (fun ch c => csMatch fl (CsChar c) ch = true) pre l
                ∧ k (pos + length l)%nat rest cap = Some r.
Proof.
  induction l as [| c l IH]; intros pos s cap k r.
  - simpl. rewrite Nat.add_0_r. split.
    + intros H. exists [], s. by repeat split; [constructor |].
    + intros (pre & rest & -> & Hpre & H). by inversion Hpre; subst.
  - rewrite lit_cons. destruct s as [| ch s']; cbn [setM length].
    + split; [done |]. intros (pre & rest & Hs & Hpre & _).
      inversion Hpre; subst. done.
    + destruct (csMatch fl (CsChar c) ch) eqn:Hch.
      * rewrite IH. replace (S pos + length l)%nat with (pos + S (length l))%nat
          by lia.
        split.
        -- intros (pre & rest & -> & Hpre & H). exists (ch :: pre), rest.
           repeat split; [by constructor | done].
        -- intros (pre & rest & Hs & Hpre & H).
           inversion Hpre as [| ch' c' pre' l' Hc Hpre']; subst.
           simpl in Hs. simplify_eq. by exists pre', rest.
      * split; [done |]. intros (pre & rest & Hs & Hpre & _).
        inversion Hpre as [| ch' c' pre' l' Hc Hpre']; subst.
        simpl in Hs. simplify_eq. congruence.
Qed.

Lemma lit_matched fl (l : list Z) pos s cap k :
  matched (matchM fl (lit l) pos s cap k) = true
  ↔ ∃ pre rest, s = pre ++ rest
                ∧ Forall2 (fun ch c => csMatch fl (CsChar c) ch = true) pre l
                ∧ matched (k (pos + length l)%nat rest cap) = true.
Proof.
  split.
  - destruct (matchM fl (lit l) pos s cap k) as [r |] eqn:H; [| done].
    intros _. apply lit_result in H as (pre & rest & Hs & Hpre & Hk).
    exists pre, rest. by rewrite Hk.
  - intros (pre & rest & Hs & Hpre & Hk).
    destruct (k (pos + length l)%nat rest cap) as [r |] eqn:Hr; [| done].
    assert (H : matchM fl (lit l) pos s cap k = Some r)
      by (apply lit_result; by exists pre, rest).
    by rewrite H.
Qed.

Lemma starM_matched fl cs (s : list Z) : ∀ pos cap k,
  matched (starM fl cs pos s cap k) = true
  ↔ ∃ pre rest, s = pre ++ rest
                ∧ Forall (fun ch => csMatch fl cs ch = true) pre
                ∧ matched (k (pos + length pre)%nat rest cap) = true.
Proof.
  induction s as [| ch s IH]; intros pos cap k; simpl.
  - split.
    + intros H. exists [], []. rewrite Nat.add_0_r. by repeat split.
    + intros (pre & rest & Hs & _ & H).
      symmetry in Hs. apply app_eq_nil in Hs as [-> ->].
      by rewrite Nat.add_0_r in H.
  - destruct (csMatch fl cs ch) eqn:Hch.
    + rewrite matched_or, orb_true_iff, IH. split.
      * intros [(pre & rest & -> & Hpre & H) | H].
        -- exists (ch :: pre), rest. simpl.
           rewrite Nat.add_succ_r. by repeat split; [constructor |].
        -- exists [], (ch :: s). rewrite Nat.add_0_r. by repeat split.
      * intros (pre & rest & Hs & Hpre & H).
        destruct pre as [| ch' pre]; simpl in *.
        -- right. subst rest. by rewrite Nat.add_0_r in H.
        -- left. simplify_eq. apply Forall_cons in Hpre as [_ Hpre].
           exists pre, rest. rewrite Nat.add_succ_r in H. by repeat split.
    + split.
      * intros H. exists [], (ch :: s). rewrite Nat.add_0_r. by repeat split.
      * intros (pre & rest & Hs & Hpre & H).
        destruct pre as [| ch' pre]; simpl in *.
        -- subst rest. by rewrite Nat.add_0_r in H.
        -- simplify_eq. apply Forall_cons in Hpre as [Hc _]. congruence.
Qed.

Lemma searchM_matched fl r (s : list Z) : ∀ pos,
  matched (searchM fl r pos s) = true
  ↔ ∃ pre suf, s = pre ++ suf
               ∧ matched (matchM fl r (pos + length pre)%nat suf None
                            (fun _ _ c => Some c)) = true.
Proof.
  induction s as [| ch s IH]; intros pos; simpl.
  - rewrite matched_or, orb_false_r. split.
    + intros H. exists [], []. rewrite Nat.add_0_r. by split.
    + intros (pre & suf & Hs & H).
      symmetry in Hs. apply app_eq_nil in Hs as [-> ->].
      by rewrite Nat.add_0_r in H.
  - rewrite matched_or, orb_true_iff, IH. split.
    + intros [H | (pre & suf & -> & H)].
      * exists [], (ch :: s). rewrite Nat.add_0_r. by split.
      * exists (ch :: pre), suf. simpl. rewrite Nat.add_succ_r. by split.
    + intros (pre & suf & Hs & H). destruct pre as [| ch' pre]; simpl in *.
      * left. subst suf. by rewrite Nat.add_0_r in H.
      * right. simplify_eq. exists pre, suf. rewrite Nat.add_succ_r in H.
        by split.
Qed.

Lemma dot_or_space fl (ch : Z) :
  csMatch fl CsDot ch || csMatch fl CsSpace ch = true.
Proof. simpl. unfold isLineTerminator, isWhiteSpace, inRange. zcases. Qed.

Lemma endOfInput_matched fl pos s cap k :
  matched (matchM fl endOfInput pos s cap k)
  = match s with [] => matched (k pos [] cap) | _ :: _ => false end.
Proof.
  unfold endOfInput. cbn [matchM].
  destruct s as [| ch s]; simpl; [done |].
  pose proof (dot_or_space fl ch) as H. simpl in H.
  destruct (negb (isLineTerminator ch)); simpl in *; [done |].
  by rewrite H.
Qed.

Lemma Forall2_asciiLower (ext l : list Z) :
  Forall (fun c => asciiLower c = c ∧ c < 128) l →
  Forall2 (fun ch c => csMatch redirectFlags (CsChar c) ch = true) ext l
  ↔ asciiLower <$> ext = l.
Proof.
  revert l. induction ext as [| ch ext IH]; intros l Hl.
  - split; [by inversion 1 | intros <-; constructor].
  - rewrite fmap_cons. destruct l as [| c l].
    + split; [by inversion 1 | done].
    + apply Forall_cons in Hl as [[Hlow Hasc] Hl]. split.
      * inversion 1 as [| ? ? ? ? Hc Hrest]; subst.
        rewrite csMatch_ascii_char in Hc by done. apply Z.eqb_eq in Hc.
        f_equal; [congruence | by apply IH].
      * intros Heq. simplify_eq. constructor.
        -- rewrite csMatch_ascii_char by done. by apply Z.eqb_eq.
        -- by apply IH.
Qed.

(** X7. The input is decompressed exactly when the name of the dump ends
    with [.bz2], in any mix of upper and lower case. *)
Theorem decompressed_iff_bz2_suffix (kDumpFilename : jsstring) :
  decompressed kDumpFilename = true
  ↔ ∃ stem ext, kDumpFilename = stem ++ ext ∧ asciiLower <$> ext = js ".bz2".
Proof.
  unfold decompressed, regexTest, regexExec, regexInput. simpl unicode.
  rewrite searchM_matched.
  assert (Hlow : Forall (fun c => asciiLower c = c ∧ c < 128) (js ".bz2"))
    by (repeat constructor).
  split.
  - intros (stem & suf & -> & H). exists stem, suf. split; [done |].
    unfold bz2Pattern in H. cbn [matchM] in H.
    apply lit_matched in H as (ext & rest & -> & Hext & H).
    rewrite endOfInput_matched in H. destruct rest; [| done].
    rewrite app_nil_r. by apply (Forall2_asciiLower ext (js ".bz2") Hlow).
  - intros (stem & ext & -> & Hext). exists stem, ext. split; [done |].
    unfold bz2Pattern. cbn [matchM]. apply lit_matched.
    exists ext, []. rewrite app_nil_r. split; [done |]. split.
    + by apply (Forall2_asciiLower ext (js ".bz2") Hlow).
    + by rewrite endOfInput_matched.
Qed.

(** ** The namespace pattern *)

Lemma csMatch_fold_char (c ch : Z) :
  csMatch namespaceFlags (CsChar c) ch = true ↔ simpleFold ch = simpleFold c.
Proof. simpl. unfold canonicalize. simpl. apply Z.eqb_eq. Qed.

Lemma lit_colon_matched (l : list Z) pos s cap
    (group : nat → list Z → Capture) :
  matched (matchM namespaceFlags (lit l) pos s cap
             (fun p s' _ => setM namespaceFlags (CsChar 58) p s' (group p s')
                              (fun _ _ c => Some c))) = true
  ↔ ∃ pre rest, s = pre ++ rest ∧ foldsLike (l ++ js ":") pre.
Proof.
  rewrite lit_matched. split.
  - intros (pre & rest & -> & Hpre & H).
    rewrite setM_matched in H. destruct rest as [| ch rest]; [done |].
    apply andb_true_iff in H as [H _]. apply csMatch_fold_char in H.
    exists (pre ++ [ch]), rest. rewrite <- app_assoc. split; [done |].
    apply Forall2_app.
    + eapply Forall2_impl; [exact Hpre |]. intros a b Hab.
      exact (proj1 (csMatch_fold_char b a) Hab).
    + constructor; [exact H | constructor].
  - intros (pre & rest & -> & Hpre).
    apply Forall2_app_inv_r in Hpre as (pre1 & pre2 & H1 & H2 & ->).
    inversion H2 as [| ch c ? ? Hc Hnil]; subst. inversion Hnil; subst.
    exists pre1, (ch :: rest). rewrite <- app_assoc. split; [done |]. split.
    + eapply Forall2_impl; [exact H1 |]. intros a b Hab.
      exact (proj2 (csMatch_fold_char b a) Hab).
    + rewrite setM_matched. apply andb_true_iff. split; [| done].
      exact (proj2 (csMatch_fold_char 58 ch) Hc).
Qed.

Lemma lookahead_matched pos s cap :
  matched (matchM namespaceFlags
             (RSeq (RGroup (RAlt (lit (js "Category")) (lit kategoriya)))
                (RSet (CsChar 58))) pos s cap (fun _ _ c => Some c)) = true
  ↔ allowedPrefix s.
Proof.
  cbn [matchM]. rewrite matched_or, orb_true_iff.
  unfold allowedPrefix. split.
  - intros [H | H].
    + apply (lit_colon_matched (js "Category")) in H as (pre & rest & -> & H).
      exists pre, rest. split; [done | by left].
    + apply (lit_colon_matched kategoriya) in H as (pre & rest & -> & H).
      exists pre, rest. split; [done | by right].
  - intros (pre & rest & -> & [H | H]).
    + left. apply (lit_colon_matched (js "Category")). by exists pre, rest.
    + right. apply (lit_colon_matched kategoriya). by exists pre, rest.
Qed.

Lemma namespace_matched pos s cap :
  matched (matchM namespaceFlags
             (RSeq (RPlus CsLetter) (RSeq (RSet (CsChar 58)) (RSet CsWord)))
             pos s cap (fun _ _ c => Some c)) = true
  ↔ hasNamespace s.
Proof.
  cbn [matchM]. rewrite setM_matched. unfold hasNamespace. split.
  - destruct s as [| ch s]; [done |].
    intros [Hch H]%andb_true_iff.
    apply starM_matched in H as (pre & rest & -> & Hpre & H).
    rewrite setM_matched in H. destruct rest as [| colon rest]; [done |].
    apply andb_true_iff in H as [Hcolon H].
    rewrite setM_matched in H. destruct rest as [| w rest]; [done |].
    apply andb_true_iff in H as [Hw _].
    exists (ch :: pre), colon, w, rest.
    repeat split; [done | by constructor | | done].
    exact (proj1 (csMatch_fold_char 58 colon) Hcolon).
  - intros (letters & colon & w & rest & -> & Hne & Hl & Hcolon & Hw).
    destruct letters as [| ch letters]; [done |].
    apply Forall_cons in Hl as [Hch Hl]. simpl.
    apply andb_true_iff. split; [done |].
    apply starM_matched. exists letters, (colon :: w :: rest).
    split; [done |]. split; [done |].
    rewrite !setM_matched. apply andb_true_iff. split.
    + exact (proj2 (csMatch_fold_char 58 colon) Hcolon).
    + simpl. by rewrite Hw.
Qed.

(** X8. A title is dropped exactly when, read as code points, it starts
    with one or more letters, a colon and a word character, and does not
    start with one of the two allowed prefixes, compared up to simple
    case folding. *)
Theorem excludedNamespace_iff_shape (title : jsstring) :
  excludedNamespace title = true
  ↔ hasNamespace (codePoints title) ∧ ¬ allowedPrefix (codePoints title).
Proof.
  rewrite excludedNamespace_unfold. unfold namespacePattern.
  cbn [matchM].
  rewrite <- lookahead_matched with (pos := 0%nat) (cap := None).
  rewrite <- namespace_matched with (pos := 0%nat) (cap := None).
  cbn [matchM].
  match goal with
  | |- matched (match ?x with Some _ => None | None => ?y end) = true ↔ _ =>
      destruct x; simpl; intuition congruence
  end.
Qed.

(** ** The redirect pattern *)

Lemma starM_result fl cs (s : list Z) : ∀ pos cap k r,
  starM fl cs pos s cap k = Some r
  ↔ ∃ pre rest,
      s = pre ++ rest
      ∧ Forall (fun ch => csMatch fl cs ch = true) pre
      ∧ k (pos + length pre)%nat rest cap = Some r
      ∧ ∀ pre' rest', s = pre' ++ rest' →
          Forall (fun ch => csMatch fl cs ch = true) pre' →
          (length pre < length pre')%nat →
          k (pos + length pre')%nat rest' cap = None.
Proof.
  induction s as [| ch s IH]; intros pos cap k r.
  - simpl. split.
    + intros H. exists [], []. rewrite Nat.add_0_r.
      repeat split; [constructor | done |].
      intros pre' rest' Hs _ Hlen. symmetry in Hs.
      apply app_eq_nil in Hs as [-> _]. simpl in Hlen. lia.
    + intros (pre & rest & Hs & _ & H & _).
      symmetry in Hs. apply app_eq_nil in Hs as [-> ->].
      by rewrite Nat.add_0_r in H.
  - cbn [starM]. destruct (csMatch fl cs ch) eqn:Hch.
    + destruct (starM fl cs (S pos) s cap k) as [r' |] eqn:Hstar.
      * split.
        -- intros Hr. simplify_eq.
           apply IH in Hstar as (pre & rest & -> & Hpre & Hk & Hmax).
           exists (ch :: pre), rest. simpl. rewrite Nat.add_succ_r.
           repeat split; [by constructor | done |].
           intros pre' rest' Hs Hpre' Hlen.
           destruct pre' as [| ch' pre']; simpl in *; [lia |].
           simplify_eq. apply Forall_cons in Hpre' as [_ Hpre'].
           rewrite Nat.add_succ_r. apply Hmax; [done | done | lia].
        -- intros (pre & rest & Hs & Hpre & Hk & Hmax).
           destruct pre as [| ch' pre]; simpl in *.
           ++ exfalso.
              apply IH in Hstar as (pre0 & rest0 & -> & Hpre0 & Hk0 & _).
              specialize (Hmax (ch :: pre0) rest0 eq_refl).
              simpl in Hmax, Hk0. rewrite Nat.add_succ_r in Hmax.
              rewrite Hmax in Hk0; [done | by constructor | lia].
           ++ injection Hs as <- ->. apply Forall_cons in Hpre as [_ Hpre].
              rewrite Nat.add_succ_r in Hk.
              assert (H : starM fl cs (S pos) (pre ++ rest) cap k = Some r).
              { apply IH. exists pre, rest. repeat split; [done | done |].
                intros pre' rest' Hs Hpre' Hlen.
                specialize (Hmax (ch :: pre') rest').
                simpl in Hmax. rewrite Nat.add_succ_r in Hmax.
                apply Hmax; [by rewrite Hs | by constructor | lia]. }
              congruence.
      * assert (Hnone : ∀ pre' rest', s = pre' ++ rest' →
                  Forall (fun ch => csMatch fl cs ch = true) pre' →
                  k (S pos + length pre')%nat rest' cap = None).
        { intros pre' rest' Hs Hpre'.
          destruct (k (S pos + length pre')%nat rest' cap) as [r' |] eqn:Hk;
            [| done].
          assert (Hm : matched (starM fl cs (S pos) s cap k) = true).
          { apply starM_matched. exists pre', rest'. by rewrite Hk. }
          by rewrite Hstar in Hm. }
        split.
        -- intros Hk. exists [], (ch :: s). rewrite Nat.add_0_r.
           repeat split; [constructor | done |].
           intros pre' rest' Hs Hpre' Hlen.
           destruct pre' as [| ch' pre']; simpl in *; [lia |].
           simplify_eq. apply Forall_cons in Hpre' as [_ Hpre'].
           rewrite Nat.add_succ_r. by apply Hnone.
        -- intros (pre & rest & Hs & Hpre & Hk & _).
           destruct pre as [| ch' pre]; simpl in *.
           ++ subst rest. by rewrite Nat.add_0_r in Hk.
           ++ injection Hs as <- ->. apply Forall_cons in Hpre as [_ Hpre].
              rewrite Nat.add_succ_r in Hk.
              pose proof (Hnone pre rest eq_refl Hpre) as Hn. simpl in Hn.
              congruence.
    + split.
      * intros Hk. exists [], (ch :: s). rewrite Nat.add_0_r.
        repeat split; [constructor | done |].
        intros pre' rest' Hs Hpre' Hlen.
        destruct pre' as [| ch' pre']; simpl in *; [lia |].
        simplify_eq. apply Forall_cons in Hpre' as [Hc _]. congruence.
      * intros (pre & rest & Hs & Hpre & Hk & _).
        destruct pre as [| ch' pre]; simpl in *.
        -- subst rest. by rewrite Nat.add_0_r in Hk.
        -- simplify_eq. apply Forall_cons in Hpre as [Hc _]. congruence.
Qed.

(** A pattern character that is no letter matches itself only. *)
Lemma Forall2_exact (ext l : list Z) :
  Forall (fun c => c < 128 ∧ isAsciiAlpha c = false) l →
  Forall2 (fun ch c => csMatch redirectFlags (CsChar c) ch = true) ext l
  ↔ ext = l.
Proof.
  revert l. induction ext as [| ch ext IH]; intros l Hl.
  - split; [by inversion 1 | intros <-; constructor].
  - destruct l as [| c l].
    + split; [by inversion 1 | done].
    + apply Forall_cons in Hl as [[Hasc Hnl] Hl].
      assert (Hc : csMatch redirectFlags (CsChar c) ch = true ↔ ch = c).
      { rewrite csMatch_ascii_char by done. rewrite Z.eqb_eq.
        revert Hnl. unfold isAsciiAlpha, asciiLower, inRange. zcases. }
      split.
      * inversion 1 as [| ? ? ? ? Hch Hrest]; subst.
        f_equal; [by apply Hc | by apply IH].
      * intros Heq. simplify_eq. constructor; [by apply Hc | by apply IH].
Qed.

Lemma matchM_seq fl a b pos s cap k :
  matchM fl (RSeq a b) pos s cap k
  = matchM fl a pos s cap (fun p s' c => matchM fl b p s' c k).
Proof. reflexivity. Qed.

Lemma brackets_exact :
  Forall (fun c => c < 128 ∧ isAsciiAlpha c = false) (js "]]")
  ∧ Forall (fun c => c < 128 ∧ isAsciiAlpha c = false) (js "[[").
Proof. split; repeat constructor. Qed.

(** The group takes the longest run of characters of one line that is
    followed by the closing brackets. *)
Lemma redirectTail_result (p0 : nat) (s0 : list Z) (cap r : Capture) :
  matchM redirectFlags redirectTail p0 s0 cap (fun _ _ c => Some c) = Some r
  ↔ ∃ t rest,
      s0 = t ++ js "]]" ++ rest
      ∧ t ≠ []
      ∧ Forall (fun ch => isLineTerminator ch = false) t
      ∧ r = Some t
      ∧ ∀ longer rest',
          s0 = longer ++ js "]]" ++ rest' →
          Forall (fun ch => isLineTerminator ch = false) longer →
          (length longer ≤ length t)%nat.
Proof.
  destruct brackets_exact as [Hclose _].
  unfold redirectTail. rewrite matchM_seq. cbn [matchM].
  assert (Hdot : ∀ l, Forall (fun ch => csMatch redirectFlags CsDot ch = true) l
                      ↔ Forall (fun ch => isLineTerminator ch = false) l).
  { intros l. apply Forall_iff. intros ch. simpl. apply negb_true_iff. }
  assert (Hclosing : ∀ p (s : list Z) c x,
            matchM redirectFlags (lit (js "]]")) p s c (fun _ _ c => Some c)
            = Some x ↔ ∃ rest, s = js "]]" ++ rest ∧ x = c).
  { intros p s c x. rewrite lit_result. split.
    - intros (pre & rest & -> & Hpre & Hx).
      apply (Forall2_exact pre (js "]]") Hclose) in Hpre as ->.
      exists rest. split; [done | congruence].
    - intros (rest & -> & ->). exists (js "]]"), rest.
      split; [done |]. split; [| done].
      by apply (Forall2_exact (js "]]") (js "]]") Hclose). }
  destruct s0 as [| c0 s1]; cbn [setM].
  { split; [done |]. intros (t & rest & Hs & Ht & _).
    destruct t; [done | discriminate]. }
  destruct (csMatch redirectFlags CsDot c0) eqn:Hc0.
  - rewrite starM_result. split.
    + intros (pre & rest1 & -> & Hpre & Hk & Hmax).
      apply Hclosing in Hk as (rest & -> & ->).
      exists (c0 :: pre), rest. split; [done |]. split; [done |].
      split; [apply Hdot; by constructor |]. split.
      * f_equal. replace (S p0 + length pre - p0)%nat with (S (length pre))
          by lia.
        simpl. f_equal. apply take_app_length.
      * intros longer rest' Hs Hlonger.
        destruct (Nat.le_gt_cases (length longer) (length (c0 :: pre)))
          as [| Hgt]; [done |].
        exfalso. destruct longer as [| c0' longer]; [simpl in Hgt; lia |].
        simpl in Hs, Hgt. injection Hs as <- Hs.
        apply Hdot in Hlonger. apply Forall_cons in Hlonger as [_ Hlonger].
        specialize (Hmax longer (js "]]" ++ rest') Hs Hlonger).
        assert (Hn : matchM redirectFlags (lit (js "]]"))
                       (S p0 + length longer) (js "]]" ++ rest')
                       (Some (take (S p0 + length longer - p0)
                                (c0 :: pre ++ js "]]" ++ rest)))
                       (fun _ _ c => Some c) = None)
          by (apply Hmax; lia).
        pose proof (proj2 (Hclosing (S p0 + length longer)%nat
                             (js "]]" ++ rest')
                             (Some (take (S p0 + length longer - p0)
                                      (c0 :: pre ++ js "]]" ++ rest))) _)
                      (ex_intro _ rest' (conj eq_refl eq_refl))) as Hsome.
        congruence.
    + intros (t & rest & Hs & Ht & Hline & -> & Hmax).
      destruct t as [| c0' pre]; [done |].
      simpl in Hs. injection Hs as <- ->.
      apply Hdot in Hline. apply Forall_cons in Hline as [_ Hpre].
      exists pre, (js "]]" ++ rest). split; [done |]. split; [done |]. split.
      * apply Hclosing. exists rest. split; [done |].
        replace (S p0 + length pre - p0)%nat with (S (length pre)) by lia.
        simpl. do 2 f_equal. symmetry. apply take_app_length.
      * intros pre' rest' Hs Hpre' Hlen.
        match goal with
        | |- ?m = None => destruct m as [x |] eqn:Hx; [| done]
        end.
        exfalso. apply Hclosing in Hx as (rest'' & -> & _).
        specialize (Hmax (c0 :: pre') rest''). simpl in Hmax.
        rewrite Hs in Hmax.
        assert ((S (length pre') ≤ S (length pre))%nat); [| lia].
        apply Hmax; [done |]. apply Hdot. constructor; [done | done].
  - split; [done |]. intros (t & rest & Hs & Ht & Hline & _).
    destruct t as [| c0' pre]; [done |].
    simpl in Hs. injection Hs as <- _.
    apply Hdot in Hline. apply Forall_cons in Hline as [Hc _]. congruence.
Qed.

Lemma matchM_star fl cs pos s cap k :
  matchM fl (RStar cs) pos s cap k = starM fl cs pos s cap k.
Proof. reflexivity. Qed.

Lemma matchM_opt fl cs pos s cap k :
  matchM fl (ROpt cs) pos s cap k
  = match setM fl cs pos s cap k with
    | Some r => Some r
    | None => k pos s cap
    end.
Proof. reflexivity. Qed.

Lemma asciiLower_colon (ch : Z) : asciiLower ch = 58 → ch = 58.
Proof. unfold asciiLower, inRange. zcases. Qed.

Lemma redirectBody_result (p : nat) (s : list Z) (cap r : Capture) :
  matchM redirectFlags redirectBody p s cap (fun _ _ c => Some c) = Some r
  ↔ ∃ spaces s1,
      s = spaces ++ js "[[" ++ s1
      ∧ Forall (fun ch => isWhiteSpace ch = true) spaces
      ∧ matchM redirectFlags redirectTail (p + length spaces + 2) s1 cap
          (fun _ _ c => Some c) = Some r.
Proof.
  destruct brackets_exact as [_ Hopen].
  assert (Hbr : ∀ p (s : list Z) c x,
            matchM redirectFlags (RSeq (lit (js "[[")) redirectTail) p s c
              (fun _ _ c => Some c) = Some x
            ↔ ∃ s1, s = js "[[" ++ s1
                    ∧ matchM redirectFlags redirectTail (p + 2) s1 c
                        (fun _ _ c => Some c) = Some x).
  { intros q s' c x. rewrite matchM_seq, lit_result. split.
    - intros (pre & rest & -> & Hpre & Hk).
      apply (Forall2_exact pre (js "[[") Hopen) in Hpre as ->.
      by exists rest.
    - intros (s1 & -> & Hk). exists (js "[["), s1.
      split; [done |]. split; [| done].
      by apply (Forall2_exact (js "[[") (js "[[") Hopen). }
  unfold redirectBody. rewrite matchM_seq, matchM_star, starM_result. split.
  - intros (pre & rest & -> & Hpre & Hk & _).
    apply Hbr in Hk as (s1 & -> & Hk). by exists pre, s1.
  - intros (spaces & s1 & -> & Hspaces & Hk).
    exists spaces, (js "[[" ++ s1). split; [done |]. split; [done |].
    split; [apply Hbr; by exists s1 |].
    intros pre' rest' Hs Hpre' Hlen. exfalso.
    assert (Hat : (pre' ++ rest') !! length spaces = Some 91).
    { rewrite <- Hs. rewrite lookup_app_r by lia.
      by rewrite Nat.sub_diag. }
    rewrite lookup_app_l in Hat by lia.
    rewrite Forall_lookup in Hpre'. by apply Hpre' in Hat.
Qed.

Lemma redirectColon_result (p : nat) (s : list Z) (cap r : Capture) :
  matchM redirectFlags (RSeq (ROpt (CsChar 58)) redirectBody) p s cap
    (fun _ _ c => Some c) = Some r
  ↔ ∃ colon s',
      s = colon ++ s'
      ∧ (colon = [] ∨ colon = [58])
      ∧ matchM redirectFlags redirectBody (p + length colon) s' cap
          (fun _ _ c => Some c) = Some r.
Proof.
  rewrite matchM_seq, matchM_opt. split.
  - destruct s as [| ch s']; cbn [setM].
    + intros Hk. exists [], []. rewrite Nat.add_0_r. auto.
    + rewrite csMatch_ascii_char by lia.
      destruct (asciiLower ch =? asciiLower 58) eqn:Hch.
      * apply Z.eqb_eq, asciiLower_colon in Hch as ->.
        destruct (matchM redirectFlags redirectBody (S p) s' cap _) eqn:Hk.
        -- intros [= ->]. exists [58], s'. rewrite Nat.add_1_r. auto.
        -- intros Hk'. exists [], (58 :: s'). rewrite Nat.add_0_r. auto.
      * intros Hk. exists [], (ch :: s'). rewrite Nat.add_0_r. auto.
  - intros (colon & s' & -> & [-> | ->] & Hk).
    + rewrite Nat.add_0_r in Hk. simpl.
      pose proof Hk as Hshape.
      apply redirectBody_result in Hshape as (spaces & s1 & -> & Hsp & _).
      assert (Hnone : ∀ K, setM redirectFlags (CsChar 58) p
                             (spaces ++ js "[[" ++ s1) cap K = None).
      { intros K. destruct spaces as [| ch spaces]; [reflexivity |].
        apply Forall_cons in Hsp as [Hch _]. simpl app. cbn [setM].
        rewrite csMatch_ascii_char by lia.
        destruct (asciiLower ch =? asciiLower 58) eqn:Heq; [| done].
        apply Z.eqb_eq, asciiLower_colon in Heq as ->. done. }
      by rewrite Hnone.
    + rewrite Nat.add_1_r in Hk. simpl app. cbn [setM].
      rewrite csMatch_ascii_char by lia. rewrite Z.eqb_refl.
      by rewrite Hk.
Qed.

Lemma redirectExec (source : jsstring) :
  regexExec redirectFlags redirectPattern source
  = matchM redirectFlags
      (RSeq (lit (js "#redirect")) (RSeq (ROpt (CsChar 58)) redirectBody))
      0 source None (fun _ _ c => Some c).
Proof.
  unfold regexExec, redirectPattern.
  change (regexInput redirectFlags source) with source.
  by rewrite searchM_bol.
Qed.

(** X9. The redirect pattern of line 138, read as a description of the
    page text: the text is a redirect to [target] exactly when it starts
    with [#redirect] in any case, an optional colon, white space and
    [[[], followed by [target] and []]], where [target] is not empty and
    is the longest text on its line that is followed by []]]. *)
Theorem redirectTarget_iff_shape (source target : jsstring) :
  redirectTarget source = Some target ↔ redirectShape source target.
Proof.
  assert (Hlower : Forall (fun c => asciiLower c = c ∧ c < 128)
                     (js "#redirect")) by (repeat constructor).
  unfold redirectTarget, regexGroup1. rewrite redirectExec.
  change (unicode redirectFlags) with false. cbv iota.
  split.
  - destruct (matchM _ _ _ _ _ _) as [[g |] |] eqn:Hm; [| done | done].
    intros [= ->].
    rewrite matchM_seq in Hm.
    apply lit_result in Hm as (head & s1 & -> & Hhead & Hm).
    apply (Forall2_asciiLower head _ Hlower) in Hhead.
    apply redirectColon_result in Hm as (colon & s2 & -> & Hcolon & Hm).
    apply redirectBody_result in Hm as (spaces & s3 & -> & Hspaces & Hm).
    apply redirectTail_result in Hm
      as (t & rest & -> & Ht & Hline & [= ->] & Hmax).
    exists (head ++ colon), spaces, rest.
    split; [by rewrite <- !app_assoc |].
    split; [| done].
    rewrite fmap_app, Hhead.
    destruct Hcolon as [-> | ->]; [left | right]; done.
  - intros (head & spaces & rest & -> & Hhead & Hspaces & Ht & Hline & Hmax).
    assert (Hsplit : ∃ head0 colon,
              head = head0 ++ colon
              ∧ asciiLower <$> head0 = js "#redirect"
              ∧ (colon = [] ∨ colon = [58])).
    { destruct Hhead as [Hhead | Hhead].
      - exists head, []. rewrite app_nil_r. auto.
      - change (js "#redirect:") with (js "#redirect" ++ [58]) in Hhead.
        apply fmap_app_inv in Hhead as (head0 & colon & Hh0 & Hc & ->).
        exists head0, colon. split; [done |]. split; [done |]. right.
        destruct colon as [| ch [| ? ?]]; try discriminate.
        injection Hc as Hc. symmetry in Hc.
        by apply asciiLower_colon in Hc as ->. }
    destruct Hsplit as (head0 & colon & -> & Hhead0 & Hcolon).
    assert (Hm : matchM redirectFlags
                   (RSeq (lit (js "#redirect"))
                      (RSeq (ROpt (CsChar 58)) redirectBody)) 0
                   ((head0 ++ colon) ++ spaces ++ js "[[" ++ target
                      ++ js "]]" ++ rest) None (fun _ _ c => Some c)
                 = Some (Some target)); [| by rewrite Hm].
    rewrite matchM_seq. apply lit_result.
    exists head0, (colon ++ spaces ++ js "[[" ++ target ++ js "]]" ++ rest).
    split; [by rewrite <- app_assoc |].
    split; [by apply (Forall2_asciiLower head0 _ Hlower) |].
    apply redirectColon_result. eexists colon, _.
    split; [done |]. split; [done |].
    apply redirectBody_result. eexists spaces, _.
    split; [done |]. split; [done |].
    apply redirectTail_result. exists target, rest. done.
Qed.

(** ** The title is trimmed *)

Lemma head_rev {A} (l : list A) : head (rev l) = last l.
Proof. rewrite rev_alt. apply head_reverse. Qed.

Lemma trimStart_white (l s : jsstring) :
  Forall (fun c => isWhiteSpace c = true) l → trimStart (l ++ s) = trimStart s.
Proof. induction 1 as [| c l Hc _ IH]; simpl; [done | by rewrite Hc]. Qed.

Lemma trimStart_fixed (s : jsstring) :
  (∀ c, head s = Some c → isWhiteSpace c = false) → trimStart s = s.
Proof.
  destruct s as [| c s]; [done |]. intros H. simpl. by rewrite (H c).
Qed.

Lemma trimStart_split (s : jsstring) :
  ∃ l, s = l ++ trimStart s
       ∧ Forall (fun c => isWhiteSpace c = true) l
       ∧ ∀ c, head (trimStart s) = Some c → isWhiteSpace c = false.
Proof.
  induction s as [| c s (l & Hs & Hl & Hh)]; [by exists [] |].
  simpl. destruct (isWhiteSpace c) eqn:Hc.
  - exists (c :: l). split; [simpl; congruence |]. split; [by constructor | done].
  - exists []. split; [done |]. split; [done |]. simpl. congruence.
Qed.

(** X10. The title is trimmed, line 134: the result is what is left of
    the title without the white space at its two ends, and nothing else
    is such a part of it. *)
Theorem trim_iff_stripped (s t : jsstring) :
  trim s = t
  ↔ ∃ l r, s = l ++ t ++ r
           ∧ Forall (fun c => isWhiteSpace c = true) l
           ∧ Forall (fun c => isWhiteSpace c = true) r
           ∧ (∀ c, head t = Some c → isWhiteSpace c = false)
           ∧ (∀ c, last t = Some c → isWhiteSpace c = false).
Proof.
  unfold trim, trimEnd. split.
  - intros <-.
    destruct (trimStart_split s) as (l & Hs & Hl & Hh).
    destruct (trimStart_split (rev (trimStart s))) as (r & Hr & Hrw & Hrh).
    set (u := trimStart (rev (trimStart s))) in *.
    assert (Hsplit : trimStart s = rev u ++ rev r).
    { rewrite <- rev_app_distr, <- Hr. by rewrite rev_involutive. }
    exists l, (rev r). split; [by rewrite <- Hsplit |].
    split; [done |]. split; [by apply Forall_rev |]. split.
    + intros c Hc. apply Hh. rewrite Hsplit.
      destruct (rev u); [done | exact Hc].
    + intros c Hc. apply Hrh. rewrite <- (rev_involutive u).
      by rewrite head_rev.
  - intros (l & r & -> & Hl & Hr & Hh & Hla).
    rewrite trimStart_white by done.
    destruct t as [| c t].
    + simpl. rewrite <- (app_nil_r r), trimStart_white by done. done.
    + rewrite (trimStart_fixed ((c :: t) ++ r)) by (simpl; auto).
      rewrite rev_app_distr, trimStart_white by by apply Forall_rev.
      rewrite trimStart_fixed; [apply rev_involutive |].
      intros d Hd. apply Hla. by rewrite <- head_rev.
Qed.

(** ** Batches *)

Lemma batchesOf_app (a b : list Action) :
  batchesOf (a ++ b) = batchesOf a ++ batchesOf b.
Proof. apply omap_app. Qed.

Lemma batchesOf_disconnects (ids : list nat) :
  batchesOf (map (fun w => WorkerSend w Disconnect) ids) = [].
Proof. induction ids; simpl; done. Qed.

Lemma batchesOf_onClose (n : nat) : batchesOf (onClose n) = [].
Proof. apply batchesOf_disconnects. Qed.

Lemma write_exact (m : Master) (e : Entry) :
  Z.of_nat (length (batch m)) < kBatchSize →
  Z.of_nat (length (batch (write m e).1)) < kBatchSize
  ∧ Forall fullBatch (batchesOf (write m e).2)
  ∧ nWritten (write m e).1 = nWritten m.
Proof.
  intros Hb. pose proof kBatchSize_pos.
  destruct (write_cases m e) as [[-> Hl] | [-> Hl]]; simpl.
  - split; [lia |]. split; [| done]. repeat constructor.
    unfold fullBatch. rewrite length_app in *. simpl in *. lia.
  - done.
Qed.

Lemma countRead_batch (m : Master) :
  batch (countRead m).1 = batch m
  ∧ batchesOf (countRead m).2 = []
  ∧ nWritten (countRead m).1 = nWritten m.
Proof. by destruct (countRead_cases m) as [[-> _] | [-> _]]. Qed.

Lemma onPage_exact (n : nat) (m : Master) (page : Page) :
  Z.of_nat (length (batch m)) < kBatchSize →
  Z.of_nat (length (batch (onPage n m page).1)) < kBatchSize
  ∧ Forall fullBatch (batchesOf (onPage n m page).2)
  ∧ nWritten (onPage n m page).1 = nWritten m.
Proof.
  intros Hb.
  destruct (onPage_outcome n m page)
    as [title _ | raw text _ _ _ | raw text target _ _ _ _ e
        | raw text _ _ _ _ _ m1]; simpl; try done.
  - destruct (write_exact m e Hb) as (Hb' & Hf & Hw).
    destruct (countRead_batch (write m e).1) as (-> & Hn & ->).
    by rewrite batchesOf_app, Hn, app_nil_r.
  - by destruct (countRead_batch m1) as (-> & -> & ->).
Qed.

Lemma step_exact_batches (s s' : Sys) (ev : Event) :
  step s ev = Some s' →
  (Z.of_nat (length (batch (master s))) < kBatchSize
   ∧ Forall fullBatch (pending s)
   ∧ Forall fullBatch (batchesOf (history s))
   ∧ (kBatchSize | nWritten (master s))) →
  Z.of_nat (length (batch (master s'))) < kBatchSize
  ∧ Forall fullBatch (pending s')
  ∧ Forall fullBatch (batchesOf (history s'))
  ∧ (kBatchSize | nWritten (master s')).
Proof.
  intros Hs (Hb & Hp & Hh & Hw). unfold step in Hs.
  destruct (exited s); [done |].
  destruct ev as [page | i t0 t1 | i | i err | | msg | pid].
  - simplify_eq. fields. rewrite batchesOf_app, !Forall_app.
    destruct (onPage_exact (length (workers s)) (master s) page Hb)
      as (? & ? & ->). done.
  - destruct (workers s !! i) as [w |]; simpl in Hs; [| done].
    destruct (workerRun w t0 t1); simpl in Hs; [| done]. by simplify_eq.
  - destruct (workers s !! i) as [w |]; simpl in Hs; [| done].
    destruct (outbox w) as [| e rest]; [done |]. simplify_eq.
    fields. rewrite batchesOf_app, !Forall_app.
    destruct (write_exact (master s) e Hb) as (? & ? & ->). done.
  - destruct (pending s !! i) as [ops |] eqn:Hi; simpl in Hs; [| done].
    simplify_eq. fields. rewrite batchesOf_app, !Forall_app.
    pose proof (Forall_lookup_1 _ _ i ops Hp Hi) as Hops.
    pose proof (Forall_delete _ _ i Hp) as Hdel.
    destruct err as [e |]; simpl.
    + done.
    + assert (Hdiv : (kBatchSize | nWritten (master s)
                                   + Z.of_nat (length ops))).
      { apply Z.divide_add_r; [done |]. rewrite Hops. apply Z.divide_refl. }
      match goal with
      | |- context [if ?c then _ else _] => destruct c
      end; simpl; done.
  - simplify_eq. fields.
    rewrite batchesOf_app, batchesOf_onClose, batchesOf_disconnects.
    by rewrite ?app_nil_r.
  - simplify_eq. fields. by rewrite batchesOf_app, ?app_nil_r.
  - simplify_eq. fields. by rewrite batchesOf_app, ?app_nil_r.
Qed.

(** X11. Every call of [db.batch] carries exactly [kBatchSize] records, the
    batch in memory always holds fewer, and the written count is a
    multiple of [kBatchSize]. *)
Theorem batches_hold_exactly_kBatchSize (workerCount : nat)
    (evs : list Event) (s : Sys) :
  run (init workerCount) evs = Some s →
  Z.of_nat (length (batch (master s))) < kBatchSize
  ∧ Forall fullBatch (pending s)
  ∧ Forall fullBatch (batchesOf (history s))
  ∧ (kBatchSize | nWritten (master s)).
Proof.
  revert evs s.
  apply (run_invariant
           (fun _ s => Z.of_nat (length (batch (master s))) < kBatchSize
                       ∧ Forall fullBatch (pending s)
                       ∧ Forall fullBatch (batchesOf (history s))
                       ∧ (kBatchSize | nWritten (master s)))).
  - simpl. repeat split; try done. apply Z.divide_0_r.
  - intros pre s ev s' Hinv Hstep. by eapply step_exact_batches.
Qed.

(** ** No record is lost *)

Lemma step_not_exited (s s' : Sys) (ev : Event) :
  step s ev = Some s' → exited s = None.
Proof. unfold step. by destruct (exited s). Qed.

Lemma sum_alter_exact {A} (f : A → nat) (g : A → A) (c i : nat) (l : list A) :
  (i < length l)%nat → (∀ x, f (g x) = f x + c)%nat →
  sum_list_with f (alter g i l) = (sum_list_with f l + c)%nat.
Proof.
  intros Hi Hg. revert i Hi.
  induction l as [| x l IH]; intros i Hi; csimpl in *; [lia |].
  destruct i as [| i]; csimpl.
  - specialize (Hg x). clear IH. lia.
  - rewrite (IH i) by lia. lia.
Qed.

Lemma sum_insert_exact {A} (f : A → nat) (c i : nat) (x y : A) (l : list A) :
  l !! i = Some x → (f y + c = f x)%nat →
  (sum_list_with f (<[i:=y]> l) + c = sum_list_with f l)%nat.
Proof.
  intros Hl Hy. revert i Hl. induction l as [| z l IH]; intros i Hl; [done |].
  destruct i as [| i]; csimpl in *.
  - simplify_eq. clear IH. lia.
  - specialize (IH i Hl). lia.
Qed.

Lemma roundRobin_index (k : Z) (n : nat) :
  (0 < n)%nat → (Z.to_nat (k mod Z.of_nat n) < n)%nat.
Proof. intros Hn. pose proof (Z.mod_pos_bound k (Z.of_nat n)). lia. Qed.

Lemma step_conserves (s s' : Sys) (ev : Event) :
  step s ev = Some s' → exited s' = None →
  nRead (master s) = nWritten (master s) + Z.of_nat (inFlight s) →
  nRead (master s') = nWritten (master s') + Z.of_nat (inFlight s').
Proof.
  intros Hstep Hex Hinv. unfold step in Hstep.
  destruct (exited s) eqn:Hex0; [done |].
  unfold inFlight in *.
  destruct ev as [page | i t0 t1 | i | i err | | msg | pid].
  - simplify_eq. revert Hex.
    destruct (onPage_outcome (length (workers s)) (master s) page)
      as [title _ | raw text _ _ _ | raw text target _ _ _ _ e
          | raw text _ _ _ _ Hn m1].
    + fields. done.
    + fields. rewrite app_nil_r. done.
    + intros _.
      destruct (write_cases (master s) e) as [[Hw _] | [Hw _]]; rewrite Hw;
        simpl;
        match goal with
        | |- context [countRead ?m] =>
            destruct (countRead_cases m) as [[Hc _] | [Hc _]]; rewrite Hc
        end; fields;
        rewrite ?app_nil_r, ?sum_snoc, ?length_app in *; simpl; lia.
    + intros _.
      destruct (countRead_cases m1) as [[Hc _] | [Hc _]]; rewrite Hc; fields;
        rewrite ?app_nil_r;
        (rewrite (sum_alter_exact workerLoad _ 1);
         [lia | by apply roundRobin_index
          | intros x; rewrite workerLoad_enqueue; simpl; lia]).
  - destruct (workers s !! i) as [w |] eqn:Hw; simpl in Hstep; [| done].
    unfold workerRun in Hstep.
    destruct (connected w); [| done].
    destruct (inbox w) as [| msg rest] eqn:Hin; [done |].
    destruct (onMessage (parser w) msg t0 t1) as [ps acts] eqn:Hon.
    simpl in Hstep. simplify_eq. simpl.
    match goal with
    | |- context [<[i:=?w']> (workers s)] =>
        enough (Hs : (workerLoad w' + 0 = workerLoad w)%nat)
          by (pose proof (sum_insert_exact workerLoad 0 i w w' (workers s)
                            Hw Hs); lia)
    end.
    unfold onMessage in Hon. destruct msg as [id title source |].
    + destruct (parse (parser w) source) as [ps1 [nodes | err]];
        simplify_eq; unfold workerLoad; simpl; rewrite Hin; simpl;
        rewrite length_app; simpl; lia.
    + simplify_eq. unfold workerLoad. simpl. rewrite Hin. simpl. lia.
  - destruct (workers s !! i) as [w |] eqn:Hw; simpl in Hstep; [| done].
    destruct (outbox w) as [| e rest] eqn:Hout; [done |].
    simplify_eq.
    match goal with
    | |- context [setWorker s i ?w'] =>
        assert (Hle : (workerLoad w' + 1 = workerLoad w)%nat)
          by (unfold workerLoad; simpl; rewrite Hout; simpl; lia);
        pose proof (sum_insert_exact workerLoad 1 i w w' (workers s) Hw Hle)
          as Hs
    end.
    destruct (write_cases (master s) e) as [[Hwr _] | [Hwr _]]; rewrite Hwr;
      fields; rewrite ?app_nil_r, ?sum_snoc, ?length_app in *; simpl; lia.
  - destruct (pending s !! i) as [ops |] eqn:Hp; simpl in Hstep; [| done].
    simplify_eq.
    pose proof (sum_delete length i ops (pending s) Hp) as Hs.
    destruct err as [e |]; simpl in *.
    + revert Hex. fields. done.
    + match goal with
      | |- context [if ?c then _ else _] => destruct c
      end; fields; rewrite ?app_nil_r; lia.
  - simplify_eq. fields. rewrite load_disconnect_all.
    rewrite batchesOf_disconnects, app_nil_r. done.
  - simplify_eq. fields. rewrite ?app_nil_r. done.
  - by simplify_eq.
Qed.

Lemma init_idle (workerCount : nat) : inFlight (init workerCount) = 0%nat.
Proof.
  unfold inFlight, init. simpl.
  induction workerCount; simpl; [done | by rewrite <- IHworkerCount].
Qed.

(** X12. While the process runs no accepted record is lost: every record
    counted by [nRead] is written, or in the batch, in a pending call of
    [db.batch], in a worker's queue or on its way back. *)
Theorem no_record_lost_while_running (workerCount : nat) (evs : list Event)
    (s : Sys) :
  run (init workerCount) evs = Some s →
  exited s = None →
  nRead (master s) = nWritten (master s) + Z.of_nat (inFlight s).
Proof.
  revert evs s.
  apply (run_invariant
           (fun _ s => exited s = None →
                       nRead (master s)
                       = nWritten (master s) + Z.of_nat (inFlight s))).
  - intros _. by rewrite init_idle.
  - intros pre s ev s' Hinv Hstep Hex.
    eapply step_conserves; [done | done |].
    apply Hinv. by eapply step_not_exited.
Qed.

(** ** What is left in memory *)

Lemma sum_zero {A} (f : A → nat) (l : list A) :
  Forall (fun x => f x = 0%nat) l → sum_list_with f l = 0%nat.
Proof. induction 1 as [| x l Hx _ IH]; csimpl; [done | lia]. Qed.

Lemma quiescent_idle (s : Sys) :
  exited s = None → quiescent s →
  pending s = []
  ∧ Forall (fun w => outbox w = []) (workers s).
Proof.
  intros Hex Hq. split.
  - destruct (Hq 0%nat 0 0 None) as (_ & _ & Hb).
    unfold step in Hb. rewrite Hex in Hb.
    by destruct (pending s) as [| ops rest].
  - apply Forall_lookup. intros i w Hw.
    destruct (Hq i 0 0 None) as (_ & Hm & _).
    unfold step in Hm. rewrite Hex, Hw in Hm. simpl in Hm.
    by destruct (outbox w).
Qed.

(** X13. When nothing is left to happen and no page waits in a queue, the
    records written are the accepted ones up to the last multiple of
    [kBatchSize]; the others, [nRead mod kBatchSize] of them, are still
    in the batch in memory. *)
Theorem remainder_stays_in_memory (workerCount : nat) (evs : list Event)
    (s : Sys) :
  run (init workerCount) evs = Some s →
  exited s = None →
  quiescent s →
  Forall (fun w => Forall (fun m => isPageMsg m = false) (inbox w))
    (workers s) →
  Z.of_nat (length (batch (master s))) = nRead (master s) mod kBatchSize
  ∧ nWritten (master s)
    = nRead (master s) - nRead (master s) mod kBatchSize.
Proof.
  intros Hrun Hex Hq Hin.
  assert (Hinv : (exited s = None →
                  nRead (master s)
                  = nWritten (master s) + Z.of_nat (inFlight s))
                 ∧ Z.of_nat (length (batch (master s))) < kBatchSize
                 ∧ Forall fullBatch (pending s)
                 ∧ Forall fullBatch (batchesOf (history s))
                 ∧ (kBatchSize | nWritten (master s))).
  { revert evs s Hrun Hex Hq Hin. intros evs s Hrun _ _ _. revert evs s Hrun.
    apply (run_invariant
             (fun _ s =>
                (exited s = None →
                 nRead (master s)
                 = nWritten (master s) + Z.of_nat (inFlight s))
                ∧ Z.of_nat (length (batch (master s))) < kBatchSize
                ∧ Forall fullBatch (pending s)
                ∧ Forall fullBatch (batchesOf (history s))
                ∧ (kBatchSize | nWritten (master s)))).
    - split; [intros _; by rewrite init_idle |].
      simpl. repeat split; try done. apply Z.divide_0_r.
    - intros pre s0 ev s1 [Hcons Hfull] Hstep. split.
      + intros Hex1. eapply step_conserves; [done | done |].
        apply Hcons. by eapply step_not_exited.
      + by eapply step_exact_batches. }
  destruct Hinv as (Hcons & Hb & _ & _ & [k Hk]).
  specialize (Hcons Hex).
  destruct (quiescent_idle s Hex Hq) as [Hp Hout].
  assert (Hload : sum_list_with workerLoad (workers s) = 0%nat).
  { apply sum_zero. rewrite Forall_lookup in *. intros i w Hw.
    specialize (Hin i w Hw). specialize (Hout i w Hw). simpl in *.
    unfold workerLoad. rewrite Hout. simpl.
    assert (List.filter isPageMsg (inbox w) = []) as ->; [| done].
    induction Hin as [| m l Hm _ IH]; simpl; [done | by rewrite Hm]. }
  unfold inFlight in Hcons. rewrite Hp, Hload in Hcons. simpl in Hcons.
  assert (Hmod : nRead (master s) mod kBatchSize
                 = Z.of_nat (length (batch (master s)))).
  { symmetry. apply (Z.mod_unique_pos _ _ k); [lia |]. lia. }
  lia.
Qed.

(** ** What [nRead] counts *)

Lemma nRead_write (m : Master) (e : Entry) : nRead (write m e).1 = nRead m.
Proof. by destruct (write_cases m e) as [[-> _] | [-> _]]. Qed.

Lemma nRead_countRead (m : Master) : nRead (countRead m).1 = nRead m + 1.
Proof. by destruct (countRead_cases m) as [[-> _] | [-> _]]. Qed.

Lemma onPage_read (n : nat) (m : Master) (page : Page) :
  foldl exitAfter None (onPage n m page).2 = None →
  nRead (onPage n m page).1
  = nRead m + (if passesFilter page then 1 else 0).
Proof.
  unfold onPage, passesFilter.
  destruct (page_title page) as [raw |]; simpl; [| done].
  destruct (page_text page) as [text |]; simpl; [| done].
  destruct (excludedNamespace (trim raw)); simpl; [lia |].
  unfold forward.
  destruct (redirectTarget (default [] text)) as [target |]; simpl.
  - intros _.
    match goal with
    | |- context [write m ?e] =>
        pose proof (nRead_write m e) as Hw;
        destruct (write m e) as [m1 acts]
    end.
    pose proof (nRead_countRead m1) as Hc.
    destruct (countRead m1) as [m2 acts']. simpl in *. lia.
  - destruct n as [| n']; simpl; [done |]. intros _.
    match goal with
    | |- context [countRead ?m1] =>
        pose proof (nRead_countRead m1) as Hc;
        destruct (countRead m1) as [m2 acts']
    end.
    simpl in *. lia.
Qed.

Lemma step_read (s s' : Sys) (ev : Event) :
  step s ev = Some s' → exited s' = None →
  nRead (master s')
  = nRead (master s)
    + match ev with
      | EvPage page => if passesFilter page then 1 else 0
      | _ => 0
      end.
Proof.
  intros Hs Hex. unfold step in Hs.
  destruct (exited s) eqn:Hex0; [done |].
  destruct ev as [page | i t0 t1 | i | i err | | msg | pid].
  - simplify_eq. revert Hex. fields. rewrite Hex0. apply onPage_read.
  - destruct (workers s !! i) as [w |]; simpl in Hs; [| done].
    destruct (workerRun w t0 t1); simpl in Hs; [| done].
    simplify_eq. simpl. lia.
  - destruct (workers s !! i) as [w |]; simpl in Hs; [| done].
    destruct (outbox w) as [| e rest]; [done |]. simplify_eq.
    fields. rewrite nRead_write. lia.
  - destruct (pending s !! i) as [ops |]; simpl in Hs; [| done].
    simplify_eq. fields.
    destruct err as [e |]; simpl; [lia |].
    match goal with
    | |- context [if ?c then _ else _] => destruct c
    end; simpl; lia.
  - simplify_eq. fields. lia.
  - simplify_eq. fields. lia.
  - by simplify_eq.
Qed.

(** X14. While the process runs, [nRead] is the number of pages delivered
    so far whose title passed the namespace test: the redirects and the
    pages sent to workers, and no page that was dropped. *)
Theorem nRead_counts_accepted_pages (workerCount : nat) (evs : list Event)
    (s : Sys) :
  run (init workerCount) evs = Some s →
  exited s = None →
  nRead (master s)
  = Z.of_nat (length (List.filter passesFilter (pagesOf evs))).
Proof.
  revert evs s.
  apply (run_invariant
           (fun evs s =>
              exited s = None →
              nRead (master s)
              = Z.of_nat (length (List.filter passesFilter (pagesOf evs))))).
  - done.
  - intros pre s ev s' Hinv Hstep Hex.
    rewrite (step_read s s' ev Hstep Hex).
    rewrite Hinv by (by eapply step_not_exited).
    rewrite pagesOf_snoc, List.filter_app, length_app.
    destruct ev as [page | | | | | |]; simpl; try lia.
    destruct (passesFilter page); simpl; lia.
Qed.

(** ** The order of the records *)

Lemma write_accepted (m : Master) (e : Entry) :
  concat (batchesOf (write m e).2) ++ batch (write m e).1 = batch m ++ [e].
Proof.
  destruct (write_cases m e) as [[-> _] | [-> _]]; simpl;
    by rewrite ?app_nil_r.
Qed.

Lemma onPage_accepted (n : nat) (m : Master) (page : Page) :
  concat (batchesOf (onPage n m page).2) ++ batch (onPage n m page).1
  = batch m ++ option_list (redirectEntry page).
Proof.
  unfold onPage, redirectEntry.
  destruct (page_title page) as [raw |]; simpl; [| by rewrite app_nil_r].
  destruct (page_text page) as [text |]; simpl; [| by rewrite app_nil_r].
  destruct (excludedNamespace (trim raw)); simpl; [by rewrite app_nil_r |].
  unfold forward.
  destruct (redirectTarget (default [] text)) as [target |]; simpl.
  - match goal with
    | |- context [write m ?e] =>
        pose proof (write_accepted m e) as Hw;
        destruct (write m e) as [m1 acts]
    end.
    destruct (countRead_batch m1) as (Hb & Hn & _).
    destruct (countRead m1) as [m2 acts']. simpl in *.
    by rewrite batchesOf_app, Hn, app_nil_r, Hb.
  - destruct n as [| n']; simpl; [by rewrite app_nil_r |].
    match goal with
    | |- context [countRead ?m1] =>
        destruct (countRead_batch m1) as (Hb & Hn & _);
        destruct (countRead m1) as [m2 acts']
    end.
    simpl in *. by rewrite Hn, Hb, app_nil_r.
Qed.

Lemma accepted_handled (s : Sys) (r : Master * list Action) :
  accepted (handled s r)
  = concat (batchesOf (history s)) ++ concat (batchesOf r.2) ++ batch r.1.
Proof.
  unfold accepted. fields.
  by rewrite batchesOf_app, concat_app, <- app_assoc.
Qed.

Lemma step_accepted (s s' : Sys) (ev : Event) :
  step s ev = Some s' → accepted s' = accepted s ++ handedToWrite s ev.
Proof.
  intros Hs. unfold step in Hs.
  destruct (exited s); [done |].
  destruct ev as [page | i t0 t1 | i | i err | | msg | pid]; simpl.
  - simplify_eq. rewrite accepted_handled, onPage_accepted.
    unfold accepted. by rewrite <- app_assoc.
  - destruct (workers s !! i) as [w |]; simpl in Hs; [| done].
    destruct (workerRun w t0 t1); simpl in Hs; [| done].
    simplify_eq. by rewrite app_nil_r.
  - destruct (workers s !! i) as [w |]; simpl in Hs; [| done].
    destruct (outbox w) as [| e rest]; [done |]. simplify_eq.
    rewrite accepted_handled, write_accepted.
    unfold accepted. by rewrite <- app_assoc.
  - destruct (pending s !! i) as [ops |]; simpl in Hs; [| done].
    simplify_eq. rewrite accepted_handled, app_nil_r. unfold accepted.
    destruct err as [e |]; simpl; [done |].
    by match goal with
       | |- context [if ?c then _ else _] => destruct c
       end.
  - simplify_eq. rewrite accepted_handled, app_nil_r. simpl.
    by rewrite batchesOf_disconnects.
  - simplify_eq. by rewrite accepted_handled, app_nil_r.
  - simplify_eq. by rewrite accepted_handled, app_nil_r.
Qed.

(** X15. [write] neither drops, repeats nor reorders a record: the batches
    handed to the store, one after the other, and then the batch in
    memory are the records handed to [write], in the order of the
    calls. *)
Theorem records_batched_in_order (evs : list Event) : ∀ s s' : Sys,
  run s evs = Some s' → accepted s' = accepted s ++ writes s evs.
Proof.
  induction evs as [| ev evs IH]; intros s s' Hrun; simpl in *.
  - simplify_eq. by rewrite app_nil_r.
  - destruct (step s ev) as [s1 |] eqn:Hstep; simpl in Hrun; [| done].
    rewrite (IH s1 s' Hrun), (step_accepted s s1 ev Hstep).
    by rewrite <- app_assoc.
Qed.

(** ** The ways out *)

Lemma exit_write (m : Master) (e : Entry) (x : option Z) :
  foldl exitAfter x (write m e).2 = x.
Proof. by destruct (write_cases m e) as [[-> _] | [-> _]]. Qed.

Lemma exit_countRead (m : Master) (x : option Z) :
  foldl exitAfter x (countRead m).2 = x.
Proof. by destruct (countRead_cases m) as [[-> _] | [-> _]]. Qed.

Lemma exit_disconnects (ids : list nat) (x : option Z) :
  foldl exitAfter x (map (fun w => WorkerSend w Disconnect) ids) = x.
Proof. induction ids; simpl; done. Qed.

Lemma onPage_exit (n : nat) (m : Master) (page : Page) :
  foldl exitAfter None (onPage n m page).2
  = if fatal n (EvPage page) then Some 1 else None.
Proof.
  unfold onPage, fatal, dispatched.
  destruct (page_title page) as [raw |]; simpl; [| done].
  destruct (page_text page) as [text |]; simpl; [| done].
  destruct (excludedNamespace (trim raw)); simpl; [done |].
  unfold forward.
  destruct (redirectTarget (default [] text)) as [target |]; simpl.
  - match goal with
    | |- context [write m ?e] =>
        pose proof (exit_write m e None) as Hw;
        destruct (write m e) as [m1 acts]
    end.
    pose proof (exit_countRead m1 None) as Hc.
    destruct (countRead m1) as [m2 acts']. simpl in *.
    by rewrite foldl_app, Hw, Hc.
  - destruct n as [| n']; simpl; [done |].
    match goal with
    | |- context [countRead ?m1] =>
        pose proof (exit_countRead m1 None) as Hc;
        destruct (countRead m1) as [m2 acts']
    end.
    done.
Qed.

Lemma step_exit (s s' : Sys) (ev : Event) :
  step s ev = Some s' →
  exited s' = if fatal (length (workers s)) ev then Some 1 else None.
Proof.
  intros Hs. unfold step in Hs.
  destruct (exited s) eqn:Hex; [done |].
  destruct ev as [page | i t0 t1 | i | i err | | msg | pid].
  - simplify_eq. fields. rewrite Hex. apply onPage_exit.
  - destruct (workers s !! i) as [w |]; simpl in Hs; [| done].
    destruct (workerRun w t0 t1); simpl in Hs; [| done]. by simplify_eq.
  - destruct (workers s !! i) as [w |]; simpl in Hs; [| done].
    destruct (outbox w) as [| e rest]; [done |]. simplify_eq.
    by rewrite write_no_exit.
  - destruct (pending s !! i) as [ops |]; simpl in Hs; [| done].
    simplify_eq. fields. rewrite Hex.
    destruct err as [e |]; simpl; [done |].
    by match goal with
       | |- context [if ?c then _ else _] => destruct c
       end.
  - simplify_eq. fields. by rewrite exit_disconnects.
  - simplify_eq. by fields.
  - simplify_eq. by fields.
Qed.

(** X16. The handlers call [process.exit] with code 1 or not at all,
    and exactly at the first event of a run that is a page without title
    or text, a page for a worker when the pool is empty, a failed write,
    or the cluster event ['death']. *)
Theorem exit_only_on_fatal_event (workerCount : nat) (evs : list Event)
    (s : Sys) :
  run (init workerCount) evs = Some s →
  (exited s = None ∧ Forall (fun ev => fatal workerCount ev = false) evs)
  ∨ (exited s = Some 1
     ∧ ∃ pre ev, evs = pre ++ [ev]
                 ∧ fatal workerCount ev = true
                 ∧ Forall (fun ev => fatal workerCount ev = false) pre).
Proof.
  intros Hrun.
  enough (length (workers s) = workerCount
          ∧ ((exited s = None
              ∧ Forall (fun ev => fatal workerCount ev = false) evs)
             ∨ (exited s = Some 1
                ∧ ∃ pre ev, evs = pre ++ [ev]
                            ∧ fatal workerCount ev = true
                            ∧ Forall (fun ev => fatal workerCount ev = false)
                                pre))) as [_ H]; [exact H |].
  revert evs s Hrun.
  apply (run_invariant
           (fun evs s =>
              length (workers s) = workerCount
              ∧ ((exited s = None
                  ∧ Forall (fun ev => fatal workerCount ev = false) evs)
                 ∨ (exited s = Some 1
                    ∧ ∃ pre ev, evs = pre ++ [ev]
                                ∧ fatal workerCount ev = true
                                ∧ Forall (fun ev => fatal workerCount ev
                                                    = false) pre)))).
  - split; [apply length_replicate | left; done].
  - intros pre s ev s' [Hn Hinv] Hstep.
    split; [by rewrite (step_workers_length s s' ev Hstep) |].
    pose proof (step_not_exited s s' ev Hstep) as Hex.
    destruct Hinv as [[_ Hpre] | [Hx _]]; [| congruence].
    rewrite (step_exit s s' ev Hstep), Hn.
    destruct (fatal workerCount ev) eqn:Hf.
    + right. split; [done |]. by exists pre, ev.
    + left. split; [done |]. apply Forall_app. split; [done |].
      by constructor.
Qed.

(** ** The end of the input *)

Lemma deliver_disconnects (ws : list Worker) (n : nat) :
  (n ≤ length ws)%nat →
  foldl deliver ws (map (fun w => WorkerSend w Disconnect) (seq 0 n))
  = (enqueue Disconnect <$> take n ws) ++ drop n ws.
Proof.
  induction n as [| n IH]; intros Hn; [done |].
  rewrite seq_S, map_app, foldl_app, IH by lia. simpl.
  destruct (lookup_lt_is_Some_2 ws n) as [w Hw]; [lia |].
  rewrite (take_S_r ws n w Hw), (drop_S ws w n Hw), fmap_app, <- app_assoc.
  rewrite alter_app_r_alt by (rewrite length_fmap, length_take; lia).
  rewrite length_fmap, length_take.
  replace (n - n `min` length ws)%nat with 0%nat by lia. done.
Qed.

(** X17. At the end of the input every worker is sent [disconnect], once
    and after everything sent to it before; the counters, the batch in
    memory, the pending writes and the store are left as they are, and
    the process goes on. *)
Theorem close_disconnects_every_worker (s s' : Sys) :
  step s EvClose = Some s' →
  workers s' = enqueue Disconnect <$> workers s
  ∧ master s' = master s
  ∧ pending s' = pending s
  ∧ store s' = store s
  ∧ flowing s' = flowing s
  ∧ exited s' = None.
Proof.
  intros Hs. pose proof (step_not_exited _ _ _ Hs) as Hex.
  unfold step in Hs. rewrite Hex in Hs. simplify_eq. fields.
  rewrite batchesOf_disconnects, app_nil_r, exit_disconnects.
  rewrite flow_after_sends.
  rewrite deliver_disconnects, firstn_all, drop_all, app_nil_r by done.
  done.
Qed.

Lemma workerRun_page (w : Worker) (id : option jsstring)
    (title source : jsstring) (rest : list WorkerMsg) (t0 t1 : Z) :
  connected w = true → inbox w = PageMsg id title source :: rest →
  ∃ w', workerRun w t0 t1 = Some w'
        ∧ connected w' = true
        ∧ inbox w' = rest
        ∧ key <$> outbox w' = (key <$> outbox w) ++ [capitalizeFirst title].
Proof.
  intros Hc Hin. unfold workerRun. rewrite Hc, Hin. unfold onMessage.
  destruct (parse (parser w) source) as [ps [nodes | err]]; simpl;
    eexists; (split; [reflexivity |]); simpl; by rewrite fmap_app.
Qed.

(** X18. A connected worker answers every page queued before [disconnect],
    one reply per page and in the order of the queue, whatever the parser
    makes of the page; then it disconnects and leaves the rest of its
    queue alone. *)
Theorem worker_answers_queue_then_disconnects (msgs : list WorkerMsg) :
  ∀ (w : Worker) (later : list WorkerMsg) (times : list (Z * Z)),
    connected w = true →
    inbox w = msgs ++ Disconnect :: later →
    Forall (fun m => isPageMsg m = true) msgs →
    length times = S (length msgs) →
    ∃ w', workerRuns w times = Some w'
          ∧ connected w' = false
          ∧ inbox w' = later
          ∧ key <$> outbox w' = (key <$> outbox w) ++ omap messageKey msgs
          ∧ ∀ t0 t1, workerRun w' t0 t1 = None.
Proof.
  induction msgs as [| msg msgs IH]; intros w later times Hc Hin Hp Hlen.
  - destruct times as [| [t0 t1] [| ? ?]]; try discriminate.
    simpl in *. unfold workerRun. rewrite Hc, Hin. simpl.
    eexists. split; [reflexivity |]. simpl.
    rewrite app_nil_r. repeat (split; [done |]). done.
  - destruct times as [| [t0 t1] times]; [discriminate |].
    apply Forall_cons in Hp as [Hm Hp].
    destruct msg as [id title source |]; [| discriminate].
    destruct (workerRun_page w id title source _ t0 t1 Hc Hin)
      as (w1 & Hrun & Hc1 & Hin1 & Hout1).
    simpl in Hlen.
    destruct (IH w1 later times Hc1 Hin1 Hp ltac:(lia))
      as (w' & Hruns & Hc' & Hin' & Hout' & Hstop).
    exists w'. simpl. rewrite Hrun. simpl.
    split; [done |]. split; [done |]. split; [done |]. split; [| done].
    by rewrite Hout', Hout1, <- app_assoc.
Qed.

(** ** Keys and values *)

Lemma withSource_is_Some (source : jsstring) :
  is_Some (withSource source) ↔ kWithSource = true.
Proof.
  unfold withSource. destruct kWithSource; split; intros H; try done.
Qed.

Lemma write_keyed (m : Master) (e : Entry) :
  Forall wellKeyed (batch m) → wellKeyed e →
  Forall wellKeyed (batch (write m e).1)
  ∧ Forall (Forall wellKeyed) (batchesOf (write m e).2).
Proof.
  intros Hb He.
  assert (Forall wellKeyed (batch m ++ [e]))
    by (apply Forall_app; split; [done | by constructor]).
  destruct (write_cases m e) as [[-> _] | [-> _]]; simpl; split; try done.
  by constructor.
Qed.

Lemma onPage_keyed (n : nat) (m : Master) (page : Page) :
  Forall wellKeyed (batch m) →
  Forall wellKeyed (batch (onPage n m page).1)
  ∧ Forall (Forall wellKeyed) (batchesOf (onPage n m page).2).
Proof.
  intros Hb.
  destruct (onPage_outcome n m page)
    as [title _ | raw text _ _ _ | raw text target _ _ _ _ e
        | raw text _ _ _ _ _ m1]; simpl; try done.
  - assert (He : wellKeyed e)
      by (split; [done | apply withSource_is_Some]).
    destruct (write_keyed m e Hb He) as [Hb' Hf].
    destruct (countRead_batch (write m e).1) as (-> & Hn & _).
    by rewrite batchesOf_app, Hn, app_nil_r.
  - by destruct (countRead_batch m1) as (-> & -> & _).
Qed.

Lemma deliver_outboxes (P : list Entry → Prop) (acts : list Action) :
  ∀ ws, Forall (fun w => P (outbox w)) ws →
        Forall (fun w => P (outbox w)) (foldl deliver ws acts).
Proof.
  induction acts as [| a acts IH]; intros ws Hws; [done |].
  simpl. apply IH. destruct a; simpl; try done.
  apply Forall_alter; [done |]. intros w' _. done.
Qed.

Lemma workerRun_keyed (w w' : Worker) (t0 t1 : Z) :
  workerRun w t0 t1 = Some w' →
  Forall wellKeyed (outbox w) → Forall wellKeyed (outbox w').
Proof.
  unfold workerRun. destruct (connected w); [| done].
  destruct (inbox w) as [| msg rest]; [done |].
  destruct msg as [id title source |]; simpl.
  - destruct (parse (parser w) source) as [ps [nodes | err]]; simpl;
      intros [= <-] Hout; simpl; apply Forall_app; (split; [done |]);
      constructor; [| done | | done];
      (split; [done | apply withSource_is_Some]).
  - by intros [= <-].
Qed.

Lemma store_keyed (ops : list Entry) : ∀ st : gmap jsstring Value,
  Forall wellKeyed ops →
  map_Forall (fun k v => wellKeyed {| key := k; value := v |}) st →
  map_Forall (fun k v => wellKeyed {| key := k; value := v |})
    (foldl put st ops).
Proof.
  induction ops as [| e ops IH]; intros st Hops Hst; [done |].
  apply Forall_cons in Hops as [He Hops]. simpl. apply IH; [done |].
  unfold put. apply map_Forall_insert_2; [by destruct e | done].
Qed.

Lemma step_keyed (s s' : Sys) (ev : Event) :
  step s ev = Some s' →
  (Forall wellKeyed (batch (master s))
   ∧ Forall (Forall wellKeyed) (pending s)
   ∧ Forall (fun w => Forall wellKeyed (outbox w)) (workers s)
   ∧ map_Forall (fun k v => wellKeyed {| key := k; value := v |}) (store s)) →
  Forall wellKeyed (batch (master s'))
  ∧ Forall (Forall wellKeyed) (pending s')
  ∧ Forall (fun w => Forall wellKeyed (outbox w)) (workers s')
  ∧ map_Forall (fun k v => wellKeyed {| key := k; value := v |}) (store s').
Proof.
  intros Hs (Hb & Hp & Hw & Hst). unfold step in Hs.
  destruct (exited s); [done |].
  destruct ev as [page | i t0 t1 | i | i err | | msg | pid].
  - simplify_eq. fields. rewrite Forall_app.
    destruct (onPage_keyed (length (workers s)) (master s) page Hb).
    split; [done |]. split; [done |]. split; [| done].
    by apply (deliver_outboxes (Forall wellKeyed)).
  - destruct (workers s !! i) as [w |] eqn:Hi; simpl in Hs; [| done].
    destruct (workerRun w t0 t1) as [w' |] eqn:Hrun; simpl in Hs; [| done].
    simplify_eq. simpl. split; [done |]. split; [done |]. split; [| done].
    apply Forall_insert; [done |].
    apply (workerRun_keyed w w' t0 t1 Hrun).
    exact (Forall_lookup_1 _ _ i w Hw Hi).
  - destruct (workers s !! i) as [w |] eqn:Hi; simpl in Hs; [| done].
    destruct (outbox w) as [| e rest] eqn:Hout; [done |]. simplify_eq.
    pose proof (Forall_lookup_1 _ _ i w Hw Hi) as Hw0. simpl in Hw0.
    rewrite Hout in Hw0. apply Forall_cons in Hw0 as [He Hrest].
    fields. rewrite Forall_app.
    destruct (write_keyed (master s) e Hb He).
    split; [done |]. split; [done |]. split; [| done].
    apply (deliver_outboxes (Forall wellKeyed)).
    by apply Forall_insert.
  - destruct (pending s !! i) as [ops |] eqn:Hi; simpl in Hs; [| done].
    simplify_eq. fields. rewrite Forall_app.
    pose proof (Forall_lookup_1 _ _ i ops Hp Hi) as Hops.
    pose proof (Forall_delete _ _ i Hp) as Hdel.
    assert (Hw' : ∀ acts, Forall (fun w => Forall wellKeyed (outbox w))
                            (foldl deliver (workers s) acts))
      by (intros acts; by apply (deliver_outboxes (Forall wellKeyed))).
    destruct err as [e |]; simpl.
    + done.
    + pose proof (store_keyed ops (store s) Hops Hst).
      match goal with
      | |- context [if ?c then _ else _] => destruct c
      end; simpl; done.
  - simplify_eq. fields. rewrite batchesOf_disconnects, app_nil_r.
    split; [done |]. split; [done |]. split; [| done].
    by apply (deliver_outboxes (Forall wellKeyed)).
  - simplify_eq. fields. by rewrite ?app_nil_r.
  - simplify_eq. fields. by rewrite ?app_nil_r.
Qed.

(** X19. Every record of the store lies under the capitalised form of the
    title it carries, and it carries the page source exactly when the
    program was started with [--with-source]. *)
Theorem stored_under_capitalized_title (workerCount : nat)
    (evs : list Event) (s : Sys) (k : jsstring) (v : Value) :
  run (init workerCount) evs = Some s →
  store s !! k = Some v →
  k = capitalizeFirst (valueTitle v)
  ∧ (is_Some (valueSource v) ↔ kWithSource = true).
Proof.
  intros Hrun Hk.
  enough (Hinv : Forall wellKeyed (batch (master s))
                 ∧ Forall (Forall wellKeyed) (pending s)
                 ∧ Forall (fun w => Forall wellKeyed (outbox w)) (workers s)
                 ∧ map_Forall
                     (fun k v => wellKeyed {| key := k; value := v |})
                     (store s)).
  { destruct Hinv as (_ & _ & _ & Hst). exact (Hst k v Hk). }
  clear Hk. revert evs s Hrun.
  apply (run_invariant
           (fun _ s =>
              Forall wellKeyed (batch (master s))
              ∧ Forall (Forall wellKeyed) (pending s)
              ∧ Forall (fun w => Forall wellKeyed (outbox w)) (workers s)
              ∧ map_Forall
                  (fun k v => wellKeyed {| key := k; value := v |})
                  (store s))).
  - simpl. split; [done |]. split; [done |]. split.
    + apply Forall_replicate. simpl. done.
    + apply map_Forall_empty.
  - intros pre s0 ev s1 Hinv Hstep. by eapply step_keyed.
Qed.

(** ** No pause without need *)

Lemma stepPaced_paused (s s' : Sys) (ev : Event) :
  stepPaced s ev = Some s' →
  ((flowing s = true →
    nRead (master s) - nWritten (master s) < kMaxPagesInFlight)
   ∧ (flowing s = false →
      nRead (master s) - nWritten (master s) = kMaxPagesInFlight)
   ∧ Forall (fun b => b ≠ []) (pending s)) →
  flowing s' = false →
  nRead (master s') - nWritten (master s') = kMaxPagesInFlight.
Proof.
  intros Hstep (Hflow & Hpaused & Hpend).
  assert (Hflowing : match ev with EvPage _ => flowing s = true | _ => True end).
  { destruct ev; simpl in Hstep; try done. by destruct (flowing s). }
  assert (Hs : step s ev = Some s').
  { destruct ev; simpl in Hstep; try done. by destruct (flowing s). }
  clear Hstep. unfold step in Hs. destruct (exited s); [done |].
  destruct ev as [page | i t0 t1 | i | i err | | msg | pid].
  - simplify_eq. specialize (Hflow Hflowing).
    destruct (onPage_outcome (length (workers s)) (master s) page)
      as [title _ | raw text _ _ _ | raw text target _ _ _ _ e
          | raw text _ _ _ _ _ m1].
    + fields. rewrite Hflowing. done.
    + fields. rewrite Hflowing. done.
    + destruct (write_cases (master s) e) as [[Hw _] | [Hw _]]; rewrite Hw;
        simpl;
        match goal with
        | |- context [countRead ?m] =>
            destruct (countRead_cases m) as [[Hc Hd] | [Hc Hd]]; rewrite Hc
        end; fields; simpl in Hd; rewrite ?Hflowing; intros; (done || lia).
    + destruct (countRead_cases m1) as [[Hc Hd] | [Hc Hd]]; rewrite Hc; fields;
        simpl in Hd; rewrite ?Hflowing; intros; (done || lia).
  - destruct (workers s !! i) as [w |]; simpl in Hs; [| done].
    destruct (workerRun w t0 t1); simpl in Hs; [| done].
    simplify_eq. done.
  - destruct (workers s !! i) as [w |]; simpl in Hs; [| done].
    destruct (outbox w) as [| e rest]; [done |]. simplify_eq.
    destruct (write_cases (master s) e) as [[Hw _] | [Hw _]]; rewrite Hw;
      fields; done.
  - destruct (pending s !! i) as [ops |] eqn:Hp; simpl in Hs; [| done].
    simplify_eq.
    pose proof (lookup_nonempty i (pending s) ops Hpend Hp) as Hops.
    destruct err as [e |]; simpl.
    + fields. done.
    + match goal with
      | |- context [if ?c then _ else _] => destruct c eqn:Hc
      end; fields; [done |].
      intros Hf. specialize (Hpaused Hf).
      apply Z.leb_gt in Hc. simpl in Hc. lia.
  - simplify_eq. fields. by rewrite flow_after_sends.
  - simplify_eq. fields. done.
  - simplify_eq. fields. done.
Qed.

(** X20. With a stream that delivers no page between [pause()] and
    [resume()], the stream is paused exactly while [kMaxPagesInFlight]
    accepted records wait to be written: it is never paused with room in
    the window, and the first successful write resumes it. *)
Theorem paused_iff_window_full (workerCount : nat) (evs : list Event)
    (s : Sys) :
  runPaced (init workerCount) evs = Some s →
  flowing s = false
  ↔ nRead (master s) - nWritten (master s) = kMaxPagesInFlight.
Proof.
  intros Hrun.
  enough (Hinv : nRead (master s) - nWritten (master s) <= kMaxPagesInFlight
                 ∧ (flowing s = true →
                    nRead (master s) - nWritten (master s)
                    < kMaxPagesInFlight)
                 ∧ (flowing s = false →
                    nRead (master s) - nWritten (master s)
                    = kMaxPagesInFlight)
                 ∧ Forall (fun b => b ≠ []) (pending s)).
  { destruct Hinv as (_ & Hflow & Hpaused & _). split; [done |].
    intros Hfull. destruct (flowing s); [| done].
    specialize (Hflow eq_refl). lia. }
  revert evs s Hrun. apply runPaced_invariant.
  - simpl. pose proof kMaxPagesInFlight_pos. repeat split; (lia || done).
  - intros s ev s' (Hle & Hflow & Hpaused & Hpend) Hstep.
    destruct (stepPaced_window s s' ev Hstep) as (Hle' & Hflow' & Hpend');
      [done |].
    split; [done |]. split; [done |]. split; [| done].
    by apply (stepPaced_paused s s' ev Hstep).
Qed.

End Properties.

(** * The theorems at sample inputs *)

Section Samples.

Local Existing Instances demoTables demoParser demoOptions.

Lemma demo_toUpperCase_unit (c : Z) :
  128 <= c < 0x10000 →
  toUpperCase [c]
  = [if isSurrogate c then c
     else if inRange 0x430 0x44F c then c - 0x20
     else if inRange 0x450 0x45F c then c - 0x50
     else c].
Proof.
  intros Hc. rewrite toUpperCase_unit. unfold upperCodePoint.
  destruct (isSurrogate c); [apply utf16_bmp; lia |].
  destruct (Z.ltb_spec c 128); [lia |].
  simpl upperTable. unfold demoUpper.
  destruct (inRange 0x430 0x44F c); [apply utf16_bmp; lia |].
  destruct (inRange 0x450 0x45F c); apply utf16_bmp; lia.
Qed.

Lemma demo_upperStable : upperStable.
Proof.
  intros c Hc. eexists _, []. split; [by apply demo_toUpperCase_unit |].
  rewrite demo_toUpperCase_unit.
  - f_equal. unfold isSurrogate, inRange. zcases.
  - unfold isSurrogate, inRange. zcases.
Qed.

(** The title [ка] becomes [Ка], once and for all. *)
Lemma capitalizeFirst_first_only_idempotent_witness :
  capitalizeFirst [0x43A; 0x430] = [0x41A; 0x430]
  ∧ (capitalizeFirst [0x43A; 0x430]
     = toUpperCase (firstn 1 [0x43A; 0x430]) ++ skipn 1 [0x43A; 0x430]
     ∧ capitalizeFirst (capitalizeFirst [0x43A; 0x430])
       = capitalizeFirst [0x43A; 0x430]).
Proof.
  split; [reflexivity |].
  apply (capitalizeFirst_first_only_idempotent [0x43A; 0x430] demo_upperStable).
  repeat constructor; unfold isCodeUnit; lia.
Defined.

Lemma namespace_test_ignores_case_witness :
  Forall2 sameAsciiCase (js "category:X") (js "CATEGORY:x")
  ∧ (excludedNamespace (js "category:X") = excludedNamespace (js "CATEGORY:x")
     ∧ excludedNamespace (js "Category:" ++ js "X") = false
     ∧ excludedNamespace (kategoriya ++ js ":" ++ js "X") = false).
Proof.
  assert (H : Forall2 sameAsciiCase (js "category:X") (js "CATEGORY:x"))
    by (repeat constructor).
  split; [exact H |].
  exact (namespace_test_ignores_case (js "category:X") (js "CATEGORY:x")
           (js "X") H).
Defined.

(** The lower-case prefix is allowed by the program and would be excluded
    by a case-sensitive comparison; the Russian prefix is allowed as well
    as the English one. *)
Lemma namespace_test_case_sensitive_counterexample :
  excludedNamespace (js "category:X") = false
  ∧ excludedNamespaceCaseSensitive (js "category:X") = true
  ∧ excludedNamespace (js "category:X")
    ≠ excludedNamespaceCaseSensitive (js "category:X")
  ∧ excludedNamespace (js "Category:X") = false
  ∧ excludedNamespace (kategoriya ++ js ":X") = false.
Proof. repeat split; try reflexivity. discriminate. Qed.

Lemma parser_error_is_recovered_witness :
  workers brokenQueued !! 0%nat = Some brokenWorker
  ∧ ∃ w' s',
      step brokenQueued (EvWorkerRun 0 0 5) = Some s'
      ∧ workers s' !! 0%nat = Some w'
      ∧ workerConsole w' = [(js "Broken", js "unbalanced braces")]
      ∧ outbox w'
        = [{| key := js "Broken";
              value := PageValue (Some (js "5")) (js "Broken") []
                         (Qmake 5 1000) 0 None |}]
      ∧ connected w' = true
      ∧ inbox w' = []
      ∧ exited s' = None
      ∧ (∀ t0 t1, @nil WorkerMsg ≠ [] → is_Some (step s' (EvWorkerRun 0 t0 t1)))
      ∧ (∃ s'', step s' (EvWorkerMessage 0) = Some s'' ∧ exited s'' = None).
Proof.
  split; [reflexivity |].
  exact (parser_error_is_recovered brokenQueued 0 brokenWorker (Some (js "5"))
           (js "Broken") (js "{{{") [] (js "unbalanced braces") 1 0 5
           eq_refl eq_refl eq_refl eq_refl eq_refl).
Defined.

Lemma round_robin_dispatch_witness :
  ∃ s, run (init 2) sampleRun = Some s
       ∧ snd <$> pageSends (history s) = omap dispatched (pagesOf sampleRun)
       ∧ (∀ i w msg, pageSends (history s) !! i = Some (w, msg) →
                     w = (i mod 2)%nat)
       ∧ nSentToWorkers (master s) = Z.of_nat (length (pageSends (history s))).
Proof.
  eexists. split; [vm_compute; reflexivity |].
  apply (round_robin_dispatch 2 sampleRun); [lia | vm_compute; reflexivity].
Defined.

Lemma written_never_exceeds_read_witness :
  ∃ s, run (init 2) sampleRun = Some s
       ∧ nWritten (master s) <= nRead (master s)
       ∧ nWritten (master s) + Z.of_nat (inFlight s) <= nRead (master s).
Proof.
  eexists. split; [vm_compute; reflexivity |].
  apply (written_never_exceeds_read 2 sampleRun). vm_compute. reflexivity.
Defined.



Lemma excluded_namespace_dropped_witness :
  ∃ s, run (init 2) sampleRun = Some s
       ∧ Forall (fun t => excludedNamespace t = false) (sentTitles (history s))
       ∧ (∀ k, is_Some (store s !! k) → keyOfAccepted sampleRun k).
Proof.
  eexists. split; [vm_compute; reflexivity |].
  split;
    apply (excluded_namespace_dropped 2 sampleRun); vm_compute; reflexivity.
Defined.

(** A page [Category:X] is sent to a worker, and its key is in the store
    once a batch of a hundred such pages is written. *)
Lemma category_is_processed_counterexample :
  excludedNamespace (js "Category:X") = false
  ∧ (∃ s, run (init 1) [EvPage pageCategory] = Some s
          ∧ history s = [WorkerSend 0 (PageMsg (Some (js "2")) (js "Category:X")
                                         (js "anything"))])
  ∧ ∃ s v,
      run (init 1)
        (concat (replicate 100 [EvPage pageCategory; EvWorkerRun 0 0 5;
                                EvWorkerMessage 0])
         ++ [EvBatchDone 0 None]) = Some s
      ∧ store s !! js "Category:X" = Some v.
Proof.
  split; [reflexivity |]. split.
  - eexists. split; vm_compute; reflexivity.
  - eexists _, _. split; vm_compute; reflexivity.
Qed.

(** A page, an error of the XML reader and the end of the input. *)
Lemma xml_error_reported_not_fatal_witness :
  ∃ s', run (init 1)
          [EvPage pageTest; EvXmlError (js "mismatched tag"); EvClose]
        = Some s'
        ∧ exited s' = None
        ∧ nRead (master s') = 1
        ∧ ((∃ s'', run (init 1)
                     (withoutXmlErrors
                        [EvPage pageTest; EvXmlError (js "mismatched tag");
                         EvClose]) = Some s''
                   ∧ sameButLog s' s'')
           ∧ xmlLines (console s')
             = xmlLines (console (init 1))
               ++ xmlErrors [EvPage pageTest;
                             EvXmlError (js "mismatched tag"); EvClose]
           ∧ (∀ (s0 : Sys) (page : Page), exited s0 = None → malformed page →
                ∃ s1, step s0 (EvPage page) = Some s1
                      ∧ exited s1 = Some 1
                      ∧ console s1
                        = console s0
                          ++ [LogPageFailed (trim <$> page_title page)]
                      ∧ master s1 = master s0
                      ∧ store s1 = store s0
                      ∧ ∀ ev, step s1 ev = None)).
Proof.
  eexists. split; [vm_compute; reflexivity |].
  split; [reflexivity |]. split; [reflexivity |].
  apply (xml_error_reported_not_fatal (init 1)).
  vm_compute. reflexivity.
Defined.

(** The error of the XML reader is logged and the process goes on; the
    page without a title is logged and ends the process. *)
Lemma xml_error_survived_malformed_page_fatal_counterexample :
  (∃ s, run (init 1) [EvPage pageTest; EvXmlError (js "mismatched tag")]
        = Some s
        ∧ exited s = None
        ∧ console s = [LogXmlFailed (js "mismatched tag")])
  ∧ (∃ s, run (init 1) [EvPage pageUntitled] = Some s
          ∧ exited s = Some 1
          ∧ console s = [LogPageFailed None]
          ∧ nRead (master s) = 0
          ∧ store s = ∅).
Proof.
  split; eexists; (split; [vm_compute; reflexivity |]);
    repeat split; reflexivity.
Qed.

End Samples.

(** * The further properties at sample inputs *)

#[local] Existing Instances demoTables demoParser demoOptions.

Lemma switch_not_positional :
  js "--with-source" ∉ [js "dump.xml.bz2"] ++ [js "db"; js "4"].
Proof.
  simpl app.
  repeat (apply not_elem_of_cons; split; [vm_compute; discriminate |]).
  apply not_elem_of_nil.
Defined.

Lemma argsExtractSwitch_first_occurrence_witness :
  (js "--with-source" ∉ [js "dump.xml.bz2"])
  ∧ argsExtractSwitch [js "dump.xml.bz2"; js "--with-source"; js "db";
                       js "--with-source"] (js "--with-source")
    = (true, [js "dump.xml.bz2"; js "db"; js "--with-source"]).
Proof.
  assert (H : js "--with-source" ∉ [js "dump.xml.bz2"]).
  { repeat (apply not_elem_of_cons; split; [vm_compute; discriminate |]).
    apply not_elem_of_nil. }
  split; [exact H |].
  exact (proj2 (argsExtractSwitch_first_occurrence [] [js "dump.xml.bz2"]
                  [js "db"; js "--with-source"] (js "--with-source")) H).
Defined.

Lemma commandLine_switch_anywhere_witness :
  (js "--with-source" ∉ [js "dump.xml.bz2"] ++ [js "db"; js "4"])
  ∧ commandLine demoNumber 8
      ([js "dump.xml.bz2"] ++ js "--with-source" :: [js "db"; js "4"])
    = Some {| kDumpFilename := js "dump.xml.bz2"; kLevelDbPath := js "db";
              kWorkerCount := JSFinite (inject_Z 4);
              switchWithSource := true |}
  ∧ (commandLine demoNumber 8
       ([js "dump.xml.bz2"] ++ js "--with-source" :: [js "db"; js "4"])
     = withSwitch <$> commandLine demoNumber 8
                        ([js "dump.xml.bz2"] ++ [js "db"; js "4"])
     ∧ ∀ c, commandLine demoNumber 8 ([js "dump.xml.bz2"] ++ [js "db"; js "4"])
            = Some c → switchWithSource c = false).
Proof.
  split; [exact switch_not_positional |].
  split; [vm_compute; reflexivity |].
  exact (commandLine_switch_anywhere demoNumber 8 [js "dump.xml.bz2"]
           [js "db"; js "4"] switch_not_positional).
Defined.

(** A count of two and a half makes three workers. *)
Lemma forkWorkers_pool_witness :
  Qceiling (5 # 2) <= 2 ^ 53
  ∧ (Z.to_nat (Qceiling (5 # 2)) < 10)%nat
  ∧ forkWorkers 10 0 (JSFinite (5 # 2)) [] = Some (workers (init 3)).
Proof.
  assert (Hsmall : Qceiling (5 # 2) <= 2 ^ 53) by (vm_compute; discriminate).
  assert (Hfuel : (Z.to_nat (Qceiling (5 # 2)) < 10)%nat) by (vm_compute; lia).
  split; [exact Hsmall |]. split; [exact Hfuel |].
  exact (proj1 (forkWorkers_pool (5 # 2) 10 Hsmall Hfuel)).
Defined.

Lemma batches_hold_exactly_kBatchSize_witness :
  ∃ s, run (init 1) hundredRedirects = Some s
       ∧ nWritten (master s) = 100
       ∧ length (batch (master s)) = 1%nat
       ∧ (Z.of_nat (length (batch (master s))) < kBatchSize
          ∧ Forall fullBatch (pending s)
          ∧ Forall fullBatch (batchesOf (history s))
          ∧ (kBatchSize | nWritten (master s))).
Proof.
  eexists. split; [vm_compute; reflexivity |].
  split; [reflexivity |]. split; [reflexivity |].
  apply (batches_hold_exactly_kBatchSize 1 hundredRedirects).
  vm_compute. reflexivity.
Defined.

Lemma no_record_lost_while_running_witness :
  ∃ s, run (init 2) sampleRun = Some s
       ∧ exited s = None
       ∧ nRead (master s) = nWritten (master s) + Z.of_nat (inFlight s).
Proof.
  eexists. split; [vm_compute; reflexivity |].
  split; [reflexivity |].
  apply (no_record_lost_while_running 2 sampleRun);
    [vm_compute; reflexivity | reflexivity].
Defined.

Lemma remainder_stays_in_memory_witness :
  ∃ s, run (init 1) lastPage = Some s
       ∧ exited s = None
       ∧ quiescent s
       ∧ Forall (fun w => Forall (fun m => isPageMsg m = false) (inbox w))
           (workers s)
       ∧ (Z.of_nat (length (batch (master s))) = nRead (master s) mod kBatchSize
          ∧ nWritten (master s)
            = nRead (master s) - nRead (master s) mod kBatchSize).
Proof.
  eexists. split; [vm_compute; reflexivity |].
  assert (Hq : quiescent
                 {| master := {| nRead := 1; nWritten := 0;
                                 batch := [{| key := js "Test";
                                              value := PageValue (Some (js "1"))
                                                         (js "Test") [js "Hello"]
                                                         (5 # 1000) 0 None |}];
                                 nSentToWorkers := 1 |};
                    flowing := true;
                    workers := [{| inbox := []; outbox := []; connected := false;
                                   parser := 1; workerConsole := [] |}];
                    pending := [];
                    store := ∅;
                    console := [LogShuttingDown];
                    exited := None;
                    history := [WorkerSend 0 (PageMsg (Some (js "1")) (js "Test")
                                                (js "Hello"));
                                Console LogShuttingDown;
                                WorkerSend 0 Disconnect] |}).
  { intros [| i] startTime endTime err; repeat split; reflexivity. }
  assert (Hin : Forall (fun w : Worker =>
                          Forall (fun m => isPageMsg m = false) (inbox w))
                  [{| inbox := []; outbox := []; connected := false;
                      parser := 1; workerConsole := [] |}])
    by (repeat constructor).
  split; [reflexivity |]. split; [exact Hq |]. split; [exact Hin |].
  apply (remainder_stays_in_memory 1 lastPage);
    [vm_compute; reflexivity | reflexivity | exact Hq | exact Hin].
Defined.

(** Of the five pages of the sample run, [Template:X] is dropped. *)
Lemma nRead_counts_accepted_pages_witness :
  ∃ s, run (init 2) sampleRun = Some s
       ∧ exited s = None
       ∧ nRead (master s) = 4
       ∧ nRead (master s)
         = Z.of_nat (length (List.filter passesFilter (pagesOf sampleRun))).
Proof.
  eexists. split; [vm_compute; reflexivity |].
  split; [reflexivity |]. split; [reflexivity |].
  apply (nRead_counts_accepted_pages 2 sampleRun);
    [vm_compute; reflexivity | reflexivity].
Defined.

Lemma records_batched_in_order_witness :
  ∃ s, run (init 2) sampleRun = Some s
       ∧ key <$> accepted s = [js "Foo"; js "Test"]
       ∧ accepted s = accepted (init 2) ++ writes (init 2) sampleRun.
Proof.
  eexists. split; [vm_compute; reflexivity |].
  split; [vm_compute; reflexivity |].
  apply (records_batched_in_order sampleRun (init 2)).
  vm_compute. reflexivity.
Defined.

(** Without a worker the redirect [foo] is written and the page [Test]
    ends the process. *)
Lemma exit_only_on_fatal_event_witness :
  ∃ s, run (init 0) [EvPage pageFoo; EvPage pageTest] = Some s
       ∧ exited s = Some 1
       ∧ ((exited s = None
           ∧ Forall (fun ev => fatal 0 ev = false)
               [EvPage pageFoo; EvPage pageTest])
          ∨ (exited s = Some 1
             ∧ ∃ pre ev, [EvPage pageFoo; EvPage pageTest] = pre ++ [ev]
                         ∧ fatal 0 ev = true
                         ∧ Forall (fun ev => fatal 0 ev = false) pre)).
Proof.
  eexists. split; [vm_compute; reflexivity |].
  split; [reflexivity |].
  apply (exit_only_on_fatal_event 0 [EvPage pageFoo; EvPage pageTest]).
  vm_compute. reflexivity.
Defined.

Lemma close_disconnects_every_worker_witness :
  ∃ s, step (init 2) EvClose = Some s
       ∧ inbox <$> workers s = [[Disconnect]; [Disconnect]]
       ∧ (workers s = enqueue Disconnect <$> workers (init 2)
          ∧ master s = master (init 2)
          ∧ pending s = pending (init 2)
          ∧ store s = store (init 2)
          ∧ flowing s = flowing (init 2)
          ∧ exited s = None).
Proof.
  eexists. split; [vm_compute; reflexivity |].
  split; [reflexivity |].
  apply (close_disconnects_every_worker (init 2)). vm_compute. reflexivity.
Defined.

(** The page [Broken], which the parser refuses, and the page [test] are
    both answered before the worker disconnects. *)
Lemma worker_answers_queue_then_disconnects_witness :
  ∃ w', workerRuns queuedWorker [(0, 1); (1, 2); (2, 3)] = Some w'
        ∧ connected w' = false
        ∧ inbox w' = []
        ∧ key <$> outbox w' = [js "Broken"; js "Test"]
        ∧ ∀ t0 t1, workerRun w' t0 t1 = None.
Proof.
  apply (worker_answers_queue_then_disconnects
           [PageMsg (Some (js "5")) (js "Broken") (js "{{{");
            PageMsg (Some (js "1")) (js "test") (js "Hello")]
           queuedWorker [] [(0, 1); (1, 2); (2, 3)]);
    [reflexivity | reflexivity | repeat constructor | reflexivity].
Defined.

Lemma stored_under_capitalized_title_witness :
  ∃ s v, run (init 1) hundredRedirects = Some s
         ∧ store s !! js "Foo" = Some v
         ∧ valueTitle v = js "foo"
         ∧ (js "Foo" = capitalizeFirst (valueTitle v)
            ∧ (is_Some (valueSource v) ↔ kWithSource = true)).
Proof.
  eexists _, _. split; [vm_compute; reflexivity |].
  split; [vm_compute; reflexivity |].
  split; [reflexivity |].
  eapply (stored_under_capitalized_title 1 hundredRedirects);
    vm_compute; reflexivity.
Defined.

Lemma paused_iff_window_full_witness :
  ∃ s, runPaced (init 2) sampleRun = Some s
       ∧ flowing s = true
       ∧ (flowing s = false
          ↔ nRead (master s) - nWritten (master s) = kMaxPagesInFlight).
Proof.
  eexists. split; [vm_compute; reflexivity |].
  split; [reflexivity |].
  apply (paused_iff_window_full 2 sampleRun). vm_compute. reflexivity.
Defined.
